(** * The AI dictionary: speech pipeline, services and application

    A shallow embedding of [src/services/geminiService.ts] and of the
    handlers of the [App] and [ResultCard] components that use it,
    together with the properties proved about them.

    The first and larger part is the text-to-speech module: the byte
    decoder, the fetch-decode pipeline, the promise cache and the two
    public entry points [playTTS] and [prefetchTTS].  The second part is
    the other services ([translateText], [generateConceptImage],
    [generateStoryFromWords], [sendChatMessage]) and the state the
    application keeps around them: the notebook, the flashcards, the
    diary, the story and the chat.

    Conventions of the embedding:
    - a JavaScript string is a [string]; every character stands for one
      code unit in the range U+0000..U+00FF;
    - a [Uint8Array] is a [list Byte.byte], an [Int16Array] a [list Z];
    - a stored [Float32] sample is the rational number it denotes ([Q]);
      the only floating-point operation of the code, the division of a
      16-bit integer by 32768.0, is exact (see [sample_is_binary32]);
    - the code is single threaded: a synchronous block of code is one
      transition of the event loop, and everything that happens between
      two blocks (the service answering, the audio device finishing, a
      continuation being scheduled, the user clicking) is an event chosen
      by the environment;
    - an [async] function is given by its synchronous blocks, or, where
      it has one [await] and no state of its own, by the outcome of its
      promise as a function of the outcome of the call it awaits.

    What the browser is taken to do: [atob] follows the forgiving-base64
    decoder and throws on anything else; [createBuffer] throws when asked
    for a buffer of no sample; [new AudioContextClass()] throws when the
    browser has neither [AudioContext] nor [webkitAudioContext], and
    succeeds otherwise.  The calls [playBuffer] makes on a context it
    has ([createBufferSource], the one assignment of [buffer], [connect]
    to the destination of the same context, the one [start]) do not
    throw, as the Web Audio API has it for a source that is new.

    A state is [launched] when a run of the event loop reaches it from a
    page load in any browser, and [reachable] when the browser has the
    Web Audio API. *)

From Stdlib Require Import ZArith QArith Ascii String.
From stdpp Require Import base option list strings pretty gmap.

Local Open Scope Z_scope.

(** ** Platform: [atob] *)

(** The browser's [atob] follows the forgiving-base64 decoder of the WHATWG
    Infra standard.  It throws on input that is not base64, which is
    [None] here. *)
Module Base64.

Definition is_ascii_whitespace (c : ascii) : bool :=
  let n := N_of_ascii c in
  ((n =? 9) || (n =? 10) || (n =? 12) || (n =? 13) || (n =? 32))%N.

Definition sextet (c : ascii) : option N :=
  let n := N_of_ascii c in
  if ((65 <=? n) && (n <=? 90))%N then Some (n - 65)%N
  else if ((97 <=? n) && (n <=? 122))%N then Some (n - 71)%N
  else if ((48 <=? n) && (n <=? 57))%N then Some (n + 4)%N
  else if (n =? 43)%N then Some 62%N
  else if (n =? 47)%N then Some 63%N
  else None.

Definition is_pad (c : ascii) : bool := (N_of_ascii c =? 61)%N.

(** Remove one or two trailing [=] (only called on a length that is a
    multiple of four). *)
Definition strip_padding (l : list ascii) : list ascii :=
  match reverse l with
  | p1 :: p2 :: r =>
      if is_pad p1 then (if is_pad p2 then reverse r else reverse (p2 :: r))
      else l
  | [p1] => if is_pad p1 then [] else l
  | [] => l
  end.

Definition byte_of_N (n : N) : ascii := ascii_of_N (n mod 256).

(** Groups of four sextets give three bytes; a final group of two gives
    one byte and a final group of three gives two, the left-over bits
    being discarded. *)
Fixpoint bytes_of_sextets (fuel : nat) (l : list N) : list ascii :=
  match fuel with
  | O => []
  | S fuel =>
      match l with
      | a :: b :: c :: d :: r =>
          let n := (a * 262144 + b * 4096 + c * 64 + d)%N in
          byte_of_N (n / 65536) :: byte_of_N (n / 256) :: byte_of_N n
            :: bytes_of_sextets fuel r
      | [a; b; c] =>
          let n := ((a * 4096 + b * 64 + c) / 4)%N in
          [byte_of_N (n / 256); byte_of_N n]
      | [a; b] =>
          let n := ((a * 64 + b) / 16)%N in
          [byte_of_N n]
      | _ => []
      end
  end.

Definition atob (data : string) : option string :=
  let l := filter (λ c, negb (is_ascii_whitespace c))
                  (list_ascii_of_string data) in
  let l := if (length l mod 4 =? 0)%nat then strip_padding l else l in
  if (length l mod 4 =? 1)%nat then None
  else
    sx ← mapM sextet l;
    Some (string_of_list_ascii (bytes_of_sextets (length sx) sx)).

End Base64.

(** ** Byte decoder *)

(** [decodeBase64]: copy the char codes of [atob]'s binary string into a
    fresh [Uint8Array], one index at a time. *)
Definition charCodeAt (s : list ascii) (i : nat) : Byte.byte :=
  byte_of_ascii (default zero (s !! i)).

Definition decodeBase64 (base64 : string) : option (list Byte.byte) :=
  binaryString ← Base64.atob base64;
  let chars := list_ascii_of_string binaryString in
  let len := length chars in
  Some (foldl (λ bytes i, <[i := charCodeAt chars i]> bytes)
              (replicate len Byte.x00) (seq 0 len)).

(** The decoded audio, as the Web Audio [AudioBuffer] holds it: a sample
    rate and one [Float32Array] per channel. *)
Record AudioBuffer := mkAudioBuffer {
  sampleRate : N;
  channels : list (list Q)
}.

Definition numberOfChannels (b : AudioBuffer) : nat := length (channels b).

Definition getChannelData (b : AudioBuffer) (c : nat) : list Q :=
  default [] (channels b !! c).

(** [ctx.createBuffer(numberOfChannels, length, sampleRate)]: zero-filled
    channels.  The Web Audio API has the call throw a [NotSupportedError]
    when an argument is zero (the length "MUST be at least 1"), which is
    [None] here.  The upper limits of the arguments are left to the
    implementation, which must admit 32 channels and every rate from 8000
    to 96000 Hz; they are not modelled, the one call of the service asks
    for one channel at 24000 Hz. *)
Definition createBuffer (nch len : nat) (rate : N) : option AudioBuffer :=
  if ((nch =? 0)%nat || (len =? 0)%nat || (rate =? 0)%N)%bool then None
  else Some {| sampleRate := rate;
               channels := replicate nch (replicate len 0%Q) |}.

(** Element [i] of [new Int16Array(buffer, byteOffset, n)] over the bytes
    of a [Uint8Array]: two bytes, least significant first, read as a
    two's-complement 16-bit integer. *)
Definition byteZ (b : Byte.byte) : Z := Z.of_N (Byte.to_N b).

Definition int16_of_bytes (lo hi : Byte.byte) : Z :=
  let u := byteZ lo + 256 * byteZ hi in
  if u <? 32768 then u else u - 65536.

Definition Int16Array_view (bytes : list Byte.byte) (n : nat) : list Z :=
  (λ i, int16_of_bytes (default Byte.x00 (bytes !! (2 * i)%nat))
                       (default Byte.x00 (bytes !! (2 * i + 1)%nat)))
    <$> seq 0 n.

(** [dataInt16[i] / 32768.0], the value stored in the [Float32Array]. *)
Definition pcm_to_float (v : Z) : Q := (inject_Z v / 32768)%Q.

(** Lines 279-299 of the service: the part of [fetchAndDecodeTTS] that
    runs on the bytes [decodeBase64] returned.  [None]: [createBuffer]
    threw. *)
Definition decodePCM (byteArray : list Byte.byte) : option AudioBuffer :=
  let byteArray :=
    if negb (length byteArray mod 2 =? 0)%nat
    then take (length byteArray - 1) byteArray
    else byteArray in
  audioBuffer ← createBuffer 1 (length byteArray / 2) 24000;
  let channelData := getChannelData audioBuffer 0 in
  let dataInt16 := Int16Array_view byteArray (length byteArray / 2) in
  let channelData :=
    foldl (λ cd i, <[i := pcm_to_float (default 0 (dataInt16 !! i))]> cd)
          channelData (seq 0 (length dataInt16)) in
  Some {| sampleRate := sampleRate audioBuffer;
          channels := <[0%nat := channelData]> (channels audioBuffer) |}.

(** The samples of a buffer: its first (and only) channel. *)
Definition samples (b : AudioBuffer) : list Q := getChannelData b 0.

(** A value a binary32 float holds without rounding: [m * 2^e] with a
    24-bit significand and an exponent in range. *)
Definition is_binary32 (q : Q) : Prop :=
  ∃ m e : Z, Z.abs m < 2 ^ 24 ∧ -149 <= e <= 104 ∧
             (q == inject_Z m * (2 # 1) ^ e)%Q.

(** The bytes the conversion reads: the longest prefix of even length. *)
Definition even_prefix (byteArray : list Byte.byte) : list Byte.byte :=
  take (2 * (length byteArray / 2)) byteArray.

(** What [decodePCM] leaves in the buffer it returns for [byteArray]. *)
Definition pcm_buffer (byteArray : list Byte.byte) : AudioBuffer :=
  {| sampleRate := 24000;
     channels := [pcm_to_float <$>
                    Int16Array_view (even_prefix byteArray)
                                    (length byteArray / 2)] |}.

(** The format every decoded buffer is expected to have. *)
Definition well_formed_buffer (b : AudioBuffer) : Prop :=
  numberOfChannels b = 1%nat ∧ sampleRate b = 24000%N ∧
  Forall (λ q, (-1 <= q <= 1)%Q) (samples b).

Local Close Scope Z_scope.

(** ** Promises and the objects of the service boundary *)

Inductive Error :=
  | ApiKeyNotFound                 (* thrown by [getAiClient] *)
  | ServiceError (msg : string)    (* [generateContent] rejected *)
  | NoAudioData                    (* "No audio data received from Gemini" *)
  | InvalidCharacterError          (* thrown by [atob] *)
  | NotSupportedError              (* thrown by [ctx.createBuffer] *)
  | ResumeError                    (* [ctx.resume()] rejected *)
  | TypeError.                     (* thrown by [new AudioContextClass()] *)

Inductive PState (A : Type) :=
  | Pending
  | Fulfilled (a : A)
  | Rejected (err : Error).
Arguments Pending {A}.
Arguments Fulfilled {A} a.
Arguments Rejected {A} err.

(** What an [async] function's promise becomes when its body returns or
    throws, and what a [.catch] promise becomes when its handler does. *)
Definition settle {A} (r : Error + A) : PState A :=
  match r with inl err => Rejected err | inr a => Fulfilled a end.

Definition is_pending {A} (p : PState A) : bool :=
  match p with Pending => true | _ => false end.

(** The part of the service's response the code reads:
    [response.candidates?.[0]?.content?.parts?.[0]?.inlineData?.data]. *)
Record InlineData := { data : option string }.
Record Part := { inlineData : option InlineData }.
Record Content := { parts : option (list Part) }.
Record Candidate := { content : option Content }.
Record Response := { candidates : option (list Candidate) }.

Definition response_audio (response : Response) : option string :=
  cs ← candidates response;
  c ← cs !! 0%nat;
  ct ← content c;
  ps ← parts ct;
  p ← ps !! 0%nat;
  i ← inlineData p;
  data i.

(** ** JavaScript strings: truthiness and [trim] *)

Definition is_empty_string (s : string) : bool :=
  match s with EmptyString => true | String _ _ => false end.

(** White space and line terminators of ECMAScript below U+0100. *)
Definition is_js_whitespace (c : ascii) : bool :=
  let n := N_of_ascii c in
  ((n =? 9) || (n =? 10) || (n =? 11) || (n =? 12) || (n =? 13)
   || (n =? 32) || (n =? 160))%N.

Fixpoint drop_leading (l : list ascii) : list ascii :=
  match l with
  | c :: r => if is_js_whitespace c then drop_leading r else l
  | [] => []
  end.

Definition trim (s : string) : string :=
  string_of_list_ascii
    (reverse (drop_leading (reverse (drop_leading (list_ascii_of_string s))))).

(** ** State of the module and of its environment *)

Inductive AudioState := Suspended | Running.

(** One promise stored in [ttsCache]:
    [fetchAndDecodeTTS(text, lang).catch(err => ...)].  [en_inner] is the
    promise of [fetchAndDecodeTTS], [en_request] the [generateContent]
    call its body awaits, [en_outer] the promise [.catch] returned, which
    is the cached one; [en_key] is the [cacheKey] the handler closes
    over. *)
Record Entry := mkEntry {
  en_key : string;
  en_request : option nat;
  en_inner : PState (option AudioBuffer);
  en_outer : PState (option AudioBuffer)
}.

(** Where a running [playTTS] call is suspended. *)
Inductive Stage :=
  | AwaitResume (r : option nat)
      (* [await resumeAudioContext()]; [Some r]: [resumeAudioContext] is
         itself at [await ctx.resume()], call number [r]; [None]: it has
         returned *)
  | AwaitBuffer (retry : bool) (e : nat)
      (* [await getTTSBuffer(text, lang)], first or second one, which
         returned the cached promise number [e] *)
  | AwaitPlayback (src : nat)
      (* [await playBuffer(ctx, buffer)] *)
  | ResumeFailed (err : Error)
      (* [await resumeAudioContext()], whose promise is rejected:
         [getAudioContext] threw *)
  | Returned.

Record Call := mkCall {
  c_text : string;
  c_lang : string;
  c_stage : Stage;
  c_promise : PState unit    (* the promise [playTTS] gave its caller *)
}.

(** A call of [resumeAudioContext] by the application, which drops the
    promise: the [ctx.resume()] call it is suspended on, if any, and its
    promise. *)
Record ResumeCall := mkResumeCall {
  rc_await : option nat;
  rc_promise : PState unit
}.

Inductive Origin := ByHandler (e : nat) | ByRetry (c : nat).

(** What the module did, in order. *)
Inductive TraceItem :=
  | Invoke (text lang : string)            (* [fetchAndDecodeTTS] called *)
  | Delete (cacheKey : string) (by_ : Origin)   (* [ttsCache.delete] *)
  | Observe (c e : nat) (buffer : option AudioBuffer)
      (* call [c] resumed from awaiting cached promise [e] *)
  | Start (buffer : AudioBuffer)           (* [source.start(0)] *)
  | ConsoleError (msg : string)
  | ConsoleWarn (msg : string).

Record State := mkState {
  apiKey : bool;                 (* [process.env.API_KEY] is set *)
  audioContextClass : bool;
    (* [window.AudioContext || window.webkitAudioContext] is defined *)
  audioCtx : bool;               (* the singleton has been constructed *)
  ctxState : AudioState;         (* [ctx.state], owned by the platform *)
  ttsCache : gmap string nat;    (* cache key to index in [entries] *)
  entries : list Entry;
  requests : list (PState Response);   (* [generateContent] calls *)
  resumes : list (PState unit);        (* [ctx.resume()] calls *)
  sources : list (AudioBuffer * bool); (* started sources; has it ended *)
  calls : list Call;                   (* [playTTS] calls *)
  resumeCalls : list ResumeCall;
    (* [resumeAudioContext] calls of the application *)
  trace : list TraceItem
}.

(** A page load: whether the browser has the Web Audio API, whether the
    API key is set, and the state an audio context starts in. *)
Definition boot (webAudio key : bool) (dev : AudioState) : State :=
  {| apiKey := key; audioContextClass := webAudio; audioCtx := false;
     ctxState := dev; ttsCache := ∅; entries := []; requests := [];
     resumes := []; sources := []; calls := []; resumeCalls := [];
     trace := [] |}.

(** A page load in a browser that has the Web Audio API. *)
Definition init (key : bool) (dev : AudioState) : State := boot true key dev.

Definition set_audioCtx (v : bool) (s : State) : State :=
  mkState (apiKey s) (audioContextClass s) v (ctxState s) (ttsCache s)
          (entries s) (requests s) (resumes s) (sources s) (calls s)
          (resumeCalls s) (trace s).
Definition set_ctxState (v : AudioState) (s : State) : State :=
  mkState (apiKey s) (audioContextClass s) (audioCtx s) v (ttsCache s)
          (entries s) (requests s) (resumes s) (sources s) (calls s)
          (resumeCalls s) (trace s).
Definition set_ttsCache (v : gmap string nat) (s : State) : State :=
  mkState (apiKey s) (audioContextClass s) (audioCtx s) (ctxState s) v
          (entries s) (requests s) (resumes s) (sources s) (calls s)
          (resumeCalls s) (trace s).
Definition set_entries (v : list Entry) (s : State) : State :=
  mkState (apiKey s) (audioContextClass s) (audioCtx s) (ctxState s)
          (ttsCache s) v (requests s) (resumes s) (sources s) (calls s)
          (resumeCalls s) (trace s).
Definition set_requests (v : list (PState Response)) (s : State) : State :=
  mkState (apiKey s) (audioContextClass s) (audioCtx s) (ctxState s)
          (ttsCache s) (entries s) v (resumes s) (sources s) (calls s)
          (resumeCalls s) (trace s).
Definition set_resumes (v : list (PState unit)) (s : State) : State :=
  mkState (apiKey s) (audioContextClass s) (audioCtx s) (ctxState s)
          (ttsCache s) (entries s) (requests s) v (sources s) (calls s)
          (resumeCalls s) (trace s).
Definition set_sources (v : list (AudioBuffer * bool)) (s : State) : State :=
  mkState (apiKey s) (audioContextClass s) (audioCtx s) (ctxState s)
          (ttsCache s) (entries s) (requests s) (resumes s) v (calls s)
          (resumeCalls s) (trace s).
Definition set_calls (v : list Call) (s : State) : State :=
  mkState (apiKey s) (audioContextClass s) (audioCtx s) (ctxState s)
          (ttsCache s) (entries s) (requests s) (resumes s) (sources s) v
          (resumeCalls s) (trace s).
Definition set_resumeCalls (v : list ResumeCall) (s : State) : State :=
  mkState (apiKey s) (audioContextClass s) (audioCtx s) (ctxState s)
          (ttsCache s) (entries s) (requests s) (resumes s) (sources s)
          (calls s) v (trace s).
Definition log (item : TraceItem) (s : State) : State :=
  mkState (apiKey s) (audioContextClass s) (audioCtx s) (ctxState s)
          (ttsCache s) (entries s) (requests s) (resumes s) (sources s)
          (calls s) (resumeCalls s) (trace s ++ [item]).

Definition set_stage (c : nat) (st : Stage) (s : State) : State :=
  set_calls (alter (λ cl, mkCall (c_text cl) (c_lang cl) st (c_promise cl))
                   c (calls s)) s.

(** The [async] function [playTTS] returns or throws. *)
Definition finish (c : nat) (r : Error + unit) (s : State) : State :=
  set_calls (alter (λ cl, mkCall (c_text cl) (c_lang cl) Returned (settle r))
                   c (calls s)) s.

(** ** The code *)

Definition getAiClient (s : State) : Error + unit :=
  if apiKey s then inr () else inl ApiKeyNotFound.

(** [new AudioContextClass()] throws when the browser has neither
    [AudioContext] nor [webkitAudioContext]. *)
Definition getAudioContext (s : State) : Error + State :=
  if audioCtx s then inr s
  else if audioContextClass s then inr (set_audioCtx true s)
  else inl TypeError.

(** [getAudioContext] does not throw: the singleton exists, or can be
    constructed. *)
Definition audioAvailable (s : State) : bool :=
  audioCtx s || audioContextClass s.

Definition cacheKey (text lang : string) : string := lang +:+ ":" +:+ text.

(** [ttsCache.delete(cacheKey)]. *)
Definition evict (key : string) (by_ : Origin) (s : State) : State :=
  log (Delete key by_) (set_ttsCache (delete key (ttsCache s)) s).

(** [fetchAndDecodeTTS] up to its [await]: the promise it returns, and
    the [generateContent] call its body is suspended on, if any. *)
Definition fetchAndDecodeTTS (text lang : string) (s : State)
  : State * PState (option AudioBuffer) * option nat :=
  let s := log (Invoke text lang) s in
  if is_empty_string text || is_empty_string (trim text)
  then (s, Fulfilled None, None)
  else
    match getAiClient s with
    | inl err => (s, Rejected err, None)
    | inr _ =>
        match getAudioContext s with
        | inl err => (s, Rejected err, None)
        | inr s =>
            let r := length (requests s) in
            (set_requests (requests s ++ [Pending]) s, Pending, Some r)
        end
    end.

(** [fetchAndDecodeTTS] from the response on. *)
Definition fetchAndDecodeTTS_rest (response : Response)
  : Error + option AudioBuffer :=
  match response_audio response with
  | None => inl NoAudioData
  | Some base64Audio =>
      if is_empty_string base64Audio then inl NoAudioData
      else
        match decodeBase64 base64Audio with
        | None => inl InvalidCharacterError
        | Some byteArray =>
            match decodePCM byteArray with
            | None => inl NotSupportedError
            | Some audioBuffer => inr (Some audioBuffer)
            end
        end
  end.

(** The handler given to [.catch] in [getTTSBuffer]. *)
Definition on_fetch_failed (e : nat) (key : string) (s : State)
  : State * (Error + option AudioBuffer) :=
  let s := log (ConsoleError "TTS Fetch failed:") s in
  let s := evict key (ByHandler e) s in
  (s, inr None).

(** [getTTSBuffer] has no [await]: it runs in one block.  The promise it
    returns settles as the cached promise does; the caller's [await] is
    modelled as an [await] of the cached promise, whose index is
    returned. *)
Definition getTTSBuffer (text lang : string) (s : State) : State * nat :=
  let key := cacheKey text lang in
  match ttsCache s !! key with
  | Some e => (s, e)
  | None =>
      let '(s, inner, req) := fetchAndDecodeTTS text lang s in
      let e := length (entries s) in
      let s := set_entries (entries s ++ [mkEntry key req inner Pending]) s in
      let s := set_ttsCache (<[key := e]> (ttsCache s)) s in
      (s, e)
  end.

Definition playBuffer (buffer : AudioBuffer) (s : State) : State * nat :=
  let src := length (sources s) in
  (log (Start buffer) (set_sources (sources s ++ [(buffer, false)]) s), src).

(** [resumeAudioContext] up to its [await], with the [ctx.resume()] call
    it is suspended on, if any; [getAudioContext] is called outside the
    [try], so what it throws rejects the promise. *)
Definition resumeAudioContext (s : State) : Error + State * option nat :=
  match getAudioContext s with
  | inl err => inl err
  | inr s =>
      match ctxState s with
      | Suspended =>
          let r := length (resumes s) in
          inr (set_resumes (resumes s ++ [Pending]) s, Some r)
      | Running => inr (s, None)
      end
  end.

(** [playTTS] up to its first [await]. *)
Definition playTTS (text lang : string) (s : State) : State :=
  if is_empty_string text
  then set_calls (calls s ++ [mkCall text lang Returned (Fulfilled ())]) s
  else
    match resumeAudioContext s with
    | inl err =>
        set_calls (calls s ++ [mkCall text lang (ResumeFailed err) Pending]) s
    | inr (s, r) =>
        set_calls (calls s ++ [mkCall text lang (AwaitResume r) Pending]) s
    end.

(** [buffer = await getTTSBuffer(text, lang)]: the call, up to the
    [await]. *)
Definition playTTS_fetch (c : nat) (cl : Call) (retry : bool) (s : State)
  : State :=
  let '(s, e) := getTTSBuffer (c_text cl) (c_lang cl) s in
  set_stage c (AwaitBuffer retry e) s.

(** [playTTS] (and the [resumeAudioContext] it called) from one [await]
    to the next. *)
Definition continue_play (c : nat) (s : State) : State :=
  match calls s !! c with
  | None => s
  | Some cl =>
      match c_stage cl with
      | AwaitResume (Some r) =>
          match resumes s !! r with
          | Some (Fulfilled _) => set_stage c (AwaitResume None) s
          | Some (Rejected _) =>
              set_stage c (AwaitResume None)
                (log (ConsoleError "Failed to resume audio context") s)
          | _ => s
          end
      | AwaitResume None =>
          match getAudioContext s with
          | inl err => finish c (inl err) s
          | inr s => playTTS_fetch c cl false s
          end
      | ResumeFailed err => finish c (inl err) s
      | AwaitBuffer retry e =>
          match en_outer <$> entries s !! e with
          | Some (Fulfilled buffer) =>
              let s := log (Observe c e buffer) s in
              match buffer with
              | Some b =>
                  let '(s, src) := playBuffer b s in
                  set_stage c (AwaitPlayback src) s
              | None =>
                  if retry
                  then finish c (inr ())
                         (log (ConsoleWarn
                            "Buffer still null after retry, could not play audio.") s)
                  else
                    let key := cacheKey (c_text cl) (c_lang cl) in
                    playTTS_fetch c cl true (evict key (ByRetry c) s)
              end
          | Some (Rejected err) => finish c (inl err) s
          | _ => s
          end
      | AwaitPlayback src =>
          match sources s !! src with
          | Some (_, true) => finish c (inr ()) s
          | _ => s
          end
      | Returned => s
      end
  end.

(** [prefetchTTS] is synchronous; the promise [.catch(() => {})] returns
    is dropped and its handler does nothing. *)
Definition prefetchTTS (text lang : string) (s : State) : State :=
  if is_empty_string text then s
  else fst (getTTSBuffer text lang s).

(** [resumeAudioContext()] called by the application, up to its
    [await]. *)
Definition callResumeAudioContext (s : State) : State :=
  match resumeAudioContext s with
  | inl err =>
      set_resumeCalls (resumeCalls s ++ [mkResumeCall None (Rejected err)]) s
  | inr (s, Some r) =>
      set_resumeCalls (resumeCalls s ++ [mkResumeCall (Some r) Pending]) s
  | inr (s, None) =>
      set_resumeCalls (resumeCalls s ++ [mkResumeCall None (Fulfilled ())]) s
  end.

(** Such a call after its [await]: a rejection of [ctx.resume()] is
    logged, and the call returns. *)
Definition continue_resume (i : nat) (s : State) : State :=
  match resumeCalls s !! i with
  | Some (mkResumeCall (Some r) Pending) =>
      let done := <[i := mkResumeCall None (Fulfilled ())]> (resumeCalls s) in
      match resumes s !! r with
      | Some (Fulfilled _) => set_resumeCalls done s
      | Some (Rejected _) =>
          set_resumeCalls done
            (log (ConsoleError "Failed to resume audio context") s)
      | _ => s
      end
  | _ => s
  end.

(** The body of [fetchAndDecodeTTS] after its [await]. *)
Definition continue_pipeline (e : nat) (s : State) : State :=
  match entries s !! e with
  | Some (mkEntry key (Some r) Pending outer) =>
      match requests s !! r with
      | Some (Fulfilled response) =>
          set_entries
            (<[e := mkEntry key (Some r)
                      (settle (fetchAndDecodeTTS_rest response)) outer]>
               (entries s)) s
      | Some (Rejected err) =>
          set_entries (<[e := mkEntry key (Some r) (Rejected err) outer]>
                         (entries s)) s
      | _ => s
      end
  | _ => s
  end.

(** The reaction [.catch] registered on the promise of
    [fetchAndDecodeTTS]: a fulfilment passes through, a rejection runs
    the handler. *)
Definition run_catch (e : nat) (s : State) : State :=
  match entries s !! e with
  | Some (mkEntry key req inner Pending) =>
      match inner with
      | Pending => s
      | Fulfilled v =>
          set_entries (<[e := mkEntry key req inner (Fulfilled v)]>
                         (entries s)) s
      | Rejected err =>
          let '(s, r) := on_fetch_failed e key s in
          set_entries (<[e := mkEntry key req inner (settle r)]>
                         (entries s)) s
      end
  | _ => s
  end.

(** ** The event loop *)

Inductive Event :=
  | CallPlayTTS (text lang : string)
  | CallPrefetchTTS (text lang : string)
  | CallResumeAudioContext
  | ServiceSettles (r : nat) (o : Error + Response)
  | ResumeSettles (r : nat) (ok : bool)
  | DeviceChanges (st : AudioState)
  | SourceEnded (src : nat)
  | ContinuePipeline (e : nat)
  | RunCatch (e : nat)
  | ContinuePlay (c : nat)
  | ContinueResume (i : nat).

Definition settle_pending {A} (i : nat) (v : PState A) (l : list (PState A))
  : list (PState A) :=
  alter (λ p, if is_pending p then v else p) i l.

Definition step (s : State) (ev : Event) : State :=
  match ev with
  | CallPlayTTS text lang => playTTS text lang s
  | CallPrefetchTTS text lang => prefetchTTS text lang s
  | CallResumeAudioContext => callResumeAudioContext s
  | ServiceSettles r o =>
      set_requests (settle_pending r (settle o) (requests s)) s
  | ResumeSettles r ok =>
      match resumes s !! r with
      | Some Pending =>
          if ok
          then set_ctxState Running
                 (set_resumes (<[r := Fulfilled ()]> (resumes s)) s)
          else set_resumes (<[r := Rejected ResumeError]> (resumes s)) s
      | _ => s
      end
  | DeviceChanges st => set_ctxState st s
  | SourceEnded src =>
      set_sources (alter (λ p, (p.1, true)) src (sources s)) s
  | ContinuePipeline e => continue_pipeline e s
  | RunCatch e => run_catch e s
  | ContinuePlay c => continue_play c s
  | ContinueResume i => continue_resume i s
  end.

Definition exec (s : State) (evs : list Event) : State := foldl step s evs.

(** Projections of the trace. *)
Definition invocations (s : State) : list (string * string) :=
  omap (λ it, match it with Invoke t l => Some (t, l) | _ => None end)
       (trace s).

Definition played (s : State) : list AudioBuffer :=
  omap (λ it, match it with Start b => Some b | _ => None end) (trace s).

Definition ok_response (b64 : string) : Response :=
  {| candidates := Some [ {| content := Some {| parts := Some
       [ {| inlineData := Some {| data := Some b64 |} |} ] |} |} ] |}.

(** * The other services and the application that calls them *)

(** ** JavaScript strings, continued *)

(** Truthiness of a [string | undefined]. *)
Definition js_truthy (s : option string) : bool :=
  match s with Some s => negb (is_empty_string s) | None => false end.

(** [a || b] on strings. *)
Definition js_or (a : option string) (b : string) : string :=
  match a with
  | Some s => if is_empty_string s then b else s
  | None => b
  end.

(** A value inside a template literal. *)
Definition template (s : option string) : string := default "undefined" s.

(** [s.split(sep)[0]] for a separator that is not empty: what stands
    before the first occurrence of [sep], all of [s] if there is none. *)
Fixpoint split_head (sep s : string) : string :=
  match s with
  | EmptyString => EmptyString
  | String c r =>
      if String.prefix sep s then EmptyString else String c (split_head sep r)
  end.

(** [sep] occurs in [s] at offset [i]. *)
Definition occurs_at (sep s : string) (i : nat) : Prop :=
  ∃ before rest, s = before +:+ sep +:+ rest ∧ String.length before = i.

(** ** [translateText], [generateStoryFromWords], [sendChatMessage]

    Each function is given as the outcome of its promise, from whether the
    API key is set and from how the one [generateContent] (or
    [sendMessage]) call it makes ends: an error, or a response whose
    [text] is a string or [undefined]. *)

Definition translateText (key : bool) (o : Error + option string)
  : Error + string :=
  if key then
    match o with
    | inl e => inl e
    | inr text => inr (js_or (trim <$> text) "Translation failed.")
    end
  else inl ApiKeyNotFound.

Definition generateStoryFromWords (key : bool) (o : Error + option string)
  : Error + string :=
  if key then
    match o with
    | inl e => inl e
    | inr text => inr (js_or text "Could not generate story. Please try again.")
    end
  else inl ApiKeyNotFound.

Definition sendChatMessage (key : bool) (o : Error + option string)
  : Error + string :=
  if key then
    match o with
    | inl e => inl e
    | inr text => inr (js_or text "")
    end
  else inl ApiKeyNotFound.

(** ** [generateConceptImage] *)

Module Image.
Record InlineData := { mimeType : option string; data : option string }.
Record Part := { inlineData : option InlineData }.
Record Content := { parts : option (list Part) }.
Record Candidate := { content : option Content }.
Record Response := { candidates : option (list Candidate) }.
End Image.

(** The test and the [return] inside the loop over the parts. *)
Definition image_url (part : Image.Part) : option string :=
  i ← Image.inlineData part;
  if js_truthy (Image.data i)
  then Some ("data:" +:+ template (Image.mimeType i) +:+ ";base64,"
             +:+ template (Image.data i))
  else None.

(** [for (const part of parts) { if (...) return ... }]. *)
Fixpoint first_image (parts : list Image.Part) : option string :=
  match parts with
  | [] => None
  | part :: rest =>
      match image_url part with
      | Some url => Some url
      | None => first_image rest
      end
  end.

Definition placeholder : string := "https://picsum.photos/400/400?blur=2".

Definition generateConceptImage (key : bool) (o : Error + Image.Response)
  : Error + option string :=
  if key then
    match o with
    | inl _ => inr (Some placeholder)
    | inr response =>
        let parts :=
          cs ← Image.candidates response;
          c ← cs !! 0%nat;
          ct ← Image.content c;
          Image.parts ct in
        match parts with
        | Some parts => inr (first_image parts)
        | None => inr None
        end
    end
  else inl ApiKeyNotFound.

(** ** The application ([App], [ResultCard]) *)

Module App.

Inductive ViewState := HOME | RESULTS | NOTEBOOK | FLASHCARDS | DIARY.

Inductive SupportedLanguage :=
  | ENGLISH | CHINESE | SPANISH | FRENCH | GERMAN
  | JAPANESE | KOREAN | PORTUGUESE | RUSSIAN | ITALIAN.

(** The values of the enumeration. *)
Definition language_name (l : SupportedLanguage) : string :=
  match l with
  | ENGLISH => "English"
  | CHINESE => "Chinese (Simplified)"
  | SPANISH => "Spanish"
  | FRENCH => "French"
  | GERMAN => "German"
  | JAPANESE => "Japanese"
  | KOREAN => "Korean"
  | PORTUGUESE => "Portuguese"
  | RUSSIAN => "Russian"
  | ITALIAN => "Italian"
  end.

Record ExampleSentence := { target : string; native : string }.

(** [targetTerm] is absent from entries stored by earlier versions. *)
Record DictionaryEntry := mkEntry {
  id : string;
  term : string;
  targetTerm : option string;
  nativeTerm : string;
  definition : string;
  examples : list ExampleSentence;
  usageGuide : string;
  imageUrl : option string;
  timestamp : N
}.

(** The state of the [App] component the handlers below read or write,
    with two records of what it asked of the services: the [playTTS]
    calls it made and the word lists it sent to [generateStoryFromWords]. *)
Record AppState := mkApp {
  view : ViewState;
  targetLang : SupportedLanguage;
  notebook : list DictionaryEntry;
  story : option string;
  isStoryLoading : bool;
  isPlayingStory : bool;
  currentFlashcardIndex : Z;
  diaryInput : string;
  diaryResult : string;
  isTranslating : bool;
  isPlayingDiary : bool;
  isDiarySaved : bool;
  alerts : list string;
  spoken : list (string * string);
  storyRequests : list (list string)
}.

(** The component as first rendered, with the notebook [localStorage]
    held. *)
Definition init (saved : list DictionaryEntry) : AppState :=
  {| view := HOME; targetLang := SPANISH; notebook := saved; story := None;
     isStoryLoading := false; isPlayingStory := false;
     currentFlashcardIndex := 0; diaryInput := ""; diaryResult := "";
     isTranslating := false; isPlayingDiary := false; isDiarySaved := false;
     alerts := []; spoken := []; storyRequests := [] |}.

Definition setView (v : ViewState) (s : AppState) : AppState :=
  mkApp v (targetLang s) (notebook s) (story s) (isStoryLoading s)
        (isPlayingStory s) (currentFlashcardIndex s) (diaryInput s)
        (diaryResult s) (isTranslating s) (isPlayingDiary s) (isDiarySaved s)
        (alerts s) (spoken s) (storyRequests s).
Definition setTargetLang (v : SupportedLanguage) (s : AppState) : AppState :=
  mkApp (view s) v (notebook s) (story s) (isStoryLoading s)
        (isPlayingStory s) (currentFlashcardIndex s) (diaryInput s)
        (diaryResult s) (isTranslating s) (isPlayingDiary s) (isDiarySaved s)
        (alerts s) (spoken s) (storyRequests s).
Definition setNotebook (v : list DictionaryEntry) (s : AppState) : AppState :=
  mkApp (view s) (targetLang s) v (story s) (isStoryLoading s)
        (isPlayingStory s) (currentFlashcardIndex s) (diaryInput s)
        (diaryResult s) (isTranslating s) (isPlayingDiary s) (isDiarySaved s)
        (alerts s) (spoken s) (storyRequests s).
Definition setStory (v : option string) (s : AppState) : AppState :=
  mkApp (view s) (targetLang s) (notebook s) v (isStoryLoading s)
        (isPlayingStory s) (currentFlashcardIndex s) (diaryInput s)
        (diaryResult s) (isTranslating s) (isPlayingDiary s) (isDiarySaved s)
        (alerts s) (spoken s) (storyRequests s).
Definition setIsStoryLoading (v : bool) (s : AppState) : AppState :=
  mkApp (view s) (targetLang s) (notebook s) (story s) v
        (isPlayingStory s) (currentFlashcardIndex s) (diaryInput s)
        (diaryResult s) (isTranslating s) (isPlayingDiary s) (isDiarySaved s)
        (alerts s) (spoken s) (storyRequests s).
Definition setIsPlayingStory (v : bool) (s : AppState) : AppState :=
  mkApp (view s) (targetLang s) (notebook s) (story s) (isStoryLoading s)
        v (currentFlashcardIndex s) (diaryInput s)
        (diaryResult s) (isTranslating s) (isPlayingDiary s) (isDiarySaved s)
        (alerts s) (spoken s) (storyRequests s).
Definition setCurrentFlashcardIndex (v : Z) (s : AppState) : AppState :=
  mkApp (view s) (targetLang s) (notebook s) (story s) (isStoryLoading s)
        (isPlayingStory s) v (diaryInput s)
        (diaryResult s) (isTranslating s) (isPlayingDiary s) (isDiarySaved s)
        (alerts s) (spoken s) (storyRequests s).
Definition setDiaryInput (v : string) (s : AppState) : AppState :=
  mkApp (view s) (targetLang s) (notebook s) (story s) (isStoryLoading s)
        (isPlayingStory s) (currentFlashcardIndex s) v
        (diaryResult s) (isTranslating s) (isPlayingDiary s) (isDiarySaved s)
        (alerts s) (spoken s) (storyRequests s).
Definition setDiaryResult (v : string) (s : AppState) : AppState :=
  mkApp (view s) (targetLang s) (notebook s) (story s) (isStoryLoading s)
        (isPlayingStory s) (currentFlashcardIndex s) (diaryInput s)
        v (isTranslating s) (isPlayingDiary s) (isDiarySaved s)
        (alerts s) (spoken s) (storyRequests s).
Definition setIsTranslating (v : bool) (s : AppState) : AppState :=
  mkApp (view s) (targetLang s) (notebook s) (story s) (isStoryLoading s)
        (isPlayingStory s) (currentFlashcardIndex s) (diaryInput s)
        (diaryResult s) v (isPlayingDiary s) (isDiarySaved s)
        (alerts s) (spoken s) (storyRequests s).
Definition setIsPlayingDiary (v : bool) (s : AppState) : AppState :=
  mkApp (view s) (targetLang s) (notebook s) (story s) (isStoryLoading s)
        (isPlayingStory s) (currentFlashcardIndex s) (diaryInput s)
        (diaryResult s) (isTranslating s) v (isDiarySaved s)
        (alerts s) (spoken s) (storyRequests s).
Definition setIsDiarySaved (v : bool) (s : AppState) : AppState :=
  mkApp (view s) (targetLang s) (notebook s) (story s) (isStoryLoading s)
        (isPlayingStory s) (currentFlashcardIndex s) (diaryInput s)
        (diaryResult s) (isTranslating s) (isPlayingDiary s) v
        (alerts s) (spoken s) (storyRequests s).
(** [alert(msg)]. *)
Definition alert (msg : string) (s : AppState) : AppState :=
  mkApp (view s) (targetLang s) (notebook s) (story s) (isStoryLoading s)
        (isPlayingStory s) (currentFlashcardIndex s) (diaryInput s)
        (diaryResult s) (isTranslating s) (isPlayingDiary s) (isDiarySaved s)
        (alerts s ++ [msg]) (spoken s) (storyRequests s).
(** [playTTS(text, settings.targetLang)] is called. *)
Definition callPlayTTS (text : string) (s : AppState) : AppState :=
  mkApp (view s) (targetLang s) (notebook s) (story s) (isStoryLoading s)
        (isPlayingStory s) (currentFlashcardIndex s) (diaryInput s)
        (diaryResult s) (isTranslating s) (isPlayingDiary s) (isDiarySaved s)
        (alerts s) (spoken s ++ [(text, language_name (targetLang s))])
        (storyRequests s).
(** [generateStoryFromWords(words, ...)] is called. *)
Definition callGenerateStory (words : list string) (s : AppState) : AppState :=
  mkApp (view s) (targetLang s) (notebook s) (story s) (isStoryLoading s)
        (isPlayingStory s) (currentFlashcardIndex s) (diaryInput s)
        (diaryResult s) (isTranslating s) (isPlayingDiary s) (isDiarySaved s)
        (alerts s) (spoken s) (storyRequests s ++ [words]).

(** [notebook.find(n => n.term === entry.term)]. *)
Definition findTerm (t : string) (notebook : list DictionaryEntry)
  : option DictionaryEntry :=
  List.find (λ n, String.eqb (term n) t) notebook.

(** [saveEntry], as the notebook it leaves. *)
Definition saveEntry (entry : DictionaryEntry)
    (notebook : list DictionaryEntry) : list DictionaryEntry :=
  match findTerm (term entry) notebook with
  | Some _ => notebook
  | None => entry :: notebook
  end.

(** The [isSaved] property [App] gives [ResultCard]. *)
Definition isSaved (notebook : list DictionaryEntry)
    (currentResult : DictionaryEntry) : bool :=
  match findTerm (term currentResult) notebook with
  | Some _ => true
  | None => false
  end.

(** [ResultCard]'s [handleSave]: the entry goes to [onSave] with the image
    on display. *)
Definition handleSave (entry : DictionaryEntry)
    (currentImageUrl : option string) (s : AppState) : AppState :=
  setNotebook
    (saveEntry (mkEntry (id entry) (term entry) (targetTerm entry)
                        (nativeTerm entry) (definition entry)
                        (examples entry) (usageGuide entry) currentImageUrl
                        (timestamp entry))
               (notebook s)) s.

(** The words [handleGenerateStory] sends. *)
Definition storyWords (notebook : list DictionaryEntry) : list string :=
  (λ n, js_or (targetTerm n) (term n)) <$> take 10 notebook.

(** [handleGenerateStory] up to its [await]; without a key
    [generateStoryFromWords] throws at once and the [catch] block runs. *)
Definition handleGenerateStory (key : bool) (s : AppState) : AppState :=
  if (length (notebook s) <? 3)%nat
  then alert "Save at least 3 words to your notebook to create a story!" s
  else
    let s := setIsStoryLoading true s in
    let s := callGenerateStory (storyWords (notebook s)) s in
    if key then s
    else setIsStoryLoading false
           (alert "Couldn't write a story right now. Please try again later." s).

(** [handleGenerateStory] after its [await]. *)
Definition handleGenerateStory_rest (o : Error + option string)
    (s : AppState) : AppState :=
  match generateStoryFromWords true o with
  | inr generatedStory =>
      setIsStoryLoading false (setStory (Some generatedStory) s)
  | inl _ =>
      setIsStoryLoading false
        (alert "Couldn't write a story right now. Please try again later." s)
  end.

Definition storyText (story : string) : string := split_head "---" story.

(** [handlePlayStory] up to its [await]. *)
Definition handlePlayStory (s : AppState) : AppState :=
  match story s with
  | Some text =>
      if is_empty_string text then s
      else callPlayTTS (storyText text) (setIsPlayingStory true s)
  | None => s
  end.

(** [handleTranslateDiary] up to its [await]. *)
Definition handleTranslateDiary (key : bool) (s : AppState) : AppState :=
  if is_empty_string (trim (diaryInput s)) then s
  else
    let s := setIsTranslating true s in
    let s := setDiaryResult "" s in
    let s := setIsDiarySaved false s in
    if key then s
    else setIsTranslating false (alert "Translation failed. Try again!" s).

(** [handleTranslateDiary] after its [await]. *)
Definition handleTranslateDiary_rest (o : Error + option string)
    (s : AppState) : AppState :=
  match translateText true o with
  | inr translation => setIsTranslating false (setDiaryResult translation s)
  | inl _ =>
      setIsTranslating false (alert "Translation failed. Try again!" s)
  end.

(** [handlePlayDiary] up to its [await]. *)
Definition handlePlayDiary (s : AppState) : AppState :=
  if is_empty_string (diaryResult s) then s
  else callPlayTTS (diaryResult s) (setIsPlayingDiary true s).

Definition diaryEntry (now : N) (diaryResult diaryInput : string)
  : DictionaryEntry :=
  {| id := pretty now; term := diaryResult; targetTerm := Some diaryResult;
     nativeTerm := diaryInput; definition := diaryInput; examples := [];
     usageGuide := "Personal Diary Entry"; timestamp := now;
     imageUrl := None |}.

(** [handleSaveDiary], with [now] for [Date.now()]. *)
Definition handleSaveDiary (now : N) (s : AppState) : AppState :=
  if is_empty_string (diaryResult s) || is_empty_string (diaryInput s) then s
  else
    let entry := diaryEntry now (diaryResult s) (diaryInput s) in
    setIsDiarySaved true (setNotebook (saveEntry entry (notebook s)) s).

(** [notebook[currentFlashcardIndex]]. *)
Definition currentCard (s : AppState) : option DictionaryEntry :=
  if (currentFlashcardIndex s <? 0)%Z then None
  else notebook s !! Z.to_nat (currentFlashcardIndex s).

(** What the user and the services do.  A click counts only where the
    control is rendered and not disabled.  [SubmitSearch] is [handleSearch]
    up to its [await], of which only [setView] and [setStory] touch the
    state kept here; [Navigate] is a button of the navigation bar, the
    Back button, or the [setView] that ends a failed search. *)
Inductive Event :=
  | Navigate (v : ViewState)
  | SubmitSearch (searchTerm : string)
  | SelectTargetLang (l : SupportedLanguage)
  | ClickSave (entry : DictionaryEntry) (currentImageUrl : option string)
  | TypeDiary (text : string)
  | ClickTranslate
  | TranslateSettles (o : Error + option string)
  | ClickPlayDiary
  | PlayDiaryReturns
  | ClickSaveDiary (now : N)
  | ClickGenerateStory
  | StorySettles (o : Error + option string)
  | ClickPlayStory
  | PlayStoryReturns
  | ClickPrev
  | ClickNext.

Definition is_view (v : ViewState) (s : AppState) : bool :=
  match v, view s with
  | HOME, HOME | RESULTS, RESULTS | NOTEBOOK, NOTEBOOK
  | FLASHCARDS, FLASHCARDS | DIARY, DIARY => true
  | _, _ => false
  end.

Definition has_cards (s : AppState) : bool :=
  negb (length (notebook s) =? 0)%nat.

Definition step (key : bool) (s : AppState) (ev : Event) : AppState :=
  match ev with
  | Navigate FLASHCARDS => setView FLASHCARDS (setCurrentFlashcardIndex 0 s)
  | Navigate v => setView v s
  | SubmitSearch searchTerm =>
      if is_view HOME s && negb (is_empty_string (trim searchTerm))
      then setStory None (setView RESULTS s) else s
  | SelectTargetLang l => if is_view HOME s then setTargetLang l s else s
  | ClickSave entry currentImageUrl =>
      if is_view RESULTS s then handleSave entry currentImageUrl s else s
  | TypeDiary text => if is_view DIARY s then setDiaryInput text s else s
  | ClickTranslate =>
      if is_view DIARY s && negb (isTranslating s)
         && negb (is_empty_string (trim (diaryInput s)))
      then handleTranslateDiary key s else s
  | TranslateSettles o =>
      if isTranslating s then handleTranslateDiary_rest o s else s
  | ClickPlayDiary =>
      if is_view DIARY s && negb (is_empty_string (diaryResult s))
         && negb (isPlayingDiary s)
      then handlePlayDiary s else s
  | PlayDiaryReturns => setIsPlayingDiary false s
  | ClickSaveDiary now =>
      if is_view DIARY s && negb (is_empty_string (diaryResult s))
         && negb (isDiarySaved s)
      then handleSaveDiary now s else s
  | ClickGenerateStory =>
      if is_view NOTEBOOK s && has_cards s && negb (isStoryLoading s)
      then handleGenerateStory key s else s
  | StorySettles o =>
      if isStoryLoading s then handleGenerateStory_rest o s else s
  | ClickPlayStory =>
      if is_view NOTEBOOK s && has_cards s && js_truthy (story s)
         && negb (isPlayingStory s)
      then handlePlayStory s else s
  | PlayStoryReturns => setIsPlayingStory false s
  | ClickPrev =>
      if is_view FLASHCARDS s && has_cards s
         && negb (currentFlashcardIndex s =? 0)%Z
      then setCurrentFlashcardIndex (currentFlashcardIndex s - 1) s else s
  | ClickNext =>
      if is_view FLASHCARDS s && has_cards s
         && negb (currentFlashcardIndex s =? Z.of_nat (length (notebook s)) - 1)%Z
      then setCurrentFlashcardIndex (currentFlashcardIndex s + 1) s else s
  end.

Definition exec (key : bool) (s : AppState) (evs : list Event) : AppState :=
  foldl (step key) s evs.

Definition reachable (s : AppState) : Prop :=
  ∃ key saved evs, s = exec key (init saved) evs.

End App.

(** ** The chat of a result card ([ResultCard]) *)

Module Card.

Inductive Role := user | model.

Record ChatMessage := { role : Role; text : string }.

(** The chat state of the component, with a record of the calls of
    [sendChatMessage]: the history and the new message of each. *)
Record CardState := mkCard {
  chatHistory : list ChatMessage;
  inputMessage : string;
  isChatLoading : bool;
  sent : list (list ChatMessage * string)
}.

Definition init : CardState :=
  {| chatHistory := []; inputMessage := ""; isChatLoading := false;
     sent := [] |}.

(** What the [catch] and [finally] blocks of [handleChatSubmit] do. *)
Definition chatFailed (s : CardState) : CardState :=
  mkCard (chatHistory s
            ++ [{| role := model;
                   text := "Sorry, I couldn't connect right now." |}])
         (inputMessage s) false (sent s).

(** [handleChatSubmit] up to its [await]; without a key [sendChatMessage]
    throws at once. *)
Definition handleChatSubmit (key : bool) (s : CardState) : CardState :=
  if is_empty_string (trim (inputMessage s)) then s
  else
    let newMsg := {| role := user; text := inputMessage s |} in
    let s' := mkCard (chatHistory s ++ [newMsg]) "" true
                     (sent s ++ [(chatHistory s, text newMsg)]) in
    if key then s' else chatFailed s'.

(** [handleChatSubmit] after its [await]. *)
Definition handleChatSubmit_rest (o : Error + option string)
    (s : CardState) : CardState :=
  match sendChatMessage true o with
  | inr response =>
      mkCard (chatHistory s ++ [{| role := model; text := response |}])
             (inputMessage s) false (sent s)
  | inl _ => chatFailed s
  end.

(** [handleRegenerateImage], for a call made while no other is loading, as
    the image it leaves on display: the new address if there is one, the
    image shown before otherwise, also when [generateConceptImage] throws.
    A call made while another is loading returns at once. *)
Definition handleRegenerateImage (key : bool) (o : Error + Image.Response)
    (currentImageUrl : option string) : option string :=
  match generateConceptImage key o with
  | inr newUrl => if js_truthy newUrl then newUrl else currentImageUrl
  | inl _ => currentImageUrl
  end.

(** The form cannot be submitted while its button is disabled. *)
Inductive Event :=
  | TypeMessage (text : string)
  | Submit
  | ChatSettles (o : Error + option string).

Definition step (key : bool) (s : CardState) (ev : Event) : CardState :=
  match ev with
  | TypeMessage text =>
      mkCard (chatHistory s) text (isChatLoading s) (sent s)
  | Submit => if isChatLoading s then s else handleChatSubmit key s
  | ChatSettles o =>
      if isChatLoading s then handleChatSubmit_rest o s else s
  end.

Definition exec (key : bool) (s : CardState) (evs : list Event) : CardState :=
  foldl (step key) s evs.

Definition reachable (s : CardState) : Prop :=
  ∃ key evs, s = exec key init evs.

End Card.

(** ** [handleSearch]: the two parallel requests

    [Promise.all] of the promises of [lookupTerm] and
    [generateConceptImage] is fulfilled with both values when both are
    fulfilled and is rejected otherwise; [handleSearch] shows the entry in
    the first case and goes back to the home view in the second, whatever
    the error. *)
Definition search_all {A} (textData : Error + A)
    (imageUrl : Error + option string) : option (A * option string) :=
  match textData, imageUrl with
  | inr textData, inr imageUrl => Some (textData, imageUrl)
  | _, _ => None
  end.

(** * Runs, invariants and named scenarios *)

(** The states the module can be in, in a browser that has the Web Audio
    API: those a finite run of the event loop reaches from a page load. *)
Definition reachable (s : State) : Prop :=
  ∃ key dev evs, s = exec (init key dev) evs.

(** The same in any browser. *)
Definition launched (s : State) : Prop :=
  ∃ webAudio key dev evs, s = exec (boot webAudio key dev) evs.

(** Every key of [ttsCache] points at an entry created under that key. *)
Definition cache_wf (s : State) : Prop :=
  ∀ k e, ttsCache s !! k = Some e →
         ∃ en, entries s !! e = Some en ∧ en_key en = k.

(** The promise stored in the cache follows the pipeline's promise through
    the [.catch] handler: same value on success, [null] on failure, never a
    rejection. *)
Definition outer_ok (en : Entry) : Prop :=
  match en_outer en with
  | Pending => True
  | Fulfilled v =>
      en_inner en = Fulfilled v ∨ (∃ err, en_inner en = Rejected err) ∧ v = None
  | Rejected _ => False
  end.

Definition entries_ok (s : State) : Prop :=
  ∀ e en, entries s !! e = Some en → outer_ok en.

Definition failed (en : Entry) : Prop := ∃ err, en_inner en = Rejected err.

(** A failed entry whose handler has run is no longer the cached one. *)
Definition handled_not_live (s : State) : Prop :=
  ∀ e en, entries s !! e = Some en → failed en → en_outer en ≠ Pending →
          ttsCache s !! en_key en ≠ Some e.

(** What rejects the promise of a [playTTS] call: nothing but the
    [TypeError] of [getAudioContext], in a browser without the Web Audio
    API, where no audio context was ever constructed. *)
Definition calls_ok (s : State) : Prop :=
  ∀ c cl err, calls s !! c = Some cl →
    c_promise cl = Rejected err ∨ c_stage cl = ResumeFailed err →
    err = TypeError ∧ audioContextClass s = false ∧ audioCtx s = false.

(** What a caller saw when its [await] of an entry resumed is the value the
    entry's promise holds. *)
Definition obs_ok (s : State) : Prop :=
  ∀ c e v, Observe c e v ∈ trace s →
           ∃ en, entries s !! e = Some en ∧ en_outer en = Fulfilled v.

(** The pipeline invocations made under one cache key. *)
Definition invocations_for (key : string) (s : State) : list (string * string) :=
  filter (λ tl, cacheKey tl.1 tl.2 = key) (invocations s).

(** Call [c] is at [await getTTSBuffer(text, lang)] with the cache key
    [key], and what it awaits is the cached promise number [e]. *)
Definition awaits (key : string) (c e : nat) (s : State) : Prop :=
  ∃ cl retry, calls s !! c = Some cl ∧
              cacheKey (c_text cl) (c_lang cl) = key ∧
              c_stage cl = AwaitBuffer retry e.

(** The three events that take entry [e], whose request is [r], from the
    answer [o] of the service to its settled cache promise. *)
Definition settles (r e : nat) (o : Error + Response) : list Event :=
  [ServiceSettles r o; ContinuePipeline e; RunCatch e].

(** What [getTTSBuffer] resolves to when the service answers [o]. *)
Definition value_of (o : Error + Response) : option AudioBuffer :=
  match o with
  | inl _ => None
  | inr response =>
      match fetchAndDecodeTTS_rest response with
      | inl _ => None
      | inr buffer => buffer
      end
  end.

Definition texts_ok (s : State) : Prop :=
  (∀ c cl, calls s !! c = Some cl → c_stage cl ≠ Returned →
           is_empty_string (c_text cl) = false) ∧
  (∀ t l, Invoke t l ∈ trace s → is_empty_string t = false).

(** [playTTS(" ", "Spanish")] run up to its call of [getTTSBuffer]. *)
Definition blank_run : State :=
  exec (init true Running) [CallPlayTTS " " "Spanish"; ContinuePlay 0].

#[global] Instance Origin_eq_dec : EqDecision Origin.
Proof. solve_decision. Defined.

Definition is_failed (en : Entry) : bool :=
  match en_inner en with Rejected _ => true | _ => false end.

Definition is_handled (en : Entry) : bool := negb (is_pending (en_outer en)).

Definition deleted_by (o : Origin) (it : TraceItem) : list string :=
  match it with
  | Delete k by_ => if decide (by_ = o) then [k] else []
  | _ => []
  end.

Definition deletes_by (o : Origin) (tr : list TraceItem) : list string :=
  tr ≫= deleted_by o.

(** The keys deleted by the [.catch] handler of entry [e]. *)
Definition handler_deletes (e : nat) (s : State) : list string :=
  deletes_by (ByHandler e) (trace s).

(** The keys deleted by the retry branch of [playTTS] call [c]. *)
Definition retry_deletes (c : nat) (s : State) : list string :=
  deletes_by (ByRetry c) (trace s).

Definition handler_ok (s : State) : Prop :=
  ∀ e, handler_deletes e s =
         match entries s !! e with
         | Some en => if is_failed en && is_handled en then [en_key en] else []
         | None => []
         end.

(** What call [c] received from its [await]s of cached promises, in
    order: one value, or two when it retried. *)
Definition observations (c : nat) (s : State) : list (option AudioBuffer) :=
  omap (λ it, match it with
              | Observe c' _ v => if decide (c' = c) then Some v else None
              | _ => None
              end) (trace s).

(** Call [c] received [null] from its first [await]. *)
Definition retried (c : nat) (s : State) : bool :=
  match observations c s with None :: _ => true | _ => false end.

Definition retry_ok (s : State) : Prop :=
  ∀ c, match calls s !! c with
       | None => observations c s = [] ∧ retry_deletes c s = []
       | Some cl =>
           retry_deletes c s
           = (if retried c s then [cacheKey (c_text cl) (c_lang cl)] else []) ∧
           match c_stage cl with
           | AwaitResume _ | ResumeFailed _ | AwaitBuffer false _ =>
               observations c s = []
           | AwaitBuffer true _ => observations c s = [None]
           | _ => True
           end
       end.

(** Who made a [ttsCache.delete(key)]: the handler of a failed entry of
    that key, or a [playTTS] call for that key that received [null] from
    its first [await]. *)
Definition accounted (s : State) (key : string) (by_ : Origin) : Prop :=
  match by_ with
  | ByHandler e =>
      ∃ en, entries s !! e = Some en ∧ en_key en = key ∧
            is_failed en = true ∧ is_handled en = true
  | ByRetry c =>
      ∃ cl, calls s !! c = Some cl ∧ cacheKey (c_text cl) (c_lang cl) = key ∧
            retried c s = true
  end.

(** Every [ttsCache.delete] of [key], by whoever made it. *)
Definition evictions_of (key : string) (s : State) : list Origin :=
  omap (λ it, match it with
              | Delete k by_ => if decide (k = key) then Some by_ else None
              | _ => None
              end) (trace s).

(** The entries of [key] whose computation failed and was handled. *)
Definition failures_of (key : string) (s : State) : list Entry :=
  filter (λ en, en_key en = key ∧ is_failed en = true ∧ is_handled en = true)
         (entries s).

(** The [playTTS] calls for [key], by number, that received [null] from
    their first [await]. *)
Definition has_retried (key : string) (s : State) (c : nat) : bool :=
  match calls s !! c with
  | Some cl => bool_decide (cacheKey (c_text cl) (c_lang cl) = key) && retried c s
  | None => false
  end.

Definition retries_of (key : string) (s : State) : list nat :=
  filter (λ c, has_retried key s c = true) (seq 0 (length (calls s))).

(** [P] holds of the element number [i] of [l]. *)
Definition holds_at {A} (P : A → bool) (l : list A) (i : nat) : bool :=
  match l !! i with Some x => P x | None => false end.

(** [playTTS("hola", "Spanish")] whose first request the service refuses,
    run up to the retry's call of [getTTSBuffer]. *)
Definition retry_run : State :=
  exec (init true Running)
    [CallPlayTTS "hola" "Spanish"; ContinuePlay 0;
     ServiceSettles 0 (inl (ServiceError "503")); ContinuePipeline 0;
     RunCatch 0; ContinuePlay 0].

(** [playTTS("hola", "Spanish")] in a browser that has neither
    [AudioContext] nor [webkitAudioContext]. *)
Definition without_web_audio : State :=
  exec (boot false true Running) [CallPlayTTS "hola" "Spanish"; ContinuePlay 0].

(** ** One [playTTS] call on its own *)

(** The pipeline's result for an answer of the service. *)
Definition pipeline_outcome (o : Error + Response) : Error + option AudioBuffer :=
  match o with
  | inl err => inl err
  | inr response => fetchAndDecodeTTS_rest response
  end.

Definition pipeline_fails (o : Error + Response) : Prop :=
  ∃ err, pipeline_outcome o = inl err.

(** What the second answer of the service must be for the retry to end
    with [b2]: a buffer, or nothing. *)
Definition second_answer (b2 : option AudioBuffer) (o : Error + Response) : Prop :=
  match b2 with
  | Some b => pipeline_outcome o = inr (Some b)
  | None => pipeline_fails o
  end.

(** The events of a run in which one [playTTS] call is alone, the first
    [generateContent] call fails and the second one ends with [b2]. *)
Definition alone (b2 : option AudioBuffer) (ev : Event) : Prop :=
  match ev with
  | CallPlayTTS _ _ | CallPrefetchTTS _ _ => False
  | ServiceSettles 0 o => pipeline_fails o
  | ServiceSettles 1 o => second_answer b2 o
  | _ => True
  end.

Definition played_of (b2 : option AudioBuffer) : list AudioBuffer :=
  match b2 with Some b => [b] | None => [] end.

(** A [generateContent] call that has not succeeded. *)
Definition failing_request (p : PState Response) : Prop :=
  match p with
  | Pending | Rejected _ => True
  | Fulfilled response => pipeline_fails (inr response)
  end.

(** A [generateContent] call whose outcome, if any, is [b2]. *)
Definition second_request (b2 : option AudioBuffer) (p : PState Response) : Prop :=
  match p with
  | Pending => True
  | Rejected err => second_answer b2 (inl err)
  | Fulfilled response => second_answer b2 (inr response)
  end.

Definition failing_inner (p : PState (option AudioBuffer)) : Prop :=
  match p with Fulfilled _ => False | _ => True end.

Definition second_inner (b2 : option AudioBuffer)
    (p : PState (option AudioBuffer)) : Prop :=
  match p with
  | Pending => True
  | Rejected _ => b2 = None
  | Fulfilled v => v = b2 ∧ b2 ≠ None
  end.

Definition outer_is (v : option AudioBuffer)
    (p : PState (option AudioBuffer)) : Prop :=
  match p with
  | Pending => True
  | Rejected _ => False
  | Fulfilled w => w = v
  end.

(** Before the first attempt. *)
Definition phase_resume (text lang : string) (s : State) : Prop :=
  apiKey s = true ∧ audioCtx s = true ∧
  (∃ r, calls s = [mkCall text lang (AwaitResume r) Pending]) ∧
  entries s = [] ∧ requests s = [] ∧ ttsCache s !! cacheKey text lang = None ∧
  invocations s = [] ∧ played s = [].

(** Waiting for the first attempt. *)
Definition phase_first (text lang : string) (s : State) : Prop :=
  apiKey s = true ∧ audioCtx s = true ∧
  calls s = [mkCall text lang (AwaitBuffer false 0) Pending] ∧
  (∃ inner outer p0,
     entries s = [mkEntry (cacheKey text lang) (Some 0%nat) inner outer] ∧
     requests s = [p0] ∧
     failing_request p0 ∧ failing_inner inner ∧ outer_is None outer) ∧
  invocations s = [(text, lang)] ∧ played s = [].

(** Waiting for the retry. *)
Definition phase_retry (text lang : string) (b2 : option AudioBuffer)
    (s : State) : Prop :=
  calls s = [mkCall text lang (AwaitBuffer true 1) Pending] ∧
  (∃ en0 inner outer p0 p1,
     entries s = [en0; mkEntry (cacheKey text lang) (Some 1%nat) inner outer] ∧
     requests s = [p0; p1] ∧
     second_request b2 p1 ∧ second_inner b2 inner ∧ outer_is b2 outer) ∧
  invocations s = [(text, lang); (text, lang)] ∧ played s = [].

(** Playing, and done. *)
Definition phase_playing (text lang : string) (b2 : option AudioBuffer)
    (s : State) : Prop :=
  (∃ src, calls s = [mkCall text lang (AwaitPlayback src) Pending]) ∧
  invocations s = [(text, lang); (text, lang)] ∧
  played s = played_of b2 ∧ b2 ≠ None.

Definition phase_done (text lang : string) (b2 : option AudioBuffer)
    (s : State) : Prop :=
  calls s = [mkCall text lang Returned (Fulfilled ())] ∧
  invocations s = [(text, lang); (text, lang)] ∧
  played s = played_of b2.

Definition single_call_inv (text lang : string) (b2 : option AudioBuffer)
    (s : State) : Prop :=
  phase_resume text lang s ∨ phase_first text lang s ∨
  phase_retry text lang b2 s ∨ phase_playing text lang b2 s ∨
  phase_done text lang b2 s.

(** One order in which the event loop can run a lone [playTTS] call whose
    first request ends with [o1] and whose retry ends with [o2]. *)
Definition schedule (o1 o2 : Error + Response) : list Event :=
  [ResumeSettles 0 true; ContinuePlay 0; ContinuePlay 0;
   ServiceSettles 0 o1; ContinuePipeline 0; RunCatch 0; ContinuePlay 0;
   ServiceSettles 1 o2; ContinuePipeline 1; RunCatch 1; ContinuePlay 0;
   SourceEnded 0; ContinuePlay 0].

(** ** Buffers in flight *)

Definition decoded (v : PState (option AudioBuffer)) : Prop :=
  ∀ b, v = Fulfilled (Some b) → ∃ bytes, decodePCM bytes = Some b.

Definition buffers_ok (s : State) : Prop :=
  (∀ e en, entries s !! e = Some en → decoded (en_inner en) ∧ decoded (en_outer en)) ∧
  (∀ b, Start b ∈ trace s → ∃ bytes, decodePCM bytes = Some b).

(** ** What a caller of the module can see *)

Definition caller_view (s : State)
  : list Call * list (AudioBuffer * bool) * list AudioBuffer :=
  (calls s, sources s, played s).

(** The events of a prefetch: its call and the steps of its pipeline. *)
Definition prefetch_path (ev : Event) : bool :=
  match ev with
  | CallPrefetchTTS _ _ | ServiceSettles _ _ | ContinuePipeline _ | RunCatch _ =>
      true
  | _ => false
  end.

(** A prefetch of "hola" followed by two [playTTS] calls for it, all three
    attached to the one entry, which then settles with two samples. *)
Definition dedup_run : list Event :=
  [CallPlayTTS "hola" "Spanish"; ContinuePlay 0;
   CallPlayTTS "hola" "Spanish"; ContinuePlay 1;
   ServiceSettles 0 (inr (ok_response "AID/fw=="));
   ContinuePipeline 0; RunCatch 0; ContinuePlay 0; ContinuePlay 1].

(** The buffer of the two samples -32768 and 32767, which the service
    sends as "AID/fw==". *)
Definition two_samples : AudioBuffer :=
  pcm_buffer [Byte.x00; Byte.x80; Byte.xff; Byte.x7f].

(** * Further vocabulary *)

(** A text made of white space only, the empty text included. *)
Definition all_whitespace (text : string) : Prop :=
  Forall (λ c, is_js_whitespace c = true) (list_ascii_of_string text).

(** A language tag without a colon. *)
Definition colon_free (lang : string) : Prop :=
  ":"%char ∉ list_ascii_of_string lang.

(** Each entry that made a request holds the next request number, in
    order; and every entry was made by one invocation of the pipeline. *)
Definition requests_ok (s : State) : Prop :=
  omap en_request (entries s) = seq 0 (length (requests s)) ∧
  length (entries s) = length (invocations s) ∧
  (apiKey s = false → requests s = []).

(** A [playTTS] call that is past its last [await] of a buffer. *)
Definition past_fetch (cl : Call) : bool :=
  match c_stage cl with
  | AwaitPlayback _ | Returned => true
  | _ => false
  end.

Definition playback_ok (s : State) : Prop :=
  length (sources s) = length (played s) ∧
  length (played s) ≤ length (filter (λ cl, past_fetch cl = true) (calls s)) ∧
  length (resumes s) ≤ length (calls s) + length (resumeCalls s) ∧
  (∀ b, Start b ∈ trace s → ∃ c e, Observe c e (Some b) ∈ trace s).

(** Two [playTTS] calls for one text, both waiting for the one entry when
    its computation fails with [o]; each then runs its retry. *)
Definition race_run (text lang : string) (o : Error + Response) : list Event :=
  [CallPlayTTS text lang; ContinuePlay 0;
   CallPlayTTS text lang; ContinuePlay 1;
   ServiceSettles 0 o; ContinuePipeline 0; RunCatch 0;
   ContinuePlay 0; ContinuePlay 1].

(** ** The application *)

Definition terms (notebook : list App.DictionaryEntry) : list string :=
  App.term <$> notebook.

(** A text [String.prototype.trim] leaves alone and that is not empty. *)
Definition trimmed_text (text : string) : Prop :=
  trim text = text ∧ is_empty_string text = false.

Definition diary_ok (s : App.AppState) : Prop :=
  App.diaryResult s = "" ∨ trimmed_text (App.diaryResult s).

Definition flashcards_ok (s : App.AppState) : Prop :=
  (0 <= App.currentFlashcardIndex s)%Z ∧
  (App.currentFlashcardIndex s = 0%Z ∨
   (App.currentFlashcardIndex s < Z.of_nat (length (App.notebook s)))%Z).

Definition story_requests_ok (s : App.AppState) : Prop :=
  Forall (λ words : list string, 3 ≤ length words ≤ 10) (App.storyRequests s).

(** A chat history that is a sequence of exchanges: a message of the user,
    then one of the model, and so on; [turn] says whose message comes
    first. *)
Fixpoint alternates (turn : Card.Role) (history : list Card.ChatMessage)
  : bool :=
  match history with
  | [] => true
  | m :: rest =>
      match turn, Card.role m with
      | Card.user, Card.user => alternates Card.model rest
      | Card.model, Card.model => alternates Card.user rest
      | _, _ => false
      end
  end.

Definition other (turn : Card.Role) : Card.Role :=
  match turn with Card.user => Card.model | Card.model => Card.user end.

Definition chat_ok (s : Card.CardState) : Prop :=
  alternates Card.user (Card.chatHistory s) = true ∧
  Nat.even (length (Card.chatHistory s)) = negb (Card.isChatLoading s) ∧
  Forall (λ call : list Card.ChatMessage * string,
            alternates Card.user call.1 = true ∧
            Nat.even (length call.1) = true ∧
            is_empty_string (trim call.2) = false)
         (Card.sent s).

(** ** Progress of a [playTTS] call *)

(** How far a call is: the number of the [await] it is suspended on. *)
Definition rank (st : Stage) : nat :=
  match st with
  | AwaitResume (Some _) => 0
  | AwaitResume None => 1
  | AwaitBuffer false _ => 2
  | AwaitBuffer true _ => 3
  | AwaitPlayback _ => 4
  | ResumeFailed _ => 4
  | Returned => 5
  end.

(** What a suspended call and a pending entry wait for exists. *)
Definition waits_ok (s : State) : Prop :=
  (∀ c cl, calls s !! c = Some cl →
     match c_stage cl with
     | AwaitResume (Some r) => r < length (resumes s)
     | AwaitBuffer _ e => e < length (entries s)
     | AwaitPlayback src => src < length (sources s)
     | _ => True
     end ∧
     (c_stage cl = Returned ↔ c_promise cl ≠ Pending)) ∧
  (∀ e en, entries s !! e = Some en →
     en_inner en = Pending → is_Some (en_request en)).

(** * Properties *)

(** ** The byte decoder *)

Section decoder.
Local Open Scope Z_scope.

Lemma foldl_insert_seq {A} (f : nat → A) (l : list A) (n : nat) :
  (n ≤ length l)%nat →
  foldl (λ acc i, <[i := f i]> acc) l (seq 0 n) = (f <$> seq 0 n) ++ drop n l.
Proof.
  induction n as [|n IH]; intros Hn; [by rewrite drop_0|].
  rewrite seq_S, foldl_app, fmap_app. simpl. rewrite IH by lia.
  assert (Hlen : length (f <$> seq 0 n) = n)
    by (by rewrite length_fmap, length_seq).
  destruct (lookup_lt_is_Some_2 l n) as [x Hx]; [lia|].
  rewrite (drop_S _ _ _ Hx), insert_app_r_alt by lia.
  rewrite Hlen, Nat.sub_diag. simpl. by rewrite <- app_assoc.
Qed.

Lemma fmap_lookup_seq {A B} (g : A → B) (d : A) (l : list A) :
  (λ i, g (default d (l !! i))) <$> seq 0 (length l) = g <$> l.
Proof.
  apply list_eq. intros i. rewrite !list_lookup_fmap.
  destruct (l !! i) as [x|] eqn:Hi.
  - rewrite lookup_seq_lt by (by eapply lookup_lt_Some). simpl. by rewrite Hi.
  - rewrite lookup_seq_ge by (by apply lookup_ge_None). done.
Qed.

Lemma decodeBase64_bytes (base64 : string) :
  decodeBase64 base64 =
    (λ bin, byte_of_ascii <$> list_ascii_of_string bin) <$> Base64.atob base64.
Proof.
  unfold decodeBase64. destruct (Base64.atob base64) as [bin|]; [|done].
  simpl. f_equal. rewrite foldl_insert_seq by (by rewrite length_replicate).
  rewrite drop_ge by (by rewrite length_replicate). rewrite app_nil_r.
  apply (fmap_lookup_seq byte_of_ascii).
Qed.

Lemma length_even_prefix bytes :
  length (even_prefix bytes) = (2 * (length bytes / 2))%nat.
Proof.
  unfold even_prefix. rewrite length_take.
  pose proof (Nat.div_mod_eq (length bytes) 2). lia.
Qed.

Lemma trimmed_is_even_prefix bytes :
  (if negb (length bytes mod 2 =? 0)%nat
   then take (length bytes - 1) bytes else bytes) = even_prefix bytes.
Proof.
  unfold even_prefix.
  pose proof (Nat.div_mod_eq (length bytes) 2) as Hdm.
  pose proof (Nat.mod_upper_bound (length bytes) 2) as Hub.
  destruct (Nat.eqb_spec (length bytes mod 2) 0) as [H0|H1]; cbn [negb].
  - rewrite take_ge; [done|lia].
  - f_equal. lia.
Qed.

Lemma even_prefix_idemp bytes :
  even_prefix (even_prefix bytes) = even_prefix bytes.
Proof.
  unfold even_prefix at 1. rewrite length_even_prefix.
  rewrite (Nat.mul_comm 2 (length bytes / 2)), Nat.div_mul by lia.
  apply take_ge. rewrite length_even_prefix. lia.
Qed.

Lemma even_prefix_snoc bytes x :
  even_prefix (even_prefix bytes ++ [x]) = even_prefix bytes.
Proof.
  unfold even_prefix at 1. rewrite length_app, length_even_prefix.
  change (length [x]) with 1%nat.
  replace ((2 * (length bytes / 2) + 1) / 2)%nat with (length bytes / 2)%nat.
  - rewrite take_app_le by (rewrite length_even_prefix; lia).
    apply take_ge. rewrite length_even_prefix. lia.
  - rewrite (Nat.mul_comm 2), Nat.div_add_l by lia. simpl. lia.
Qed.

Lemma int16_of_bytes_range lo hi :
  -32768 <= int16_of_bytes lo hi <= 32767.
Proof.
  unfold int16_of_bytes, byteZ.
  pose proof (Byte.to_N_bounded lo). pose proof (Byte.to_N_bounded hi).
  destruct (Z.ltb_spec (Z.of_N (Byte.to_N lo) + 256 * Z.of_N (Byte.to_N hi))
                       32768); lia.
Qed.

Lemma int16_of_bytes_mod lo hi :
  int16_of_bytes lo hi mod 65536 = byteZ lo + 256 * byteZ hi.
Proof.
  unfold int16_of_bytes, byteZ.
  pose proof (Byte.to_N_bounded lo). pose proof (Byte.to_N_bounded hi).
  destruct (Z.ltb_spec (Z.of_N (Byte.to_N lo) + 256 * Z.of_N (Byte.to_N hi))
                       32768).
  - apply Z.mod_small. lia.
  - symmetry. apply (Z.mod_unique _ _ (-1)); lia.
Qed.

(** [decodePCM] in closed form: it fails exactly on fewer than two bytes,
    and otherwise returns [pcm_buffer]. *)
Lemma decodePCM_unfold bytes :
  decodePCM bytes =
    if (length bytes / 2 =? 0)%nat then None else Some (pcm_buffer bytes).
Proof.
  unfold decodePCM, pcm_buffer.
  rewrite trimmed_is_even_prefix, length_even_prefix.
  replace (2 * (length bytes / 2) / 2)%nat with (length bytes / 2)%nat
    by (by rewrite Nat.mul_comm, Nat.div_mul).
  unfold createBuffer. cbn [Nat.eqb orb].
  destruct (Nat.eqb_spec (length bytes / 2) 0) as [H0|Hn]; [done|].
  change (24000 =? 0)%N with false. cbn [orb mbind option_bind].
  set (view := Int16Array_view _ _).
  assert (Hv : length view = (length bytes / 2)%nat)
    by (unfold view, Int16Array_view; by rewrite length_fmap, length_seq).
  unfold getChannelData.
  cbn [channels sampleRate replicate lookup list_lookup default
       insert list_insert from_option id].
  rewrite Hv, foldl_insert_seq by (rewrite length_replicate; lia).
  rewrite drop_ge by (rewrite length_replicate; lia).
  rewrite app_nil_r, <- Hv. do 4 f_equal.
  apply (fmap_lookup_seq pcm_to_float).
Qed.

Lemma decodePCM_Some bytes b :
  decodePCM bytes = Some b ↔ (2 ≤ length bytes)%nat ∧ b = pcm_buffer bytes.
Proof.
  rewrite decodePCM_unfold.
  pose proof (Nat.div_mod_eq (length bytes) 2) as Hdm.
  pose proof (Nat.mod_upper_bound (length bytes) 2) as Hub.
  destruct (Nat.eqb_spec (length bytes / 2) 0) as [H0|Hn].
  - split; [done|]. intros [Hlen _]. lia.
  - split; [intros [= <-]|intros [_ ->]]; [|done]. split; [lia|done].
Qed.

Lemma decodePCM_None bytes :
  decodePCM bytes = None ↔ (length bytes < 2)%nat.
Proof.
  rewrite decodePCM_unfold.
  pose proof (Nat.div_mod_eq (length bytes) 2) as Hdm.
  pose proof (Nat.mod_upper_bound (length bytes) 2) as Hub.
  destruct (Nat.eqb_spec (length bytes / 2) 0) as [H0|Hn].
  - split; [lia|done].
  - split; [done|lia].
Qed.

Lemma samples_pcm_buffer bytes :
  samples (pcm_buffer bytes) =
    (λ i, pcm_to_float
            (int16_of_bytes (default Byte.x00 (bytes !! (2 * i)%nat))
                            (default Byte.x00 (bytes !! (2 * i + 1)%nat))))
      <$> seq 0 (length bytes / 2).
Proof.
  unfold pcm_buffer, samples, getChannelData.
  cbn [channels lookup list_lookup default from_option id].
  unfold Int16Array_view. rewrite <- list_fmap_compose.
  apply list_fmap_ext. intros i k Hk. cbn beta. unfold compose.
  apply lookup_seq in Hk as [-> Hlt]. rewrite Nat.add_0_l in *.
  unfold even_prefix. rewrite !lookup_take_lt by lia. done.
Qed.

Lemma pcm_buffer_even_prefix bytes :
  pcm_buffer (even_prefix bytes) = pcm_buffer bytes.
Proof.
  unfold pcm_buffer. rewrite even_prefix_idemp, length_even_prefix.
  by rewrite (Nat.mul_comm 2), Nat.div_mul.
Qed.

Lemma pcm_buffer_snoc bytes x :
  pcm_buffer (even_prefix bytes ++ [x]) = pcm_buffer bytes.
Proof.
  unfold pcm_buffer. rewrite even_prefix_snoc.
  rewrite length_app, length_even_prefix. change (length [x]) with 1%nat.
  replace ((2 * (length bytes / 2) + 1) / 2)%nat with (length bytes / 2)%nat;
    [done|].
  rewrite (Nat.mul_comm 2), Nat.div_add_l by lia. simpl. lia.
Qed.

Lemma pcm_to_float_range v :
  -32768 <= v <= 32767 → (-1 <= pcm_to_float v <= 1)%Q.
Proof.
  intros Hv. unfold pcm_to_float, Qdiv, Qle, Qmult, Qinv, inject_Z. simpl. lia.
Qed.

(** The division is exact in binary32: no rounding takes place. *)
Lemma sample_is_binary32 lo hi :
  is_binary32 (pcm_to_float (int16_of_bytes lo hi)).
Proof.
  pose proof (int16_of_bytes_range lo hi).
  exists (int16_of_bytes lo hi), (-15). split; [lia|]. split; [lia|].
  unfold pcm_to_float, Qdiv, Qeq, Qmult, Qinv, inject_Z. simpl. lia.
Qed.

Lemma pcm_buffer_well_formed bytes : well_formed_buffer (pcm_buffer bytes).
Proof.
  split_and!; [done..|].
  rewrite samples_pcm_buffer. apply Forall_fmap, Forall_forall.
  intros i _. simpl. apply pcm_to_float_range, int16_of_bytes_range.
Qed.

Lemma pipeline_buffer_decoded response b :
  fetchAndDecodeTTS_rest response = inr (Some b) →
  ∃ bytes, decodePCM bytes = Some b.
Proof.
  unfold fetchAndDecodeTTS_rest.
  destruct (response_audio response) as [b64|]; [|done].
  destruct (is_empty_string b64); [done|].
  destruct (decodeBase64 b64) as [bytes|]; [|done].
  destruct (decodePCM bytes) as [b'|] eqn:Hd; [|done].
  intros [= <-]. by exists bytes.
Qed.

End decoder.

(** ** Runs and their invariants *)

Lemma exec_snoc s evs ev : exec s (evs ++ [ev]) = step (exec s evs) ev.
Proof. unfold exec. by rewrite foldl_app. Qed.

Lemma launched_ind (P : State → Prop) :
  (∀ webAudio key dev, P (boot webAudio key dev)) →
  (∀ s ev, launched s → P s → P (step s ev)) →
  ∀ s, launched s → P s.
Proof.
  intros Hinit Hstep s (w & key & dev & evs & ->).
  induction evs as [|ev evs IH] using rev_ind; [apply Hinit|].
  rewrite exec_snoc. apply Hstep; [|done]. by exists w, key, dev, evs.
Qed.

Lemma reachable_launched s : reachable s → launched s.
Proof. intros (key & dev & evs & ->). by exists true, key, dev, evs. Qed.

Lemma reachable_ind (P : State → Prop) :
  (∀ key dev, P (init key dev)) →
  (∀ s ev, reachable s → P s → P (step s ev)) →
  ∀ s, reachable s → P s.
Proof.
  intros Hinit Hstep s (key & dev & evs & ->).
  induction evs as [|ev evs IH] using rev_ind; [apply Hinit|].
  rewrite exec_snoc. apply Hstep; [|done]. by exists key, dev, evs.
Qed.

Ltac unfold_step :=
  unfold step, playTTS, prefetchTTS, continue_play, continue_pipeline,
    run_catch, playTTS_fetch, getTTSBuffer, fetchAndDecodeTTS,
    callResumeAudioContext, continue_resume, resumeAudioContext,
    getAudioContext, playBuffer, on_fetch_failed, evict, finish, set_stage,
    getAiClient, settle_pending in *.

Ltac simp_state :=
  repeat (progress (simpl in *; simplify_eq));
  try match goal with
      | H : delete ?k _ !! ?k = Some _ |- _ =>
          by rewrite lookup_delete_eq in H
      end.

Ltac destruct_scrutinee x :=
  lazymatch type of x with
  | Entry =>
      let k := fresh "key" in let rq := fresh "req" in
      let i := fresh "inner" in let o := fresh "outer" in
      destruct x as [k rq i o]
  | _ => destruct x eqn:?
  end.

(** The scrutinee to look at first: the innermost one. *)
Ltac destruct_innermost x :=
  lazymatch x with
  | context [match ?y with _ => _ end] => destruct_innermost y
  | _ => destruct_scrutinee x
  end.

Ltac case_step :=
  repeat (simp_state;
          match goal with
          | |- context [match ?x with _ => _ end] => destruct_innermost x
          | H : context [match ?x with _ => _ end] |- _ => destruct_innermost x
          end);
  simp_state.

Lemma lookup_snoc_inv {A} (l : list A) x i y :
  (l ++ [x]) !! i = Some y → l !! i = Some y ∨ (i = length l ∧ y = x).
Proof. rewrite lookup_snoc_Some. naive_solver. Qed.

Lemma lookup_insert_inv {A} (l : list A) i j x y :
  <[i := x]> l !! j = Some y →
  (j = i ∧ y = x ∧ is_Some (l !! i)) ∨ (j ≠ i ∧ l !! j = Some y).
Proof.
  rewrite list_lookup_insert. case_decide as Hd.
  - destruct Hd as [-> Hlt]. intros [= <-]. left.
    by split; [|split; [|apply lookup_lt_is_Some]].
  - intros Hl. destruct (decide (j = i)) as [->|]; [|by right].
    left. assert (i < length l) by (by eapply lookup_lt_Some). naive_solver.
Qed.

Lemma lookup_alter_inv {A} (f : A → A) (l : list A) i j y :
  alter f i l !! j = Some y →
  (j = i ∧ ∃ x, l !! i = Some x ∧ y = f x) ∨ (j ≠ i ∧ l !! j = Some y).
Proof.
  destruct (decide (j = i)) as [->|Hne].
  - rewrite list_lookup_alter_eq. destruct (l !! i) as [x|]; [|done].
    intros [= <-]. left. eauto.
  - rewrite list_lookup_alter_ne by done. by right.
Qed.

Lemma lookup_snoc_case {A} (l : list A) x i :
  (l ++ [x]) !! i =
    match l !! i with
    | Some y => Some y
    | None => if decide (i = length l) then Some x else None
    end.
Proof.
  destruct (l !! i) as [y|] eqn:Hi; [by apply lookup_app_l_Some|].
  apply lookup_ge_None in Hi. case_decide as Hd.
  - subst. by apply list_lookup_middle.
  - apply lookup_ge_None. rewrite length_app. simpl. lia.
Qed.

Lemma cache_wf_step s ev : cache_wf s → cache_wf (step s ev).
Proof.
  intros Hwf. destruct ev; unfold_step; unfold cache_wf in *; case_step.
  all: try exact Hwf.
  all: intros k e'.
  all: try (rewrite lookup_insert; case_decide; simplify_eq).
  all: try (rewrite lookup_delete; case_decide; simplify_eq).
  all: try done.
  all: try (intros [= <-]; eexists; split; [by apply list_lookup_middle|done]).
  all: try (intros [en [Hen Hk]]%Hwf; exists en; split;
              [by apply lookup_app_l_Some|done]).
  all: intros Hk; destruct (Hwf _ _ Hk) as [en [Hen Hkey]];
       rewrite list_lookup_insert; case_decide as Hd;
       [destruct Hd as [-> _]; simplify_eq; by eexists|by exists en].
Qed.

Lemma cache_wf_reachable s : reachable s → cache_wf s.
Proof.
  apply reachable_ind; [intros ?? k e H; simpl in H; by rewrite lookup_empty in H|].
  intros ????. by apply cache_wf_step.
Qed.

Lemma entries_ok_step s ev : entries_ok s → entries_ok (step s ev).
Proof.
  intros Hok. destruct ev; unfold_step; unfold entries_ok in *; case_step.
  all: try exact Hok.
  all: intros e' en'.
  all: try (intros [Hl|[_ ->]]%lookup_snoc_inv; [by eapply Hok|exact I]).
  all: intros [(-> & -> & _)|[_ Hl]]%lookup_insert_inv; [|by eapply Hok].
  all: match goal with H : entries _ !! _ = Some _ |- _ =>
              apply Hok in H; unfold outer_ok in *; simpl in * end.
  all: repeat match goal with
              | |- context [match ?x with _ => _ end] => destruct x
              end.
  all: try done; try (by left); try (right; split; [by eexists|done]).
  all: naive_solver.
Qed.

Lemma entries_ok_launched s : launched s → entries_ok s.
Proof.
  apply launched_ind; [by intros ??? e en|].
  intros ????. by apply entries_ok_step.
Qed.

Lemma entries_ok_reachable s : reachable s → entries_ok s.
Proof. intros Hr. by apply entries_ok_launched, reachable_launched. Qed.

Ltac map_lookup :=
  repeat first
    [ rewrite lookup_insert; case_decide; simplify_eq
    | rewrite lookup_delete; case_decide; simplify_eq ].

Lemma handled_not_live_step s ev :
  cache_wf s → entries_ok s → handled_not_live s → handled_not_live (step s ev).
Proof.
  intros Hwf Hok Hnl.
  destruct ev; unfold_step; unfold handled_not_live in *; case_step.
  all: try exact Hnl.
  all: intros e' en'.
  all: try (intros [Hl|[-> ->]]%lookup_snoc_inv Hf Hp; [|done];
            map_lookup; try done; try (by eapply Hnl);
            apply lookup_lt_Some in Hl; intros [= Heq]; lia).
  all: intros [(-> & -> & _)|[_ Hl]]%lookup_insert_inv Hf Hp;
         [|map_lookup; try done; by eapply Hnl].
  all: simpl in *; map_lookup; try done.
  all: try (destruct Hf as [? Hf]; simpl in Hf; discriminate).
  all: match goal with H : entries _ !! _ = Some _ |- _ =>
         apply Hok in H; unfold outer_ok in H; simpl in H end.
  all: match goal with H : match ?x with _ => _ end |- _ => destruct x end.
  all: naive_solver.
Qed.

Lemma handled_not_live_reachable s : reachable s → handled_not_live s.
Proof.
  intros Hr. pose proof Hr as Hr'. revert s Hr Hr'.
  apply (reachable_ind (λ s, reachable s → handled_not_live s));
    [by intros ?? _ e en|].
  intros s ev Hr IH _. apply handled_not_live_step;
    auto using cache_wf_reachable, entries_ok_reachable.
Qed.

Lemma calls_ok_step s ev : entries_ok s → calls_ok s → calls_ok (step s ev).
Proof.
  intros Hok Hc. destruct ev; unfold_step; unfold calls_ok in *; case_step.
  all: try exact Hc.
  all: intros c' cl' err'.
  all: try (intros [Hl|[_ ->]]%lookup_snoc_inv [Hp|Hp]).
  all: try (intros [(-> & x & Hx & ->)|[_ Hl]]%lookup_alter_inv [Hp|Hp]).
  all: try (intros Hl [Hp|Hp]).
  all: simplify_eq/=; try done.
  all: try (match goal with
            | H : calls _ !! _ = Some ?x, Hp : c_promise ?x = Rejected _ |- _ =>
                destruct (Hc _ _ _ H (or_introl Hp)) as (? & ? & ?)
            | H : calls _ !! _ = Some ?x, Hp : c_stage ?x = ResumeFailed _ |- _ =>
                destruct (Hc _ _ _ H (or_intror Hp)) as (? & ? & ?)
            end; simplify_eq; done).
  all: exfalso; destruct (entries s !! e) as [en|] eqn:Hen; simplify_eq/=.
  all: apply Hok in Hen; unfold outer_ok in Hen.
  all: destruct (en_outer en); simplify_eq/=; done.
Qed.

Lemma step_audioContextClass s ev :
  audioContextClass (step s ev) = audioContextClass s.
Proof. destruct ev; unfold_step; case_step; done. Qed.

Lemma reachable_webAudio s : reachable s → audioContextClass s = true.
Proof.
  revert s. apply (reachable_ind (λ s, audioContextClass s = true)); [done|].
  intros s ev _ <-. apply step_audioContextClass.
Qed.

Lemma calls_ok_launched s : launched s → calls_ok s.
Proof.
  intros Hl. pose proof Hl as Hl'. revert s Hl Hl'.
  apply (launched_ind (λ s, launched s → calls_ok s));
    [by intros ??? _ c cl|].
  intros s ev Hr IH _. apply calls_ok_step; auto using entries_ok_launched.
Qed.

Lemma calls_ok_reachable s c cl err :
  reachable s → calls s !! c = Some cl → c_promise cl ≠ Rejected err.
Proof.
  intros Hr Hc Hp. pose proof (reachable_webAudio _ Hr) as Hw.
  destruct (calls_ok_launched _ (reachable_launched _ Hr) _ _ err Hc)
    as (_ & Hf & _); [by left|congruence].
Qed.

Lemma obs_ok_step s ev : obs_ok s → obs_ok (step s ev).
Proof.
  intros Hobs. destruct ev; unfold_step; unfold obs_ok in *; case_step.
  all: try exact Hobs.
  all: intros c' e' v'; rewrite ?elem_of_app, ?list_elem_of_singleton.
  all: intros Hin;
       assert (∃ en, entries s !! e' = Some en ∧ en_outer en = Fulfilled v')
         as (en' & Hen' & Hv');
       [ destruct_or?; simplify_eq; try (by eapply Hobs);
         match goal with
         | H : en_outer <$> entries _ !! ?e = Some _ |- _ =>
             destruct (entries s !! e) as [en|]; simplify_eq/=; by exists en
         end
       | clear Hin ].
  all: try (by exists en').
  all: try (exists en'; split; [by apply lookup_app_l_Some|done]).
  all: destruct (decide (e' = e)) as [->|Hne];
         [|exists en'; by rewrite list_lookup_insert_ne].
  all: simplify_eq/=.
  all: eexists; split;
         [apply list_lookup_insert_eq; by eapply lookup_lt_Some|done].
Qed.

Lemma obs_ok_reachable s : reachable s → obs_ok s.
Proof.
  apply reachable_ind; [intros ?? c e v Hin; by apply elem_of_nil in Hin|].
  intros ????. by apply obs_ok_step.
Qed.

Lemma invocations_for_log_other key it s :
  (∀ t l, it ≠ Invoke t l) →
  invocations_for key (log it s) = invocations_for key s.
Proof.
  intros Hne. unfold invocations_for, invocations. simpl.
  rewrite omap_app, filter_app. destruct it; simpl; rewrite ?app_nil_r; try done.
  by destruct (Hne text lang).
Qed.

Ltac simp_inv :=
  unfold invocations_for, invocations in *; simpl in *;
  rewrite ?omap_app, ?filter_app in *; simpl in *;
  rewrite ?filter_cons, ?filter_nil, ?app_nil_r in *; simpl in *.

Lemma step_live_no_invoke s ev key e :
  cache_wf s →
  ttsCache s !! key = Some e → ttsCache (step s ev) !! key = Some e →
  invocations_for key (step s ev) = invocations_for key s.
Proof.
  intros Hwf Hl Hl'. apply Hwf in Hl as Hen. destruct Hen as (en & Hen & _).
  apply lookup_lt_Some in Hen. unfold invocations_for, invocations.
  destruct ev; unfold_step; case_step; try done.
  all: simp_inv; try done.
  all: case_decide; [|by rewrite app_nil_r]; subst key; exfalso.
  all: try congruence.
  all: rewrite lookup_insert_eq in Hl'; simplify_eq; lia.
Qed.

Lemma step_create_one_invoke s ev key e :
  ttsCache s !! key ≠ Some e → ttsCache (step s ev) !! key = Some e →
  ∃ text lang, cacheKey text lang = key ∧
    invocations_for key (step s ev) = invocations_for key s ++ [(text, lang)].
Proof.
  intros Hl Hl'. unfold invocations_for, invocations.
  destruct ev; unfold_step; case_step; try done.
  all: simp_inv; try done.
  all: revert Hl'; map_lookup; try done.
  all: intros _; eexists _, _; split; [done|].
  all: by rewrite ?decide_True.
Qed.

Lemma reachable_step s ev : reachable s → reachable (step s ev).
Proof.
  intros (key & dev & evs & ->). exists key, dev, (evs ++ [ev]).
  by rewrite exec_snoc.
Qed.

Lemma reachable_exec s evs : reachable s → reachable (exec s evs).
Proof.
  revert s. induction evs as [|ev evs IH]; intros s Hr; [done|].
  simpl. apply IH. by apply reachable_step.
Qed.

Lemma getTTSBuffer_hit text lang s e :
  ttsCache s !! cacheKey text lang = Some e →
  getTTSBuffer text lang s = (s, e).
Proof. intros H. unfold getTTSBuffer. by rewrite H. Qed.

Lemma observers_agree s e c1 c2 b1 b2 :
  reachable s →
  Observe c1 e b1 ∈ trace s → Observe c2 e b2 ∈ trace s → b1 = b2.
Proof.
  intros Hr H1 H2. apply obs_ok_reachable in Hr.
  destruct (Hr _ _ _ H1) as (en1 & Hen1 & Ho1).
  destruct (Hr _ _ _ H2) as (en2 & Hen2 & Ho2). congruence.
Qed.

(** *** An entry from its creation to its eviction *)

Lemma trace_step s ev : ∃ items, trace (step s ev) = trace s ++ items.
Proof.
  destruct ev; unfold_step; case_step.
  all: rewrite <- ?(assoc_L (++)).
  all: eexists; first [reflexivity | symmetry; apply app_nil_r].
Qed.

Lemma evictions_step key s ev :
  ∃ more, evictions_of key (step s ev) = evictions_of key s ++ more.
Proof.
  destruct (trace_step s ev) as [items Ht]. unfold evictions_of.
  rewrite Ht, omap_app. by eexists.
Qed.

Lemma no_eviction_cons key s ev evs :
  evictions_of key (exec s (ev :: evs)) = evictions_of key s →
  evictions_of key (step s ev) = evictions_of key s ∧
  evictions_of key (exec (step s ev) evs) = evictions_of key (step s ev).
Proof.
  assert (∀ t l, ∃ more, evictions_of key (exec t l) = evictions_of key t ++ more)
    as Hmono.
  { intros t l. revert t. induction l as [|x l IH]; intros t.
    - exists []. by rewrite app_nil_r.
    - simpl. destruct (IH (step t x)) as [m2 ->].
      destruct (evictions_step key t x) as [m1 ->].
      exists (m1 ++ m2). by rewrite (assoc_L (++)). }
  simpl. destruct (Hmono (step s ev) evs) as [m2 H2].
  destruct (evictions_step key s ev) as [m1 H1].
  rewrite H2, H1, <- (assoc_L (++)). intros Heq.
  assert (m1 ++ m2 = []) as [-> ->]%app_eq_nil.
  { apply (inj (app (evictions_of key s))). by rewrite app_nil_r. }
  by rewrite !app_nil_r.
Qed.

(** The event that creates an entry makes it the cached one. *)
Lemma created_is_cached s ev e en :
  entries s !! e = None → entries (step s ev) !! e = Some en →
  ttsCache (step s ev) !! en_key en = Some e.
Proof.
  intros Hn Hs. destruct ev; unfold_step; case_step.
  all: try congruence.
  all: try (apply lookup_snoc_inv in Hs as [Hs|[-> ->]]; [congruence|];
            simpl; by rewrite lookup_insert_eq).
  all: apply lookup_insert_inv in Hs as [(-> & -> & [? ?])|[_ Hs]]; congruence.
Qed.

(** Only [ttsCache.delete(key)] takes the entry of [key] out of the
    cache: a later call for [key] finds it there. *)
Lemma stays_cached s ev key e :
  ttsCache s !! key = Some e →
  evictions_of key (step s ev) = evictions_of key s →
  ttsCache (step s ev) !! key = Some e.
Proof.
  intros Hl He. unfold evictions_of in He.
  destruct ev; unfold_step; case_step; try done.
  all: rewrite ?omap_app in He; simpl in He.
  all: repeat case_decide; simplify_eq/=.
  all: rewrite ?app_nil_r in He.
  all: try (by apply (f_equal length) in He; rewrite ?length_app in He;
               simpl in He; lia).
  all: map_lookup; try done; try congruence.
Qed.

(** A call that comes to await a promise for [key] awaits the one the
    cache holds for [key]. *)
Lemma attaches_to_cached s ev key e c e' :
  ttsCache (step s ev) !! key = Some e →
  awaits key c e' (step s ev) → e' = e ∨ awaits key c e' s.
Proof.
  intros Hl (cl & retry & Hc & Hk & Hst). unfold awaits.
  destruct ev; unfold_step; case_step.
  all: try (right; by eexists _, _).
  all: try (apply lookup_snoc_inv in Hc as [Hc|[-> ->]]; simplify_eq/=;
            right; by eexists _, _).
  all: apply lookup_alter_inv in Hc as [(-> & x & Hx & ->)|[_ Hc]];
         [|right; by eexists _, _].
  all: simplify_eq/=.
  all: try (right; by eexists _, _).
  all: left; try done; revert Hl; map_lookup; congruence.
Qed.

Lemma live_run s evs key e :
  reachable s → ttsCache s !! key = Some e →
  evictions_of key (exec s evs) = evictions_of key s →
  ttsCache (exec s evs) !! key = Some e ∧
  invocations_for key (exec s evs) = invocations_for key s ∧
  ∀ c e', awaits key c e' (exec s evs) → e' = e ∨ awaits key c e' s.
Proof.
  revert s. induction evs as [|ev evs IH]; intros s Hr Hl Hno; [by auto|].
  apply no_eviction_cons in Hno as [H1 H2].
  pose proof (stays_cached _ ev _ _ Hl H1) as Hl1.
  destruct (IH (step s ev)) as (Hl2 & Hi2 & Ha2);
    [by apply reachable_step|done|done|].
  simpl. split_and!; [done| |].
  - rewrite Hi2. apply (step_live_no_invoke _ _ _ e); [|done..].
    by apply cache_wf_reachable.
  - intros c e' [->|Ha]%Ha2; [by left|]. by eapply attaches_to_cached.
Qed.

(** C1: entry [e] of [key], from the event [ev0] that creates it and for
    as long as no [ttsCache.delete(key)] is made.  Whatever [playTTS] and
    [prefetchTTS] calls and other events occur, the entry stays the cached
    one; [fetchAndDecodeTTS] is invoked exactly once under [key], by
    [ev0] and by no later call; every [getTTSBuffer] call for [key]
    returns the entry's promise and leaves the state as it is; and every
    [playTTS] call awaiting a promise for [key] awaits this one, unless
    it was already waiting before the entry was created.  Whatever
    happens afterwards, eviction included, the callers whose [await] of
    the entry resumed received the same value: the same buffer, or
    [null] for all of them when the computation failed. *)
Theorem C1_dedup (s0 : State) (ev0 : Event) (evs : list Event)
    (key : string) (e : nat) (en : Entry) :
  reachable s0 →
  entries s0 !! e = None → entries (step s0 ev0) !! e = Some en →
  en_key en = key →
  evictions_of key (exec s0 (ev0 :: evs)) = evictions_of key (step s0 ev0) →
  let s := exec s0 (ev0 :: evs) in
  ttsCache s !! key = Some e ∧
  length (invocations_for key s) = S (length (invocations_for key s0)) ∧
  (∀ text lang, cacheKey text lang = key →
                getTTSBuffer text lang s = (s, e)) ∧
  (∀ c e', awaits key c e' s → e' = e ∨ awaits key c e' s0) ∧
  (∀ evs' c1 c2 b1 b2,
     Observe c1 e b1 ∈ trace (exec s evs') →
     Observe c2 e b2 ∈ trace (exec s evs') →
     b1 = b2 ∧
     ∀ en', entries (exec s evs') !! e = Some en' → is_failed en' = true →
            b1 = None).
Proof.
  intros Hr Hn He <- Hno s.
  pose proof (created_is_cached _ _ _ _ Hn He) as Hl.
  assert (ttsCache s0 !! en_key en ≠ Some e) as Hnl.
  { intros (en0 & Hen0 & _)%(cache_wf_reachable _ Hr). congruence. }
  destruct (live_run (step s0 ev0) evs (en_key en) e) as (Hl' & Hi & Ha);
    [by apply reachable_step|done|done|].
  assert (reachable s) as Hrs by (by apply reachable_exec).
  split_and!.
  - done.
  - unfold s. simpl. rewrite Hi.
    destruct (step_create_one_invoke s0 ev0 (en_key en) e) as (t & l & _ & ->);
      [done..|]. by rewrite length_app, Nat.add_1_r.
  - intros text lang Hk. apply getTTSBuffer_hit. by rewrite Hk.
  - intros c e' [->|Ha']%Ha; [by left|]. by eapply attaches_to_cached.
  - intros evs' c1 c2 b1 b2 H1 H2.
    assert (reachable (exec s evs')) as Hr' by (by apply reachable_exec).
    split; [by eapply observers_agree|]. intros en' Hen' Hf.
    destruct (obs_ok_reachable _ Hr' _ _ _ H1) as (en1 & Hen1 & Ho1).
    assert (en1 = en') as -> by congruence.
    pose proof (entries_ok_reachable _ Hr' _ _ Hen') as Hok.
    unfold outer_ok in Hok. rewrite Ho1 in Hok. unfold is_failed in Hf.
    destruct (en_inner en'); try done. by destruct Hok as [?|[_ ->]].
Qed.

Lemma C1_dedup_witness :
  let s := exec (init true Running)
                (CallPrefetchTTS "hola" "Spanish" :: dedup_run) in
  ttsCache s !! "Spanish:hola" = Some 0 ∧
  length (invocations_for "Spanish:hola" s)
  = S (length (invocations_for "Spanish:hola" (init true Running))) ∧
  (∀ text lang, cacheKey text lang = "Spanish:hola" →
                getTTSBuffer text lang s = (s, 0)) ∧
  (∀ c e', awaits "Spanish:hola" c e' s →
           e' = 0 ∨ awaits "Spanish:hola" c e' (init true Running)) ∧
  (∀ evs' c1 c2 b1 b2,
     Observe c1 0 b1 ∈ trace (exec s evs') →
     Observe c2 0 b2 ∈ trace (exec s evs') →
     b1 = b2 ∧
     ∀ en', entries (exec s evs') !! 0 = Some en' → is_failed en' = true →
            b1 = None).
Proof.
  apply (C1_dedup (init true Running) (CallPrefetchTTS "hola" "Spanish")
                  dedup_run "Spanish:hola" 0
                  (mkEntry "Spanish:hola" (Some 0) Pending Pending)).
  - by exists true, Running, [].
  - reflexivity.
  - reflexivity.
  - reflexivity.
  - by vm_compute.
Defined.

(** ** A fresh entry, from its creation to its settled promise *)

Lemma lookup_snoc_length {A} (l : list A) x : (l ++ [x]) !! length l = Some x.
Proof. by apply list_lookup_middle. Qed.

Lemma alter_snoc_length {A} (f : A → A) (l : list A) x :
  alter f (length l) (l ++ [x]) = l ++ [f x].
Proof.
  rewrite <- (Nat.add_0_r (length l)). by rewrite alter_app_r.
Qed.

Lemma insert_snoc_length {A} (l : list A) x y :
  <[length l := y]> (l ++ [x]) = l ++ [y].
Proof.
  rewrite <- (Nat.add_0_r (length l)). by rewrite insert_app_r.
Qed.

Lemma getAudioContext_available s :
  audioAvailable s = true → getAudioContext s = inr (set_audioCtx true s).
Proof.
  destruct s as [k w a ? ? ? ? ? ? ? ? ?].
  unfold audioAvailable, getAudioContext. simpl. by destruct a, w.
Qed.

Lemma getAudioContext_unavailable s :
  audioAvailable s = false → getAudioContext s = inl TypeError.
Proof.
  unfold audioAvailable, getAudioContext.
  by destruct (audioCtx s), (audioContextClass s).
Qed.

Lemma getTTSBuffer_miss text lang s :
  ttsCache s !! cacheKey text lang = None →
  is_empty_string text = false → is_empty_string (trim text) = false →
  apiKey s = true → audioAvailable s = true →
  getTTSBuffer text lang s =
    (set_ttsCache (<[cacheKey text lang := length (entries s)]> (ttsCache s))
       (set_entries
          (entries s ++ [mkEntry (cacheKey text lang)
                           (Some (length (requests s))) Pending Pending])
          (set_requests (requests s ++ [Pending])
             (set_audioCtx true (log (Invoke text lang) s)))),
     length (entries s)).
Proof.
  intros Hc Ht Htt Hk Ha. unfold getTTSBuffer, fetchAndDecodeTTS, getAiClient.
  rewrite Hc. simpl. rewrite Ht, Htt, Hk. simpl.
  by rewrite (getAudioContext_available (log _ s)).
Qed.

Lemma fresh_entry_resolves text lang s o :
  ttsCache s !! cacheKey text lang = None →
  is_empty_string text = false → is_empty_string (trim text) = false →
  apiKey s = true → audioAvailable s = true →
  let s1 := (getTTSBuffer text lang s).1 in
  let e := (getTTSBuffer text lang s).2 in
  en_outer <$> entries (exec s1 (settles (length (requests s)) e o)) !! e
  = Some (Fulfilled (value_of o)).
Proof.
  intros Hc Ht Htt Hk Ha. rewrite getTTSBuffer_miss by done. simpl.
  unfold settle_pending, continue_pipeline, run_catch. simpl.
  rewrite alter_snoc_length. simpl.
  rewrite !lookup_snoc_length.
  destruct o as [err|response]; simpl.
  - rewrite insert_snoc_length, lookup_snoc_length. simpl.
    by rewrite insert_snoc_length, lookup_snoc_length.
  - rewrite insert_snoc_length, lookup_snoc_length.
    destruct (fetchAndDecodeTTS_rest response) as [err|v]; simpl;
      by rewrite insert_snoc_length, lookup_snoc_length.
Qed.

Lemma texts_ok_step s ev : texts_ok s → texts_ok (step s ev).
Proof.
  intros [Hc Hi]. destruct ev; unfold_step; unfold texts_ok in *; case_step.
  all: try (split; [exact Hc|exact Hi]).
  all: split; [intros c' cl' Hl Hst|intros t' l' Hin].
  all: try (by eapply Hc); try (by eapply Hi).
  all: try (apply lookup_snoc_inv in Hl as [Hl|[_ ->]]; [by eapply Hc|done]).
  all: try (apply lookup_alter_inv in Hl as [(-> & x & Hx & ->)|[_ Hl]];
            [|by eapply Hc]; simpl in *; simplify_eq; try done;
            (eapply Hc; [done|congruence])).
  all: rewrite ?elem_of_app, ?list_elem_of_singleton in Hin.
  all: destruct_or?; simplify_eq; try (by eapply Hi); try done.
  all: eapply Hc; [done|congruence].
Qed.

Lemma texts_ok_reachable s : reachable s → texts_ok s.
Proof.
  apply reachable_ind; [|intros ????; by apply texts_ok_step].
  intros ??. split; [by intros c cl|]. intros t l Hin. by apply elem_of_nil in Hin.
Qed.

(** C9, as stated, fails: [playTTS(" ", "Spanish")] passes the guard
    [!text] and invokes the pipeline with a text that is empty after
    trimming. *)
Lemma C9_counterexample :
  ¬ (∀ s t l, reachable s → Invoke t l ∈ trace s →
              is_empty_string (trim t) = false).
Proof.
  intros H. specialize (H blank_run " " "Spanish").
  assert (is_empty_string (trim " ") = false) as Hf; [|done].
  apply H; [by eexists _, _, _|]. vm_compute. apply list_elem_of_here.
Qed.

(** C9, amended: the public entry points guard the empty string only.
    Every text the pipeline is invoked with is non-empty; a text that is
    non-empty and blank after trimming does reach the pipeline, whose
    no-op branch then answers [null] without a request. *)
Theorem C9_callers_guard_empty_text :
  (∀ s t l, reachable s → Invoke t l ∈ trace s → is_empty_string t = false) ∧
  (∀ s text lang,
     is_empty_string text = false → is_empty_string (trim text) = true →
     fetchAndDecodeTTS text lang s
       = (log (Invoke text lang) s, Fulfilled None, None)).
Proof.
  split.
  - intros s t l Hr. by apply texts_ok_reachable.
  - intros s text lang Ht Htt. unfold fetchAndDecodeTTS. by rewrite Ht, Htt.
Qed.

Lemma C9_callers_guard_empty_text_witness :
  fetchAndDecodeTTS " " "Spanish" (init true Running)
  = (log (Invoke " " "Spanish") (init true Running), Fulfilled None, None).
Proof.
  apply (proj2 C9_callers_guard_empty_text); reflexivity.
Defined.

Lemma deletes_by_snoc o tr it :
  deletes_by o (tr ++ [it]) = deletes_by o tr ++ deleted_by o it.
Proof. unfold deletes_by. rewrite bind_app. simpl. by rewrite app_nil_r. Qed.

Lemma handler_ok_step s ev : entries_ok s → handler_ok s → handler_ok (step s ev).
Proof.
  intros Hok Hh. unfold handler_ok, handler_deletes in *.
  destruct ev; unfold_step; case_step.
  all: try exact Hh.
  all: intros e'; specialize (Hh e').
  all: rewrite ?deletes_by_snoc; simpl; rewrite ?app_nil_r.
  all: try done.
  all: rewrite Hh; clear Hh.
  all: try (rewrite lookup_snoc_case;
            by destruct (entries s !! e') eqn:He'; repeat case_decide).
  all: rewrite list_lookup_insert.
  all: try match goal with H : entries _ !! _ = Some _ |- _ =>
         pose proof (Hok _ _ H) as Hen; unfold outer_ok in Hen; simpl in Hen
       end.
  all: repeat case_decide; destruct_and?; simplify_eq/=;
       rewrite ?app_nil_r; try done.
  all: try match goal with H : entries _ !! _ = Some _ |- _ => rewrite H end.
  all: unfold is_failed, is_handled; simpl.
  all: try done.
  all: try (destruct outer; simpl in *; rewrite ?andb_false_r; naive_solver).
  apply lookup_lt_Some in Heqo. naive_solver.
Qed.

Lemma handler_ok_reachable s : reachable s → handler_ok s.
Proof.
  intros Hr. pose proof Hr as Hr'. revert s Hr Hr'.
  apply (reachable_ind (λ s, reachable s → handler_ok s)); [by intros ?? _ e|].
  intros s ev Hr IH _. apply handler_ok_step; auto using entries_ok_reachable.
Qed.

Lemma retry_ok_step s ev : retry_ok s → retry_ok (step s ev).
Proof.
  intros Hr. unfold retry_ok, retry_deletes, retried, observations in *.
  destruct ev; unfold_step; case_step.
  all: try exact Hr.
  all: intros c'; specialize (Hr c').
  all: rewrite ?omap_app, ?deletes_by_snoc; simpl; rewrite ?app_nil_r.
  all: try done.
  all: try (rewrite lookup_snoc_case; destruct (calls s !! c') eqn:Hc'; [done|];
            destruct Hr as [-> ->]; by case_decide).
  all: rewrite list_lookup_alter.
  all: repeat case_decide; destruct_and?; simplify_eq/=;
       rewrite ?app_nil_r; try done.
  all: match goal with H : calls _ !! _ = Some _ |- _ => rewrite H in * end.
  all: match goal with H : c_stage _ = _ |- _ => rewrite H in * end.
  all: simpl in *.
  all: destruct Hr as [Hd Ho]; try (destruct retry);
       rewrite ?Hd, ?Ho; simpl; try done.
  all: destruct (omap _ (trace s)) as [|[?|] ?]; simpl; done.
Qed.

Lemma retry_ok_reachable s : reachable s → retry_ok s.
Proof.
  apply reachable_ind; [by intros ?? c|]. intros ????. by apply retry_ok_step.
Qed.

Lemma elem_of_deletes_by o k tr : k ∈ deletes_by o tr ↔ Delete k o ∈ tr.
Proof.
  unfold deletes_by. rewrite list_elem_of_bind. split.
  - intros (it & Hk & Hin). destruct it; simpl in Hk;
      try (by apply elem_of_nil in Hk).
    case_decide; [|by apply elem_of_nil in Hk].
    apply list_elem_of_singleton in Hk. by subst.
  - intros Hin. exists (Delete k o). split; [|done]. simpl.
    rewrite decide_True by done. by apply list_elem_of_singleton.
Qed.

Lemma deletes_accounted s k o :
  handler_ok s → retry_ok s → Delete k o ∈ trace s → accounted s k o.
Proof.
  intros Hh Hr Hin%elem_of_deletes_by. destruct o as [e|c]; simpl.
  - specialize (Hh e). unfold handler_deletes in Hh. rewrite Hh in Hin.
    destruct (entries s !! e) as [en|]; [|by apply elem_of_nil in Hin].
    destruct (is_failed en) eqn:Hf, (is_handled en) eqn:Hd; simpl in Hin;
      try (by apply elem_of_nil in Hin).
    apply list_elem_of_singleton in Hin. by exists en.
  - specialize (Hr c). unfold retry_deletes in Hr.
    destruct (calls s !! c) as [cl|].
    + destruct Hr as [Hd _]. rewrite Hd in Hin.
      destruct (retried c s); [|by apply elem_of_nil in Hin].
      apply list_elem_of_singleton in Hin. by exists cl.
    + destruct Hr as [_ Hd]. rewrite Hd in Hin. by apply elem_of_nil in Hin.
Qed.

(** ** One [playTTS] call on its own: the phases it goes through *)

Section single_call.
Context (text lang : string) (b2 : option AudioBuffer).
Context (Htext : is_empty_string text = false).
Context (Htrim : is_empty_string (trim text) = false).

Ltac rew_hyps :=
  repeat match goal with
         | H : calls _ = _ |- _ => rewrite H
         | H : entries _ = _ |- _ => rewrite H
         | H : requests _ = _ |- _ => rewrite H
         | H : apiKey _ = _ |- _ => rewrite H
         | H : audioCtx _ = _ |- _ => rewrite H
         | H : omap _ (trace _) = _ |- _ => rewrite H
         | H : ttsCache _ !! _ = _ |- _ => rewrite H
         | H : is_empty_string _ = _ |- _ => rewrite H
         | H : fetchAndDecodeTTS_rest _ = _ |- _ => rewrite H
         end.

Ltac phase_simpl :=
  repeat (progress (simpl;
                    rewrite ?omap_app, ?lookup_delete_eq; rew_hyps)).

Ltac phase_cases :=
  repeat (phase_simpl;
          match goal with
          | |- context [(_ :: _) !! ?i] => is_var i; destruct i
          | |- context [alter _ ?i (_ :: _)] => is_var i; destruct i
          | |- context [<[?i := _]> (_ :: _)] => is_var i; destruct i
          | |- context [is_pending ?p] => is_var p; destruct p
          | |- context [match ?x with _ => _ end] => destruct_innermost x
          end);
  phase_simpl.

Ltac phase_unfold :=
  unfold phase_resume, phase_first, phase_retry, phase_playing, phase_done,
    invocations, played, played_of, failing_request, second_request,
    failing_inner, second_inner, outer_is, second_answer, pipeline_fails,
    pipeline_outcome in *.

Ltac phase_close :=
  repeat match goal with
         | |- _ ∧ _ => split
         | |- ∃ _, _ => eexists
         end;
  try reflexivity; simpl; try done; eauto 3.

Ltac phase_pick :=
  first [solve [phase_close] | left; phase_pick | right; phase_pick].

Ltac phase_events ev Hev :=
  destruct ev as [| | |[|[|?]] []|? ?|?|?|?|?|?|?]; simpl in Hev; try done;
  unfold_step; phase_unfold.

Ltac phase_hyps :=
  repeat match goal with
         | H : match ?x with _ => _ end |- _ => destruct x; simpl in H; try done
         | H : ∃ _, _ |- _ => destruct H
         | H : _ ∧ _ |- _ => destruct H
         end; simplify_eq/=.

Lemma phase_resume_step s ev :
  alone b2 ev → phase_resume text lang s →
  phase_resume text lang (step s ev) ∨ phase_first text lang (step s ev).
Proof using Htext Htrim.
  intros Hev (Hk & Ha & [r Hc] & He & Hr & Hm & Hi & Hp).
  phase_events ev Hev; phase_cases; phase_pick.
Qed.

Lemma phase_first_step s ev :
  alone b2 ev → phase_first text lang s →
  phase_first text lang (step s ev) ∨ phase_retry text lang b2 (step s ev).
Proof using Htext Htrim.
  intros Hev (Hk & Ha & Hc
              & (inner & outer & p0 & He & Hr & Hp0 & Hin & Hout) & Hi & Hp).
  phase_events ev Hev; phase_cases; phase_hyps; phase_simpl; phase_pick.
Qed.

Lemma phase_retry_step s ev :
  alone b2 ev → phase_retry text lang b2 s →
  phase_retry text lang b2 (step s ev) ∨ phase_playing text lang b2 (step s ev) ∨
  phase_done text lang b2 (step s ev).
Proof using Htext Htrim.
  intros Hev (Hc & (en0 & inner & outer & p0 & p1 & He & Hr & Hp1 & Hin & Hout)
              & Hi & Hp).
  phase_events ev Hev; phase_cases; phase_hyps; phase_simpl; phase_pick.
Qed.

Lemma phase_playing_step s ev :
  alone b2 ev → phase_playing text lang b2 s →
  phase_playing text lang b2 (step s ev) ∨ phase_done text lang b2 (step s ev).
Proof using Htext Htrim.
  intros Hev ([src Hc] & Hi & Hp & Hb).
  phase_events ev Hev; phase_cases; phase_hyps; phase_simpl; phase_pick.
Qed.

Lemma phase_done_step s ev :
  alone b2 ev → phase_done text lang b2 s → phase_done text lang b2 (step s ev).
Proof using Htext Htrim.
  intros Hev (Hc & Hi & Hp).
  phase_events ev Hev; phase_cases; phase_hyps; phase_simpl; phase_close.
Qed.

Lemma single_call_step s ev :
  alone b2 ev → single_call_inv text lang b2 s →
  single_call_inv text lang b2 (step s ev).
Proof using Htext Htrim.
  unfold single_call_inv. intros Hev [H|[H|[H|[H|H]]]].
  - destruct (phase_resume_step s ev Hev H); auto.
  - destruct (phase_first_step s ev Hev H); auto.
  - destruct (phase_retry_step s ev Hev H) as [|[|]]; auto 6.
  - destruct (phase_playing_step s ev Hev H); auto 6.
  - pose proof (phase_done_step s ev Hev H); auto 6.
Qed.

Lemma single_call_exec s evs :
  Forall (alone b2) evs → single_call_inv text lang b2 s →
  single_call_inv text lang b2 (exec s evs).
Proof using Htext Htrim.
  revert s. induction evs as [|ev evs IH]; intros s Hall Hinv; [done|].
  apply Forall_cons in Hall as [Hev Hall]. simpl.
  apply IH; [done|]. by apply single_call_step.
Qed.

Lemma single_call_start dev :
  single_call_inv text lang b2 (step (init true dev) (CallPlayTTS text lang)).
Proof using Htext Htrim.
  destruct dev; left; unfold_step; phase_unfold; simpl; rewrite Htext;
    simpl; rewrite ?lookup_empty; phase_close.
Qed.

End single_call.

(** ** One [playTTS] call on its own: a run that completes it *)

Lemma trim_nonempty text :
  is_empty_string (trim text) = false → is_empty_string text = false.
Proof. by destruct text. Qed.

Lemma schedule_alone b2 o1 o2 :
  pipeline_fails o1 → second_answer b2 o2 → Forall (alone b2) (schedule o1 o2).
Proof. intros H1 H2. unfold schedule. repeat constructor; done. Qed.

Lemma exec_cons s ev evs : exec s (ev :: evs) = exec (step s ev) evs.
Proof. done. Qed.

(** One event of a run, evaluated: the state is brought back to an
    explicit record before the next event is looked at. *)
Ltac fwd Htext Htrim Hm H1 H2 :=
  rewrite exec_cons;
  lazymatch goal with
  | |- context [step ?s ?ev] =>
      let X := fresh "X" in
      let HX := fresh "HX" in
      remember (step s ev) as X eqn:HX;
      unfold step, playTTS, prefetchTTS, continue_play, continue_pipeline,
        run_catch, playTTS_fetch, getTTSBuffer, fetchAndDecodeTTS,
        callResumeAudioContext, continue_resume, resumeAudioContext,
        playBuffer, on_fetch_failed, getAiClient, getAudioContext,
        settle_pending in HX;
      repeat (progress (
        simpl in HX;
        rewrite ?Htext, ?Htrim, ?Hm, ?lookup_delete_eq, ?H1, ?H2 in HX));
      cbv beta iota delta
        [set_audioCtx set_ctxState set_ttsCache set_entries set_requests
         set_resumes set_sources set_calls set_resumeCalls log evict finish
         set_stage apiKey audioContextClass audioCtx ctxState ttsCache
         entries requests resumes sources calls resumeCalls trace app] in HX;
      simpl in HX;
      subst X
  end.

Lemma schedule_completes text lang dev b2 o1 o2 :
  is_empty_string (trim text) = false →
  pipeline_fails o1 → second_answer b2 o2 →
  calls (exec (init true dev) (CallPlayTTS text lang :: schedule o1 o2))
  = [mkCall text lang Returned (Fulfilled ())].
Proof.
  intros Htrim [err1 H1] H2. unfold second_answer, pipeline_fails in H2.
  pose proof (trim_nonempty _ Htrim) as Htext.
  unfold init, boot.
  assert (Hm : (∅ : gmap string nat) !! cacheKey text lang = None)
    by apply lookup_empty.
  revert Hm. generalize (∅ : gmap string nat) as m. intros m Hm.
  unfold schedule.
  destruct b2 as [b|]; simpl in H2; [|destruct H2 as [err2 H2]].
  all: destruct dev, o1 as [e1|r1], o2 as [e2|r2];
    unfold pipeline_outcome in H1, H2; simplify_eq.
  all: repeat (fwd Htext Htrim Hm H1 H2).
  all: done.
Qed.

(** C2: a single [playTTS] call for a text that is not blank, with no
    other [playTTS] or [prefetchTTS] call, the first [generateContent]
    call failing and the second one ending with [b2] (a buffer, or a
    second failure).
    Under every order of events the pipeline is invoked at most twice and
    at most one playback starts; the promise given to the caller is never
    rejected; and when the call has returned, the pipeline was invoked
    exactly twice and what was played is exactly [b2]: one playback if
    the retry succeeded, none if it failed too.  The call does return:
    [schedule] is a run of the event loop that completes it. *)
Theorem C2_single_retry (text lang : string) (dev : AudioState)
    (b2 : option AudioBuffer) (evs : list Event) :
  is_empty_string (trim text) = false →
  Forall (alone b2) evs →
  let s := exec (init true dev) (CallPlayTTS text lang :: evs) in
  length (invocations s) ≤ 2 ∧ length (played s) ≤ 1 ∧
  (∃ st pr, calls s = [mkCall text lang st pr] ∧ (∀ err, pr ≠ Rejected err) ∧
     (st = Returned →
      pr = Fulfilled () ∧ invocations s = [(text, lang); (text, lang)] ∧
      played s = played_of b2)) ∧
  (∀ o1 o2, pipeline_fails o1 → second_answer b2 o2 →
     Forall (alone b2) (schedule o1 o2) ∧
     calls (exec (init true dev) (CallPlayTTS text lang :: schedule o1 o2))
     = [mkCall text lang Returned (Fulfilled ())]).
Proof.
  intros Htrim Hall s. pose proof (trim_nonempty _ Htrim) as Htext.
  assert (single_call_inv text lang b2 s) as Hinv.
  { unfold s. rewrite exec_cons.
    apply (single_call_exec text lang b2 Htext Htrim); [done|].
    by apply single_call_start. }
  split_and!.
  - destruct Hinv as [H|[H|[H|[H|H]]]];
      [destruct H as (_ & _ & _ & _ & _ & _ & -> & _)
      |destruct H as (_ & _ & _ & _ & -> & _)
      |destruct H as (_ & _ & -> & _)
      |destruct H as (_ & -> & _)
      |destruct H as (_ & -> & _)]; simpl; lia.
  - destruct Hinv as [H|[H|[H|[H|H]]]];
      [destruct H as (_ & _ & _ & _ & _ & _ & _ & ->)
      |destruct H as (_ & _ & _ & _ & _ & ->)
      |destruct H as (_ & _ & _ & ->)
      |destruct H as (_ & _ & -> & _)
      |destruct H as (_ & _ & ->)]; unfold played_of; try destruct b2; simpl; lia.
  - destruct Hinv as [H|[H|[H|[H|H]]]].
    + destruct H as (_ & _ & [r ->] & _). eexists _, _. by split_and!.
    + destruct H as (_ & _ & -> & _). eexists _, _. by split_and!.
    + destruct H as (-> & _). eexists _, _. by split_and!.
    + destruct H as ([src ->] & _). eexists _, _. by split_and!.
    + destruct H as (-> & -> & ->). eexists _, _. by split_and!.
  - intros o1 o2 H1 H2. split; [by apply schedule_alone|].
    by apply (schedule_completes text lang dev b2).
Qed.

Lemma C2_single_retry_witness :
  let s := exec (init true Running)
             (CallPlayTTS "hola" "Spanish"
                :: schedule (inl (ServiceError "503"))
                            (inr (ok_response "AID/fw=="))) in
  length (invocations s) ≤ 2 ∧ length (played s) ≤ 1 ∧
  (∃ st pr, calls s = [mkCall "hola" "Spanish" st pr] ∧
     (∀ err, pr ≠ Rejected err) ∧
     (st = Returned →
      pr = Fulfilled () ∧
      invocations s = [("hola", "Spanish"); ("hola", "Spanish")] ∧
      played s = played_of (Some two_samples))) ∧
  (∀ o1 o2, pipeline_fails o1 → second_answer (Some two_samples) o2 →
     Forall (alone (Some two_samples)) (schedule o1 o2) ∧
     calls (exec (init true Running)
                 (CallPlayTTS "hola" "Spanish" :: schedule o1 o2))
     = [mkCall "hola" "Spanish" Returned (Fulfilled ())]).
Proof.
  apply (C2_single_retry "hola" "Spanish" Running (Some two_samples)
           (schedule (inl (ServiceError "503"))
                     (inr (ok_response "AID/fw==")))).
  - reflexivity.
  - apply schedule_alone; [by eexists|by vm_compute].
Defined.

(** ** The decoder, as the pipeline uses it *)

Section pipeline_decoder.
Local Open Scope Z_scope.

(** C5: the samples of a decoded buffer are the byte pairs of the payload,
    least significant byte first, read as signed 16-bit integers and
    divided by 32768 (a division binary32 performs exactly); the bytes
    00 80 FF 7F, which base64 writes "AID/fw==", decode to -1 and
    32767/32768. *)
Theorem C5_decode_samples :
  (∀ (bytes : list Byte.byte) (buffer : AudioBuffer),
     decodePCM bytes = Some buffer →
     samples buffer =
       (λ i, pcm_to_float
               (int16_of_bytes (default Byte.x00 (bytes !! (2 * i)%nat))
                               (default Byte.x00 (bytes !! (2 * i + 1)%nat))))
         <$> seq 0 (length bytes / 2)) ∧
  (∀ lo hi : Byte.byte,
     -32768 <= int16_of_bytes lo hi <= 32767 ∧
     int16_of_bytes lo hi mod 65536 = byteZ lo + 256 * byteZ hi ∧
     pcm_to_float (int16_of_bytes lo hi)
       = (inject_Z (int16_of_bytes lo hi) / 32768)%Q ∧
     is_binary32 (pcm_to_float (int16_of_bytes lo hi))) ∧
  decodeBase64 "AID/fw==" = Some [Byte.x00; Byte.x80; Byte.xff; Byte.x7f] ∧
  (∃ buffer a b,
     decodePCM [Byte.x00; Byte.x80; Byte.xff; Byte.x7f] = Some buffer ∧
     samples buffer = [a; b] ∧ (a == -1)%Q ∧ (b == 32767 # 32768)%Q).
Proof.
  split_and!.
  - intros bytes buffer [_ ->]%decodePCM_Some. apply samples_pcm_buffer.
  - intros lo hi. split_and!.
    + apply int16_of_bytes_range.
    + apply int16_of_bytes_range.
    + apply int16_of_bytes_mod.
    + done.
    + apply sample_is_binary32.
  - by vm_compute.
  - eexists _, _, _. split; [by vm_compute|]. split; [by vm_compute|].
    split; reflexivity.
Qed.

Lemma C5_decode_samples_witness :
  samples two_samples =
    (λ i, pcm_to_float
            (int16_of_bytes
               (default Byte.x00
                  ([Byte.x00; Byte.x80; Byte.xff; Byte.x7f] !! (2 * i)%nat))
               (default Byte.x00
                  ([Byte.x00; Byte.x80; Byte.xff; Byte.x7f] !! (2 * i + 1)%nat))))
      <$> seq 0 (length [Byte.x00; Byte.x80; Byte.xff; Byte.x7f] / 2).
Proof.
  apply (proj1 C5_decode_samples [Byte.x00; Byte.x80; Byte.xff; Byte.x7f]).
  by vm_compute.
Defined.

(** C6, as stated, fails: a payload of one byte has an odd byte count and
    does not decode.  Its last byte is dropped, and [createBuffer] is
    asked for a buffer of no sample, which it refuses. *)
Lemma C6_counterexample :
  ¬ (∀ bytes : list Byte.byte,
       ∃ buffer, decodePCM bytes = Some buffer ∧
                 length (samples buffer) = (length bytes / 2)%nat).
Proof.
  intros H. destruct (H [Byte.x2a]) as (buffer & Hd & _).
  vm_compute in Hd. discriminate.
Qed.

(** C6, amended: a payload of two bytes or more decodes whatever its
    parity; the buffer has half as many samples as the payload has bytes,
    rounded down, and is the buffer of the payload's longest prefix of
    even length, so an odd last byte changes nothing.  A payload of fewer
    than two bytes fails: the pipeline throws [NotSupportedError]. *)
Theorem C6_odd_length_tolerated :
  (∀ bytes : list Byte.byte,
     (2 ≤ length bytes)%nat →
     ∃ buffer,
       decodePCM bytes = Some buffer ∧
       length (samples buffer) = (length bytes / 2)%nat ∧
       decodePCM (even_prefix bytes) = Some buffer ∧
       (∀ x, decodePCM (even_prefix bytes ++ [x]) = Some buffer) ∧
       (∀ base64Audio,
          is_empty_string base64Audio = false →
          decodeBase64 base64Audio = Some bytes →
          fetchAndDecodeTTS_rest (ok_response base64Audio)
            = inr (Some buffer))) ∧
  (∀ bytes : list Byte.byte,
     (length bytes < 2)%nat →
     decodePCM bytes = None ∧
     (∀ base64Audio,
        is_empty_string base64Audio = false →
        decodeBase64 base64Audio = Some bytes →
        fetchAndDecodeTTS_rest (ok_response base64Audio)
          = inl NotSupportedError)).
Proof.
  split.
  - intros bytes Hlen. exists (pcm_buffer bytes).
    assert (Hp : (2 ≤ length (even_prefix bytes))%nat).
    { rewrite length_even_prefix.
      pose proof (Nat.div_mod_eq (length bytes) 2).
      pose proof (Nat.mod_upper_bound (length bytes) 2). lia. }
    split_and!.
    + by apply decodePCM_Some.
    + by rewrite samples_pcm_buffer, length_fmap, length_seq.
    + apply decodePCM_Some. by rewrite pcm_buffer_even_prefix.
    + intros x. apply decodePCM_Some. rewrite pcm_buffer_snoc.
      split; [|done]. rewrite length_app. simpl. lia.
    + intros b64 Hne Hdec. unfold fetchAndDecodeTTS_rest. simpl.
      rewrite Hne, Hdec.
      by rewrite (proj2 (decodePCM_Some bytes (pcm_buffer bytes))).
  - intros bytes Hlen. apply decodePCM_None in Hlen. split; [done|].
    intros b64 Hne Hdec. unfold fetchAndDecodeTTS_rest. simpl.
    by rewrite Hne, Hdec, Hlen.
Qed.

Lemma C6_odd_length_tolerated_witness :
  ∃ buffer,
    decodePCM [Byte.x00; Byte.x80; Byte.xff] = Some buffer ∧
    length (samples buffer) = (length [Byte.x00; Byte.x80; Byte.xff] / 2)%nat ∧
    decodePCM (even_prefix [Byte.x00; Byte.x80; Byte.xff]) = Some buffer ∧
    (∀ x, decodePCM (even_prefix [Byte.x00; Byte.x80; Byte.xff] ++ [x])
          = Some buffer) ∧
    (∀ base64Audio,
       is_empty_string base64Audio = false →
       decodeBase64 base64Audio = Some [Byte.x00; Byte.x80; Byte.xff] →
       fetchAndDecodeTTS_rest (ok_response base64Audio) = inr (Some buffer)).
Proof.
  apply (proj1 C6_odd_length_tolerated [Byte.x00; Byte.x80; Byte.xff]).
  simpl. lia.
Defined.

Lemma buffers_ok_step s ev : buffers_ok s → buffers_ok (step s ev).
Proof.
  intros [He Hs]. destruct ev; unfold_step; unfold buffers_ok in *; case_step.
  all: try (split; [exact He|exact Hs]).
  all: split; [intros e' en' Hl|intros b' Hin].
  all: try (by eapply He); try (by eapply Hs).
  all: try (apply lookup_snoc_inv in Hl as [Hl|[_ ->]]; [by eapply He|];
            by split; intros ? [=]).
  all: try (apply lookup_insert_inv in Hl as [(-> & -> & _)|[_ Hl]];
            [|by eapply He];
            match goal with H : entries _ !! _ = Some _ |- _ =>
              apply He in H as [Hi Ho]; simpl in * end;
            split; try done; try (by intros ? [=]);
            intros b' Hb'; simpl in Hb';
            destruct (fetchAndDecodeTTS_rest _) eqn:Hrest; simplify_eq/=;
            by eapply pipeline_buffer_decoded).
  all: rewrite ?elem_of_app, ?list_elem_of_singleton in Hin.
  all: destruct_or?; simplify_eq; try (by eapply Hs).
  all: destruct (entries s !! e) as [en|] eqn:Hen; simplify_eq/=.
  all: apply He in Hen as [_ Ho]; by apply Ho.
Qed.

Lemma buffers_ok_reachable s : reachable s → buffers_ok s.
Proof.
  apply reachable_ind; [|intros ????; by apply buffers_ok_step].
  intros ??. split; [by intros e en|]. intros b Hin. by apply elem_of_nil in Hin.
Qed.

Lemma decoded_well_formed bytes b :
  decodePCM bytes = Some b → well_formed_buffer b.
Proof. intros [_ ->]%decodePCM_Some. apply pcm_buffer_well_formed. Qed.

(** C7: every buffer the decoder returns has one channel, a sample rate of
    24000 Hz and samples between -1 and 1; so has every buffer the
    pipeline resolves to, every buffer a caller receives from the cache
    and every buffer that is played. *)
Theorem C7_buffer_format :
  (∀ bytes b, decodePCM bytes = Some b → well_formed_buffer b) ∧
  (∀ response b,
     fetchAndDecodeTTS_rest response = inr (Some b) → well_formed_buffer b) ∧
  (∀ s b, reachable s → b ∈ played s → well_formed_buffer b) ∧
  (∀ s c e b, reachable s → Observe c e (Some b) ∈ trace s → well_formed_buffer b).
Proof.
  split_and!.
  - apply decoded_well_formed.
  - intros response b [bytes Hb]%pipeline_buffer_decoded.
    by eapply decoded_well_formed.
  - intros s b Hr Hin. apply buffers_ok_reachable in Hr as [_ Hs].
    unfold played in Hin. apply list_elem_of_omap in Hin as (it & Hit & Hb).
    destruct it; simplify_eq. destruct (Hs _ Hit) as [bytes Hd].
    by eapply decoded_well_formed.
  - intros s c e b Hr Hin. pose proof (obs_ok_reachable _ Hr _ _ _ Hin)
      as (en & Hen & Ho).
    apply buffers_ok_reachable in Hr as [He _].
    destruct (He _ _ Hen) as [_ Hd]. destruct (Hd _ Ho) as [bytes Hb].
    by eapply decoded_well_formed.
Qed.

Lemma C7_buffer_format_witness : well_formed_buffer two_samples.
Proof.
  apply (proj1 (proj2 C7_buffer_format) (ok_response "AID/fw==")).
  by vm_compute.
Defined.

End pipeline_decoder.

(** ** The public entry points *)

(** C8: with the empty text, [prefetchTTS] changes nothing at all, and
    [playTTS] only hands its caller a promise that is already fulfilled:
    no request is issued, the cache, the audio context and the device are
    left as they were, and nothing is invoked, deleted, played or logged. *)
Theorem C8_empty_text_noop (s : State) (lang : string) :
  step s (CallPrefetchTTS "" lang) = s ∧
  step s (CallPlayTTS "" lang)
    = set_calls (calls s ++ [mkCall "" lang Returned (Fulfilled ())]) s ∧
  requests (step s (CallPlayTTS "" lang)) = requests s ∧
  ttsCache (step s (CallPlayTTS "" lang)) = ttsCache s ∧
  entries (step s (CallPlayTTS "" lang)) = entries s ∧
  audioCtx (step s (CallPlayTTS "" lang)) = audioCtx s ∧
  ctxState (step s (CallPlayTTS "" lang)) = ctxState s ∧
  resumes (step s (CallPlayTTS "" lang)) = resumes s ∧
  sources (step s (CallPlayTTS "" lang)) = sources s ∧
  trace (step s (CallPlayTTS "" lang)) = trace s.
Proof. by split_and!. Qed.

(** ** Eviction *)

(** C3, as stated, fails: in [retry_run] one computation has failed, and
    its key has been deleted twice, by the handler of the failed promise
    and again by the retry branch of the [playTTS] call that received
    [null]. *)
Lemma C3_counterexample :
  ¬ (∀ s key, reachable s →
              length (evictions_of key s) = length (failures_of key s)).
Proof.
  intros H. specialize (H retry_run "Spanish:hola").
  assert (reachable retry_run) as Hr by (by eexists _, _, _).
  specialize (H Hr). vm_compute in H. discriminate.
Qed.

Lemma getTTSBuffer_miss_invokes text lang s :
  ttsCache s !! cacheKey text lang = None →
  invocations (getTTSBuffer text lang s).1 = invocations s ++ [(text, lang)].
Proof.
  intros Hm. unfold getTTSBuffer. rewrite Hm.
  unfold fetchAndDecodeTTS, getAudioContext, invocations.
  case_step. all: by rewrite omap_app.
Qed.

Lemma getTTSBuffer_returns text lang s :
  ttsCache s !! cacheKey text lang = Some (getTTSBuffer text lang s).2 ∨
  (ttsCache s !! cacheKey text lang = None ∧
   (getTTSBuffer text lang s).2 = length (entries s)).
Proof.
  unfold getTTSBuffer.
  destruct (ttsCache s !! cacheKey text lang) as [e|] eqn:Hl; [by left|].
  right. split; [done|]. unfold fetchAndDecodeTTS, getAudioContext.
  case_step. all: done.
Qed.

(** *** Counting the deletes *)

Lemma filter_ext_elem {A} (P Q : A → Prop) `{∀ x, Decision (P x)}
    `{∀ x, Decision (Q x)} (l : list A) :
  (∀ x, x ∈ l → (P x ↔ Q x)) → filter P l = filter Q l.
Proof.
  induction l as [|x l IH]; intros Hpq; [done|].
  rewrite !filter_cons.
  rewrite IH by (intros y Hy; apply Hpq; by apply list_elem_of_further).
  pose proof (Hpq x (list_elem_of_here _ _)) as Hx.
  destruct (decide (P x)), (decide (Q x)); naive_solver.
Qed.

Lemma filter_by_index {A} (P : A → bool) (l : list A) :
  length (filter (λ x, P x = true) l)
  = length (filter (λ i, holds_at P l i = true) (seq 0 (length l))).
Proof.
  induction l as [|x l IH] using rev_ind; [done|].
  rewrite filter_app, !length_app, seq_app, filter_app, length_app. simpl.
  rewrite IH. f_equal.
  - f_equal. apply filter_ext_elem. intros i Hi%elem_of_seq. unfold holds_at.
    by rewrite lookup_app_l by lia.
  - rewrite !filter_cons, !filter_nil. unfold holds_at.
    rewrite lookup_snoc_length. destruct (P x); by repeat case_decide.
Qed.

Lemma elem_of_evictions key s o :
  o ∈ evictions_of key s ↔ Delete key o ∈ trace s.
Proof.
  unfold evictions_of. rewrite list_elem_of_omap. split.
  - intros (it & Hin & Hit). destruct it; try done.
    case_decide; simplify_eq. done.
  - intros Hin. exists (Delete key o). split; [done|]. simpl.
    by rewrite decide_True.
Qed.

Lemma evictions_NoDup key tr :
  (∀ o, length (deletes_by o tr) ≤ 1) →
  NoDup (omap (λ it, match it with
                     | Delete k by_ => if decide (k = key) then Some by_ else None
                     | _ => None
                     end) tr).
Proof.
  induction tr as [|it tr IH]; intros Hone; [by apply NoDup_nil|].
  assert (∀ o, length (deletes_by o tr) ≤ 1) as Hone'.
  { intros o. specialize (Hone o). unfold deletes_by in *.
    rewrite bind_cons, length_app in Hone. lia. }
  destruct it as [| k by_ | | | |]; simpl; try (by apply IH).
  case_decide as Hk; [|by apply IH]. subst k.
  apply NoDup_cons. split; [|by apply IH].
  intros (it & Hin & Hit)%list_elem_of_omap.
  destruct it as [| k' by' | | | |]; try done.
  case_decide; simplify_eq.
  apply elem_of_deletes_by in Hin.
  specialize (Hone by_). unfold deletes_by in Hone, Hin.
  rewrite bind_cons, length_app in Hone. simpl in Hone.
  rewrite decide_True in Hone by done. simpl in Hone.
  destruct (tr ≫= deleted_by by_) eqn:Hd; [by apply elem_of_nil in Hin|].
  simpl in Hone. lia.
Qed.

Lemma accounted_deleted s key o :
  handler_ok s → retry_ok s → accounted s key o → Delete key o ∈ trace s.
Proof.
  intros Hh Hr Ha. apply elem_of_deletes_by. destruct o as [e|c]; simpl in Ha.
  - destruct Ha as (en & He & <- & Hf & Hd). specialize (Hh e).
    unfold handler_deletes in Hh. rewrite Hh, He, Hf, Hd. simpl.
    by apply list_elem_of_singleton.
  - destruct Ha as (cl & Hc & <- & Hrt). specialize (Hr c).
    unfold retry_deletes in Hr. rewrite Hc in Hr. destruct Hr as [-> _].
    rewrite Hrt. by apply list_elem_of_singleton.
Qed.

(** The deletes of a key are as many as its failed computations and the
    [playTTS] calls for it that retried. *)
Lemma evictions_count s key :
  handler_ok s → retry_ok s →
  length (evictions_of key s)
  = length (failures_of key s) + length (retries_of key s).
Proof.
  intros Hh Hr.
  set (P := λ en : Entry,
         bool_decide (en_key en = key) && is_failed en && is_handled en).
  assert (failures_of key s = filter (λ en, P en = true) (entries s)) as ->.
  { unfold failures_of. apply list_filter_iff. intros en. unfold P.
    rewrite !andb_true_iff, bool_decide_eq_true. naive_solver. }
  rewrite filter_by_index.
  set (HF := filter (λ e, holds_at P (entries s) e = true)
                    (seq 0 (length (entries s)))).
  rewrite <- (length_fmap ByHandler HF),
          <- (length_fmap ByRetry (retries_of key s)), <- length_app.
  apply Permutation_length, NoDup_Permutation.
  - apply evictions_NoDup. intros [e|c].
    + specialize (Hh e). unfold handler_deletes in Hh. rewrite Hh.
      destruct (entries s !! e) as [en|]; [|simpl; lia].
      destruct (is_failed en && is_handled en); simpl; lia.
    + specialize (Hr c). unfold retry_deletes in Hr.
      destruct (calls s !! c) as [cl|].
      * destruct Hr as [-> _]. destruct (retried c s); simpl; lia.
      * destruct Hr as [_ ->]. simpl. lia.
  - apply NoDup_app. split_and!.
    + apply NoDup_fmap_2; [by intros ?? [=]|]. apply NoDup_filter, NoDup_seq.
    + intros o (e & -> & _)%list_elem_of_fmap (c & [=] & _)%list_elem_of_fmap.
    + apply NoDup_fmap_2; [by intros ?? [=]|]. apply NoDup_filter, NoDup_seq.
  - intros o. rewrite elem_of_evictions. split.
    + intros Ha%(deletes_accounted _ _ _ Hh Hr). rewrite elem_of_app.
      destruct o as [e|c]; simpl in Ha.
      * left. apply list_elem_of_fmap_2. destruct Ha as (en & He & Hk & Hf & Hd).
        apply list_elem_of_filter. split.
        -- unfold holds_at, P. rewrite He, Hf, Hd.
           by rewrite bool_decide_eq_true_2.
        -- apply elem_of_seq. apply lookup_lt_Some in He. lia.
      * right. apply list_elem_of_fmap_2. destruct Ha as (cl & Hc & Hk & Hrt).
        apply list_elem_of_filter. split.
        -- unfold has_retried. rewrite Hc, Hrt.
           by rewrite bool_decide_eq_true_2.
        -- apply elem_of_seq. apply lookup_lt_Some in Hc. lia.
    + rewrite elem_of_app. intros [Hin|Hin]; apply accounted_deleted; try done.
      * apply list_elem_of_fmap in Hin as (e & -> & [Hp _]%list_elem_of_filter).
        simpl. unfold holds_at, P in Hp.
        destruct (entries s !! e) as [en|]; [|done]. exists en.
        rewrite !andb_true_iff, bool_decide_eq_true in Hp. naive_solver.
      * apply list_elem_of_fmap in Hin as (c & -> & [Hp _]%list_elem_of_filter).
        simpl. unfold has_retried in Hp.
        destruct (calls s !! c) as [cl|]; [|done]. exists cl.
        rewrite !andb_true_iff, bool_decide_eq_true in Hp. naive_solver.
Qed.

(** C3, amended: who calls [ttsCache.delete], and how often.  The handler
    of an entry deletes the entry's key exactly once if the computation
    failed and the handler ran, and never otherwise; a caller that saw a
    failed entry settle saw [null], after that deletion.  A [playTTS] call
    deletes its key exactly once more if its first [await] returned
    [null], whatever the reason, and never otherwise: a [null] from the
    retry's [await] is followed by no delete.  There are no other
    deletes: the deletes of a key are as many as its failed computations
    and the [playTTS] calls for it that received [null] first, together.
    A failed and handled entry is not the cached one and is
    never returned by [getTTSBuffer] again; and once the handler of a
    failed entry has run, the key is absent, so the next [getTTSBuffer]
    call for it invokes the pipeline afresh. *)
Theorem C3_eviction_after_failure (s : State) (e : nat) (en : Entry) :
  reachable s → entries s !! e = Some en →
  handler_deletes e s = (if is_failed en && is_handled en then [en_key en] else []) ∧
  (∀ c v, Observe c e v ∈ trace s → is_failed en = true →
          v = None ∧ handler_deletes e s = [en_key en]) ∧
  (∀ c cl, calls s !! c = Some cl →
           retry_deletes c s
           = if retried c s then [cacheKey (c_text cl) (c_lang cl)] else []) ∧
  (∀ key by_, Delete key by_ ∈ trace s → accounted s key by_) ∧
  (∀ key, length (evictions_of key s)
          = length (failures_of key s) + length (retries_of key s)) ∧
  (is_failed en = true → is_handled en = true →
   ttsCache s !! en_key en ≠ Some e ∧
   ∀ text lang, (getTTSBuffer text lang s).2 ≠ e) ∧
  (is_failed en = true → en_outer en = Pending →
   ttsCache (step s (RunCatch e)) !! en_key en = None ∧
   ∀ text lang, cacheKey text lang = en_key en →
     invocations (getTTSBuffer text lang (step s (RunCatch e))).1
     = invocations (step s (RunCatch e)) ++ [(text, lang)]).
Proof.
  intros Hr He.
  pose proof (handler_ok_reachable _ Hr e) as Hh. rewrite He in Hh.
  pose proof (entries_ok_reachable _ Hr _ _ He) as Hok.
  assert (Hnl : is_failed en = true → is_handled en = true →
                ttsCache s !! en_key en ≠ Some e).
  { intros Hf Hd. apply (handled_not_live_reachable _ Hr _ _ He).
    - unfold is_failed in Hf. unfold failed.
      destruct (en_inner en); try done. by eexists.
    - unfold is_handled in Hd. by destruct (en_outer en). }
  split_and!.
  - done.
  - intros c v Hin Hf.
    destruct (obs_ok_reachable _ Hr _ _ _ Hin) as (en' & He' & Ho).
    simplify_eq. unfold outer_ok in Hok. rewrite Ho in Hok.
    unfold is_failed in Hf. rewrite Hh. unfold is_failed, is_handled.
    rewrite Ho. destruct (en_inner en); try done; simpl.
    destruct Hok as [?|[_ ->]]; done.
  - intros c cl Hc. pose proof (retry_ok_reachable _ Hr c) as Hrt.
    rewrite Hc in Hrt. by destruct Hrt.
  - intros key by_. apply deletes_accounted.
    + by apply handler_ok_reachable.
    + by apply retry_ok_reachable.
  - intros key. apply evictions_count.
    + by apply handler_ok_reachable.
    + by apply retry_ok_reachable.
  - intros Hf Hd. split; [by apply Hnl|]. intros text lang Heq.
    destruct (getTTSBuffer_returns text lang s) as [Hl|[_ Hl]].
    + rewrite Heq in Hl.
      destruct (cache_wf_reachable _ Hr _ _ Hl) as (en' & He' & Hk).
      simplify_eq. rewrite <- Hk in Hl. by apply Hnl in Hl.
    + rewrite Heq in Hl. apply lookup_lt_Some in He. lia.
  - intros Hf Hp.
    assert (ttsCache (step s (RunCatch e)) !! en_key en = None) as Hnone.
    { simpl. unfold run_catch. rewrite He. destruct en as [k rq inn out].
      simpl in *. subst out. unfold is_failed in Hf. simpl in Hf.
      destruct inn; try done. simpl. apply lookup_delete_eq. }
    split; [done|]. intros text lang Hk. apply getTTSBuffer_miss_invokes.
    by rewrite Hk.
Qed.

Lemma C3_eviction_after_failure_witness :
  let en := mkEntry "Spanish:hola" (Some 0) (Rejected (ServiceError "503"))
                    (Fulfilled None) in
  handler_deletes 0 retry_run
    = (if is_failed en && is_handled en then [en_key en] else []) ∧
  (∀ c v, Observe c 0 v ∈ trace retry_run → is_failed en = true →
          v = None ∧ handler_deletes 0 retry_run = [en_key en]) ∧
  (∀ c cl, calls retry_run !! c = Some cl →
           retry_deletes c retry_run
           = if retried c retry_run
             then [cacheKey (c_text cl) (c_lang cl)] else []) ∧
  (∀ key by_, Delete key by_ ∈ trace retry_run → accounted retry_run key by_) ∧
  (∀ key, length (evictions_of key retry_run)
          = length (failures_of key retry_run)
            + length (retries_of key retry_run)) ∧
  (is_failed en = true → is_handled en = true →
   ttsCache retry_run !! en_key en ≠ Some 0 ∧
   ∀ text lang, (getTTSBuffer text lang retry_run).2 ≠ 0) ∧
  (is_failed en = true → en_outer en = Pending →
   ttsCache (step retry_run (RunCatch 0)) !! en_key en = None ∧
   ∀ text lang, cacheKey text lang = en_key en →
     invocations (getTTSBuffer text lang (step retry_run (RunCatch 0))).1
     = invocations (step retry_run (RunCatch 0)) ++ [(text, lang)]).
Proof.
  apply (C3_eviction_after_failure retry_run 0
           (mkEntry "Spanish:hola" (Some 0) (Rejected (ServiceError "503"))
                    (Fulfilled None))).
  - by eexists _, _, _.
  - by vm_compute.
Defined.

(** ** The promise of [getTTSBuffer] *)

Lemma blank_entry_resolves text lang s :
  ttsCache s !! cacheKey text lang = None →
  is_empty_string (trim text) = true →
  entries (exec (getTTSBuffer text lang s).1
                [RunCatch (getTTSBuffer text lang s).2])
    !! (getTTSBuffer text lang s).2
  = Some (mkEntry (cacheKey text lang) None (Fulfilled None) (Fulfilled None)).
Proof.
  intros Hc Htt. unfold getTTSBuffer, fetchAndDecodeTTS. rewrite Hc, Htt.
  rewrite orb_true_r. simpl. unfold run_catch. simpl.
  rewrite !lookup_snoc_length. simpl.
  by rewrite insert_snoc_length, lookup_snoc_length.
Qed.

Lemma nokey_entry_resolves text lang s :
  ttsCache s !! cacheKey text lang = None →
  is_empty_string (trim text) = false → apiKey s = false →
  entries (exec (getTTSBuffer text lang s).1
                [RunCatch (getTTSBuffer text lang s).2])
    !! (getTTSBuffer text lang s).2
  = Some (mkEntry (cacheKey text lang) None (Rejected ApiKeyNotFound)
                  (Fulfilled None)).
Proof.
  intros Hc Htt Hk. pose proof (trim_nonempty _ Htt) as Ht.
  unfold getTTSBuffer, fetchAndDecodeTTS, getAiClient. rewrite Hc. simpl.
  rewrite Ht, Htt, Hk. simpl. unfold run_catch. simpl.
  rewrite !lookup_snoc_length. simpl.
  by rewrite insert_snoc_length, lookup_snoc_length.
Qed.

Lemma noaudio_entry_resolves text lang s :
  ttsCache s !! cacheKey text lang = None →
  is_empty_string (trim text) = false → apiKey s = true →
  audioAvailable s = false →
  entries (exec (getTTSBuffer text lang s).1
                [RunCatch (getTTSBuffer text lang s).2])
    !! (getTTSBuffer text lang s).2
  = Some (mkEntry (cacheKey text lang) None (Rejected TypeError)
                  (Fulfilled None)).
Proof.
  intros Hc Htt Hk Ha. pose proof (trim_nonempty _ Htt) as Ht.
  unfold getTTSBuffer, fetchAndDecodeTTS, getAiClient. rewrite Hc. simpl.
  rewrite Ht, Htt, Hk. simpl.
  rewrite (getAudioContext_unavailable (log _ s)) by done.
  simpl. unfold run_catch. simpl.
  rewrite !lookup_snoc_length. simpl.
  by rewrite insert_snoc_length, lookup_snoc_length.
Qed.

(** C10: the promise [getTTSBuffer] returns is never rejected.  In every
    reachable state a cached promise is pending or fulfilled; a failed
    computation leaves it pending or fulfilled with [null], and [null] is
    what a caller awaiting it receives.  A fresh entry does settle: when
    the service answers [o], the promise is fulfilled with [value_of o],
    which is [null] for a transport error, a response without audio and
    a payload that is not base64; without an API key it is fulfilled with
    [null] as well, and so it is when no audio context can be had; and
    for a blank text it is fulfilled with the same [null], though nothing
    failed. *)
Theorem C10_getTTSBuffer_never_rejects :
  (∀ s e en, reachable s → entries s !! e = Some en →
     (∀ err, en_outer en ≠ Rejected err) ∧
     (is_failed en = true → en_outer en = Pending ∨ en_outer en = Fulfilled None) ∧
     (∀ c v, Observe c e v ∈ trace s →
             en_outer en = Fulfilled v ∧ (is_failed en = true → v = None))) ∧
  (∀ s text lang o,
     ttsCache s !! cacheKey text lang = None →
     is_empty_string (trim text) = false → apiKey s = true →
     audioAvailable s = true →
     en_outer <$>
       entries (exec (getTTSBuffer text lang s).1
                     (settles (length (requests s))
                              (getTTSBuffer text lang s).2 o))
         !! (getTTSBuffer text lang s).2
     = Some (Fulfilled (value_of o))) ∧
  (∀ err, value_of (inl err) = None) ∧
  (∀ response, response_audio response = None → value_of (inr response) = None) ∧
  (∀ response b64, response_audio response = Some b64 →
                   decodeBase64 b64 = None → value_of (inr response) = None) ∧
  (∀ s text lang,
     ttsCache s !! cacheKey text lang = None →
     is_empty_string (trim text) = false → apiKey s = false →
     entries (exec (getTTSBuffer text lang s).1
                   [RunCatch (getTTSBuffer text lang s).2])
       !! (getTTSBuffer text lang s).2
     = Some (mkEntry (cacheKey text lang) None (Rejected ApiKeyNotFound)
                     (Fulfilled None))) ∧
  (∀ s text lang,
     ttsCache s !! cacheKey text lang = None →
     is_empty_string (trim text) = false → apiKey s = true →
     audioAvailable s = false →
     entries (exec (getTTSBuffer text lang s).1
                   [RunCatch (getTTSBuffer text lang s).2])
       !! (getTTSBuffer text lang s).2
     = Some (mkEntry (cacheKey text lang) None (Rejected TypeError)
                     (Fulfilled None))) ∧
  (∀ s text lang,
     ttsCache s !! cacheKey text lang = None →
     is_empty_string (trim text) = true →
     entries (exec (getTTSBuffer text lang s).1
                   [RunCatch (getTTSBuffer text lang s).2])
       !! (getTTSBuffer text lang s).2
     = Some (mkEntry (cacheKey text lang) None (Fulfilled None) (Fulfilled None))).
Proof.
  split_and!.
  - intros s e en Hr He.
    pose proof (entries_ok_reachable _ Hr _ _ He) as Hok. unfold outer_ok in Hok.
    split_and!.
    + intros err Ho. by rewrite Ho in Hok.
    + intros Hf. unfold is_failed in Hf.
      destruct (en_outer en) as [|v|]; [by left| |done]. right.
      destruct (en_inner en); try done. destruct Hok as [?|[_ ->]]; done.
    + intros c v Hin.
      destruct (obs_ok_reachable _ Hr _ _ _ Hin) as (en' & He' & Ho).
      simplify_eq. split; [done|]. intros Hf. unfold is_failed in Hf.
      rewrite Ho in Hok. destruct (en_inner en); try done.
      destruct Hok as [?|[_ ->]]; done.
  - intros s text lang o Hc Htt Hk Ha.
    by apply fresh_entry_resolves; [|apply trim_nonempty| | |].
  - done.
  - intros response Hr. unfold value_of, fetchAndDecodeTTS_rest. by rewrite Hr.
  - intros response b64 Hr Hd. unfold value_of, fetchAndDecodeTTS_rest.
    rewrite Hr, Hd. by destruct (is_empty_string b64).
  - intros s text lang. apply nokey_entry_resolves.
  - intros s text lang. apply noaudio_entry_resolves.
  - intros s text lang. apply blank_entry_resolves.
Qed.

Lemma C10_getTTSBuffer_never_rejects_witness :
  en_outer <$>
    entries (exec (getTTSBuffer "hola" "Spanish" (init true Running)).1
                  (settles (length (requests (init true Running)))
                           (getTTSBuffer "hola" "Spanish"
                                         (init true Running)).2
                           (inl (ServiceError "503"))))
      !! (getTTSBuffer "hola" "Spanish" (init true Running)).2
  = Some (Fulfilled (value_of (inl (ServiceError "503")))).
Proof.
  apply (proj1 (proj2 C10_getTTSBuffer_never_rejects)
           (init true Running) "hola" "Spanish" (inl (ServiceError "503")));
    reflexivity.
Defined.

(** ** What callers see of failures *)

Lemma prefetch_path_step s ev :
  prefetch_path ev = true → caller_view (step s ev) = caller_view s.
Proof.
  intros Hev. unfold caller_view, played.
  destruct ev; try done; unfold_step; case_step.
  all: rewrite ?omap_app; simpl; rewrite ?app_nil_r; try done.
Qed.

Lemma prefetch_path_exec s evs :
  forallb prefetch_path evs = true → caller_view (exec s evs) = caller_view s.
Proof.
  revert s. induction evs as [|ev evs IH]; intros s Hall; [done|].
  simpl in Hall. apply andb_prop in Hall as [Hev Hall].
  rewrite exec_cons, IH by done. by apply prefetch_path_step.
Qed.

Lemma alter_ge {A} (f : A → A) (l : list A) i :
  length l ≤ i → alter f i l = l.
Proof.
  revert i. induction l as [|x l IH]; intros [|i] Hi; simpl in *; try done;
    try lia. f_equal. apply IH. lia.
Qed.

Lemma failing_prefetch_cache text lang s o :
  is_empty_string (trim text) = false →
  apiKey s = false ∨ audioAvailable s = false ∨ pipeline_fails o →
  ttsCache (exec s (CallPrefetchTTS text lang
                      :: settles (length (requests s)) (length (entries s)) o))
  = ttsCache s.
Proof.
  intros Htt Hf. pose proof (trim_nonempty _ Htt) as Ht.
  rewrite exec_cons. simpl step. unfold prefetchTTS. rewrite Ht.
  destruct (ttsCache s !! cacheKey text lang) as [e|] eqn:Hc.
  - rewrite (getTTSBuffer_hit _ _ _ e) by done. simpl.
    unfold settle_pending, continue_pipeline, run_catch. simpl.
    rewrite alter_ge by lia. simpl.
    rewrite (lookup_ge_None_2 (entries s)) by lia. simpl.
    by rewrite (lookup_ge_None_2 (entries s)) by lia.
  - destruct (apiKey s) eqn:Hk, (audioAvailable s) eqn:Ha.
    + destruct Hf as [?|[?|[err Hf]]]; [done..|].
      rewrite getTTSBuffer_miss by done. simpl.
      unfold settle_pending, continue_pipeline, run_catch. simpl.
      rewrite alter_snoc_length. simpl.
      rewrite !lookup_snoc_length.
      destruct o as [err'|response]; simpl in Hf; simplify_eq; simpl.
      * rewrite insert_snoc_length, lookup_snoc_length. simpl.
        by apply delete_insert_id.
      * rewrite insert_snoc_length, lookup_snoc_length. rewrite Hf. simpl.
        by apply delete_insert_id.
    + unfold getTTSBuffer, fetchAndDecodeTTS, getAiClient. rewrite Hc. simpl.
      rewrite Ht, Htt, Hk. simpl.
      rewrite (getAudioContext_unavailable (log _ s)) by done. simpl.
      unfold settle_pending, continue_pipeline, run_catch.
      simpl. rewrite alter_ge by lia. simpl.
      repeat (rewrite lookup_snoc_length; simpl). by apply delete_insert_id.
    + unfold getTTSBuffer, fetchAndDecodeTTS, getAiClient. rewrite Hc. simpl.
      rewrite Ht, Htt, Hk. simpl. unfold settle_pending, continue_pipeline, run_catch.
      simpl. rewrite alter_ge by lia. simpl.
      repeat (rewrite lookup_snoc_length; simpl). by apply delete_insert_id.
    + unfold getTTSBuffer, fetchAndDecodeTTS, getAiClient. rewrite Hc. simpl.
      rewrite Ht, Htt, Hk. simpl. unfold settle_pending, continue_pipeline, run_catch.
      simpl. rewrite alter_ge by lia. simpl.
      repeat (rewrite lookup_snoc_length; simpl). by apply delete_insert_id.
Qed.

Lemma playTTS_without_audio text lang s :
  audioAvailable s = false → is_empty_string text = false →
  calls (exec s [CallPlayTTS text lang; ContinuePlay (length (calls s))])
  = calls s ++ [mkCall text lang Returned (Rejected TypeError)].
Proof.
  intros Ha Ht. simpl. unfold playTTS, resumeAudioContext. rewrite Ht.
  rewrite getAudioContext_unavailable by done. simpl.
  unfold continue_play. simpl. rewrite lookup_snoc_length. simpl.
  unfold finish. simpl. by rewrite alter_snoc_length.
Qed.

(** C4, as stated, fails: in a browser that has neither [AudioContext]
    nor [webkitAudioContext], [getAudioContext] throws; [playTTS] calls it
    through [resumeAudioContext], where it stands before the [try], and
    the promise [playTTS] gave its caller is rejected. *)
Lemma C4_counterexample :
  ¬ (∀ s c cl err, launched s → calls s !! c = Some cl →
                   c_promise cl ≠ Rejected err).
Proof.
  intros H.
  apply (H without_web_audio 0
           (mkCall "hola" "Spanish" Returned (Rejected TypeError)) TypeError).
  - by eexists _, _, _, _.
  - reflexivity.
  - reflexivity.
Qed.

(** C4, amended: in a browser that has the Web Audio API the promise
    [playTTS] gives its caller is never rejected, in any reachable state.
    In any browser the only rejection is the [TypeError] of
    [getAudioContext], when no audio context exists and none can be
    constructed; and then every [playTTS] call with a non-empty text is
    rejected with it.  [prefetchTTS] returns nothing and the events of
    its pipeline change nothing a caller of the module can see (the
    [playTTS] calls and their promises, the sources started, what was
    played), in any browser; and a prefetch that fails, for want of an
    API key or of an audio context or because the pipeline fails, also
    leaves the cache as it found it. *)
Theorem C4_rejects_only_without_audio :
  (∀ s c cl err, reachable s → calls s !! c = Some cl →
                 c_promise cl ≠ Rejected err) ∧
  (∀ s c cl err, launched s → calls s !! c = Some cl →
                 c_promise cl = Rejected err →
                 err = TypeError ∧ audioAvailable s = false) ∧
  (∀ s text lang,
     audioAvailable s = false → is_empty_string text = false →
     calls (exec s [CallPlayTTS text lang; ContinuePlay (length (calls s))])
     = calls s ++ [mkCall text lang Returned (Rejected TypeError)]) ∧
  (∀ s evs, forallb prefetch_path evs = true →
            caller_view (exec s evs) = caller_view s) ∧
  (∀ s text lang o,
     is_empty_string (trim text) = false →
     apiKey s = false ∨ audioAvailable s = false ∨ pipeline_fails o →
     let run := CallPrefetchTTS text lang
                  :: settles (length (requests s)) (length (entries s)) o in
     caller_view (exec s run) = caller_view s ∧
     ttsCache (exec s run) = ttsCache s).
Proof.
  split_and!.
  - intros s c cl err Hr Hc. by apply (calls_ok_reachable _ _ _ _ Hr Hc).
  - intros s c cl err Hl Hc Hp.
    destruct (calls_ok_launched _ Hl _ _ err Hc) as (-> & Hw & Ha);
      [by left|]. split; [done|]. unfold audioAvailable. by rewrite Hw, Ha.
  - intros s text lang. apply playTTS_without_audio.
  - apply prefetch_path_exec.
  - intros s text lang o Htt Hf run. split.
    + by apply prefetch_path_exec.
    + by apply failing_prefetch_cache.
Qed.

Lemma C4_rejects_only_without_audio_witness :
  calls (exec (boot false true Running)
              [CallPlayTTS "hola" "Spanish";
               ContinuePlay (length (calls (boot false true Running)))])
  = calls (boot false true Running)
      ++ [mkCall "hola" "Spanish" Returned (Rejected TypeError)].
Proof.
  apply (proj1 (proj2 (proj2 C4_rejects_only_without_audio))
           (boot false true Running) "hola" "Spanish"); reflexivity.
Defined.

(** * Further properties of the speech module *)

(** ** The decoder *)

(** X1: [decodeBase64] fails exactly when [atob] throws, and otherwise
    returns as many bytes as the binary string has characters, byte [i]
    being the code of character [i]: the loop leaves no index of the
    array unwritten. *)
Theorem decodeBase64_copies_atob (base64 : string) :
  match Base64.atob base64, decodeBase64 base64 with
  | Some binaryString, Some bytes =>
      length bytes = String.length binaryString ∧
      ∀ i, bytes !! i
           = byte_of_ascii <$> list_ascii_of_string binaryString !! i
  | None, None => True
  | _, _ => False
  end.
Proof.
  rewrite decodeBase64_bytes.
  destruct (Base64.atob base64) as [bin|]; simpl; [|done]. split.
  - rewrite length_fmap. clear. induction bin; simpl; by f_equal.
  - intros i. by rewrite list_lookup_fmap.
Qed.

(** X2: what [fetchAndDecodeTTS] makes of a response.  It throws "No audio
    data" exactly when the first part of the first candidate carries no
    data or empty data, [InvalidCharacterError] exactly when the data is
    not base64, [NotSupportedError] exactly when it decodes to fewer than
    two bytes, and otherwise resolves to the buffer of the bytes; it
    never resolves to [null] and throws nothing else. *)
Theorem pipeline_outcome_cases (response : Response) :
  match fetchAndDecodeTTS_rest response with
  | inl NoAudioData => js_truthy (response_audio response) = false
  | inl InvalidCharacterError =>
      ∃ base64Audio,
        response_audio response = Some base64Audio ∧
        is_empty_string base64Audio = false ∧
        decodeBase64 base64Audio = None
  | inl NotSupportedError =>
      ∃ base64Audio bytes,
        response_audio response = Some base64Audio ∧
        is_empty_string base64Audio = false ∧
        decodeBase64 base64Audio = Some bytes ∧ length bytes < 2
  | inr (Some buffer) =>
      ∃ base64Audio bytes,
        response_audio response = Some base64Audio ∧
        is_empty_string base64Audio = false ∧
        decodeBase64 base64Audio = Some bytes ∧ 2 ≤ length bytes ∧
        buffer = pcm_buffer bytes
  | inl _ | inr None => False
  end.
Proof.
  unfold fetchAndDecodeTTS_rest.
  destruct (response_audio response) as [b64|] eqn:Ha; [|done].
  destruct (is_empty_string b64) eqn:He; [by simpl; rewrite He|].
  destruct (decodeBase64 b64) as [bytes|] eqn:Hd; [|by exists b64].
  destruct (decodePCM bytes) as [buffer|] eqn:Hp.
  - apply decodePCM_Some in Hp as [Hlen ->]. by exists b64, bytes.
  - apply decodePCM_None in Hp. by exists b64, bytes.
Qed.

(** ** The guard on blank text *)

Lemma drop_leading_nil l :
  drop_leading l = [] ↔ Forall (λ c, is_js_whitespace c = true) l.
Proof.
  induction l as [|c l IH]; simpl; [by split|].
  destruct (is_js_whitespace c) eqn:Hc.
  - rewrite IH. split; [by constructor|]. by intros [_ ?]%Forall_cons.
  - split; [done|]. intros [Hc' _]%Forall_cons. congruence.
Qed.

Lemma drop_leading_head c l :
  is_js_whitespace c = false → drop_leading (c :: l) = c :: l.
Proof. intros Hc. simpl. by rewrite Hc. Qed.

Lemma drop_leading_cases l :
  drop_leading l = [] ∨
  ∃ c r, drop_leading l = c :: r ∧ is_js_whitespace c = false.
Proof.
  induction l as [|c l IH]; simpl; [by left|].
  destruct (is_js_whitespace c) eqn:Hc; [done|]. right. by exists c, l.
Qed.

Lemma drop_leading_idemp l : drop_leading (drop_leading l) = drop_leading l.
Proof.
  destruct (drop_leading_cases l) as [->|(c & r & -> & Hc)]; [done|].
  by apply drop_leading_head.
Qed.

Lemma drop_leading_snoc l c :
  is_js_whitespace c = false → drop_leading (l ++ [c]) = drop_leading l ++ [c].
Proof.
  intros Hc. induction l as [|x l IH]; simpl; [by rewrite Hc|].
  by destruct (is_js_whitespace x).
Qed.

Lemma is_empty_string_of_list l :
  is_empty_string (string_of_list_ascii l) = true ↔ l = [].
Proof. by destruct l. Qed.

Lemma trim_blank text :
  is_empty_string (trim text) = true ↔ all_whitespace text.
Proof.
  unfold trim, all_whitespace. rewrite is_empty_string_of_list.
  set (l := list_ascii_of_string text). rewrite <- drop_leading_nil.
  split.
  - intros H. apply (f_equal reverse) in H.
    rewrite reverse_involutive, reverse_nil in H.
    apply drop_leading_nil in H. apply Forall_reverse in H.
    rewrite reverse_involutive in H.
    destruct (drop_leading_cases l) as [?|(c & r & Heq & Hc)]; [done|].
    rewrite Heq in H. apply Forall_cons in H as [Hc' _]. congruence.
  - intros ->. done.
Qed.

(** The list [trim] leaves, when the text does not start with white
    space. *)
Lemma trim_list_cons c l :
  is_js_whitespace c = false →
  reverse (drop_leading (reverse (c :: l)))
  = c :: reverse (drop_leading (reverse l)).
Proof.
  intros Hc. rewrite reverse_cons, drop_leading_snoc by done.
  by rewrite reverse_app.
Qed.

Lemma trim_idemp text : trim (trim text) = trim text.
Proof.
  unfold trim. rewrite list_ascii_of_string_of_list_ascii. f_equal.
  destruct (drop_leading_cases (list_ascii_of_string text))
    as [->|(c & r & -> & Hc)]; [done|].
  rewrite trim_list_cons by done.
  rewrite drop_leading_head by done. rewrite trim_list_cons by done.
  f_equal. rewrite reverse_involutive, drop_leading_idemp. done.
Qed.

(** X3: the guard of [fetchAndDecodeTTS].  The function resolves to [null]
    at once, with no request and without touching the audio context,
    exactly for the texts made of white space only; for every other text
    its promise is pending on a request or, without an API key or when no
    audio context can be had, rejected. *)
Theorem blank_guard_iff (text lang : string) (s : State) :
  (all_whitespace text →
   fetchAndDecodeTTS text lang s
   = (log (Invoke text lang) s, Fulfilled None, None)) ∧
  (¬ all_whitespace text →
   fetchAndDecodeTTS text lang s
   = if apiKey s
     then if audioAvailable s
          then (set_requests (requests s ++ [Pending])
                  (set_audioCtx true (log (Invoke text lang) s)),
                Pending, Some (length (requests s)))
          else (log (Invoke text lang) s, Rejected TypeError, None)
     else (log (Invoke text lang) s, Rejected ApiKeyNotFound, None)).
Proof.
  unfold fetchAndDecodeTTS, getAiClient. split.
  - intros Hb%trim_blank. rewrite Hb. by rewrite orb_true_r.
  - intros Hb. destruct (is_empty_string (trim text)) eqn:Ht.
    { by apply trim_blank in Ht. }
    rewrite (trim_nonempty _ Ht). simpl.
    destruct (apiKey s) eqn:Hk; [|done].
    destruct (audioAvailable s) eqn:Ha.
    + by rewrite (getAudioContext_available (log _ s)).
    + by rewrite (getAudioContext_unavailable (log _ s)).
Qed.

Lemma blank_guard_iff_witness :
  fetchAndDecodeTTS " " "Spanish" (init true Running)
  = (log (Invoke " " "Spanish") (init true Running), Fulfilled None, None).
Proof.
  apply (proj1 (blank_guard_iff " " "Spanish" (init true Running))).
  unfold all_whitespace. simpl. by repeat constructor.
Defined.

(** ** The cache key *)

Lemma string_app_list (a b : string) :
  list_ascii_of_string (a +:+ b)
  = list_ascii_of_string a ++ list_ascii_of_string b.
Proof. induction a; simpl; by f_equal. Qed.

Lemma string_of_list_inj (a b : string) :
  list_ascii_of_string a = list_ascii_of_string b → a = b.
Proof.
  intros H. apply (f_equal string_of_list_ascii) in H.
  by rewrite !string_of_list_ascii_of_string in H.
Qed.

Lemma colon_split (l1 l2 t1 t2 : list ascii) :
  ":"%char ∉ l1 → ":"%char ∉ l2 →
  l1 ++ ":"%char :: t1 = l2 ++ ":"%char :: t2 → l1 = l2 ∧ t1 = t2.
Proof.
  revert l2. induction l1 as [|c l1 IH]; intros [|d l2] H1 H2 Heq;
    simplify_eq/=.
  - done.
  - exfalso. apply H2. by left.
  - exfalso. apply H1. by left.
  - destruct (IH l2) as [-> ->]; [| |done|done].
    + intros ?. apply H1. by right.
    + intros ?. apply H2. by right.
Qed.

Lemma language_name_colon_free l : colon_free (App.language_name l).
Proof.
  unfold colon_free. destruct l; simpl; intros H;
    repeat (apply elem_of_cons in H as [H|H]; [discriminate|]);
    by apply elem_of_nil in H.
Qed.

(** X4: the cache key [lang + ":" + text] tells apart any two requests
    whose language tags hold no colon, and so any two requests of the
    application, which passes the names of [SupportedLanguage]. *)
Theorem cacheKey_inj :
  (∀ text1 lang1 text2 lang2,
     colon_free lang1 → colon_free lang2 →
     cacheKey text1 lang1 = cacheKey text2 lang2 →
     text1 = text2 ∧ lang1 = lang2) ∧
  (∀ text1 l1 text2 l2,
     cacheKey text1 (App.language_name l1)
     = cacheKey text2 (App.language_name l2) →
     text1 = text2 ∧ l1 = l2).
Proof.
  assert (∀ text1 lang1 text2 lang2,
     colon_free lang1 → colon_free lang2 →
     cacheKey text1 lang1 = cacheKey text2 lang2 →
     text1 = text2 ∧ lang1 = lang2) as Hinj.
  { intros t1 l1 t2 l2 H1 H2 Heq. unfold cacheKey in Heq.
    apply (f_equal list_ascii_of_string) in Heq.
    rewrite !string_app_list in Heq. simpl in Heq.
    apply colon_split in Heq as [Hl Ht]; [|done..].
    split; by apply string_of_list_inj. }
  split; [exact Hinj|].
  intros t1 l1 t2 l2 Heq.
  apply Hinj in Heq as [-> Hl]; [|apply language_name_colon_free..].
  split; [done|]. by destruct l1, l2.
Qed.

Lemma cacheKey_inj_witness :
  "hola" = "hola" ∧ "Spanish" = "Spanish".
Proof.
  apply (proj1 cacheKey_inj "hola" "Spanish" "hola" "Spanish").
  - unfold colon_free. simpl. intros H.
    repeat (apply elem_of_cons in H as [H|H]; [discriminate|]).
    by apply elem_of_nil in H.
  - unfold colon_free. simpl. intros H.
    repeat (apply elem_of_cons in H as [H|H]; [discriminate|]).
    by apply elem_of_nil in H.
  - reflexivity.
Defined.

Lemma string_app_assoc (a b c : string) : (a +:+ b) +:+ c = a +:+ (b +:+ c).
Proof.
  apply string_of_list_inj. rewrite !string_app_list. by rewrite app_assoc.
Qed.

(** X5: with a colon in the language tag the key is ambiguous.  The text
    [a:text] in the language [lang] and the text [text] in the language
    [lang:a] have one key; whichever is asked for second is served the
    entry of the first, and the pipeline is not invoked for it. *)
Theorem cacheKey_collision (a text lang : string) (s : State) :
  let first := getTTSBuffer (a +:+ ":" +:+ text) lang s in
  cacheKey text (lang +:+ ":" +:+ a) = cacheKey (a +:+ ":" +:+ text) lang ∧
  getTTSBuffer text (lang +:+ ":" +:+ a) first.1 = (first.1, first.2).
Proof.
  intros first.
  assert (cacheKey text (lang +:+ ":" +:+ a)
          = cacheKey (a +:+ ":" +:+ text) lang) as Hk.
  { unfold cacheKey. by rewrite !string_app_assoc. }
  split; [done|].
  apply getTTSBuffer_hit. rewrite Hk. unfold first, getTTSBuffer.
  destruct (ttsCache s !! cacheKey (a +:+ ":" +:+ text) lang) as [e|] eqn:Hc;
    [done|].
  destruct (fetchAndDecodeTTS _ _ _) as [[s1 inner] req]. simpl.
  apply lookup_insert_eq.
Qed.

(** ** Requests, playbacks and calls, counted *)

Lemma omap_insert_same {A B} (f : A → option B) (l : list A) i x y :
  l !! i = Some x → f y = f x → omap f (<[i := y]> l) = omap f l.
Proof.
  revert i. induction l as [|z l IH]; intros [|i] Hl Hf; simplify_eq/=.
  - by rewrite Hf.
  - by rewrite (IH i).
Qed.

Lemma omap_length_le {A B} (f : A → option B) (l : list A) :
  length (omap f l) ≤ length l.
Proof.
  induction l as [|x l IH]; simpl; [done|]. unfold omap in IH.
  destruct (f x); simpl; lia.
Qed.

Lemma requests_ok_step s ev : requests_ok s → requests_ok (step s ev).
Proof.
  intros (Hreq & Hlen & Hkey). unfold requests_ok, invocations in *.
  destruct ev; unfold_step; case_step.
  all: rewrite ?omap_app, ?length_app, ?length_alter, ?length_insert; simpl.
  all: rewrite ?app_nil_r, ?Nat.add_0_r.
  all: try (split_and!; [done|done|done]).
  all: try (split_and!; [by rewrite Hreq, seq_S|lia| ]; intros; congruence).
  all: try (split_and!; [by rewrite Hreq, ?app_nil_r|lia|done]).
  all: try (split_and!; [|done|done];
            erewrite omap_insert_same; [done|done|done]).
  all: try (split_and!; [by rewrite Hreq, Nat.add_1_r, seq_S|lia|done]).
  all: try (split_and!; [done|done|]; intros Hk; by rewrite (Hkey Hk)).
  all: split_and!;
         [ first [done | by rewrite Hreq, ?Nat.add_1_r, ?seq_S, ?app_nil_r]
         | lia
         | first [ done | intros; congruence | intros; by apply Hkey
                 | intros Hk; by rewrite (Hkey Hk) ] ].
Qed.

Lemma requests_ok_reachable s : reachable s → requests_ok s.
Proof.
  apply reachable_ind; [by intros [] ?|].
  intros ????. by apply requests_ok_step.
Qed.

(** X6: requests are never repeated or issued on the side.  In every
    reachable state the entries that made a [generateContent] call hold
    the request numbers 0, 1, 2, ... in the order of their creation, one
    each; every entry stands for one invocation of the pipeline; so there
    are never more requests than invocations, and without an API key
    there is none. *)
Theorem one_request_per_invocation (s : State) :
  reachable s →
  omap en_request (entries s) = seq 0 (length (requests s)) ∧
  length (entries s) = length (invocations s) ∧
  length (requests s) ≤ length (invocations s) ∧
  (apiKey s = false → requests s = []).
Proof.
  intros (Hreq & Hlen & Hkey)%requests_ok_reachable. split_and!; try done.
  rewrite <- Hlen. apply (f_equal length) in Hreq.
  rewrite length_seq in Hreq. rewrite <- Hreq. apply omap_length_le.
Qed.

Lemma one_request_per_invocation_witness :
  omap en_request (entries retry_run) = seq 0 (length (requests retry_run)) ∧
  length (entries retry_run) = length (invocations retry_run) ∧
  length (requests retry_run) ≤ length (invocations retry_run) ∧
  (apiKey retry_run = false → requests retry_run = []).
Proof.
  apply (one_request_per_invocation retry_run). by eexists _, _, _.
Defined.


Lemma count_alter {A} (p : A → bool) (f : A → A) (l : list A) i x :
  l !! i = Some x →
  length (filter (λ y, p y = true) (alter f i l)) + (if p x then 1 else 0)
  = length (filter (λ y, p y = true) l) + (if p (f x) then 1 else 0).
Proof.
  revert i. induction l as [|z l IH]; intros [|i] Hl; simplify_eq/=.
  - rewrite !filter_cons. destruct (p x), (p (f x)); simpl; repeat case_decide;
      simpl; try done; lia.
  - rewrite !filter_cons. specialize (IH i Hl).
    case_decide; simpl; lia.
Qed.

Lemma playback_ok_step s ev : playback_ok s → playback_ok (step s ev).
Proof.
  intros (Hsrc & Hcnt & Hres & Hobs). unfold playback_ok, played in *.
  destruct ev; unfold_step; case_step.
  all: rewrite ?omap_app, ?length_app, ?length_alter, ?length_insert,
         ?filter_app, ?filter_cons, ?filter_nil; simpl.
  all: rewrite ?app_nil_r, ?Nat.add_0_r.
  all: try (split_and!; [done|done|done|done]).
  all: split_and!.
  all: try done.
  all: try lia.
  all: try (etrans; [exact Hcnt|]; rewrite length_app; lia).
  all: try (intros b' Hin;
            rewrite ?elem_of_app, ?list_elem_of_singleton in Hin;
            destruct_or?; simplify_eq;
            [destruct (Hobs b' Hin) as (c' & e' & Hc'); exists c', e';
             rewrite ?elem_of_app; by auto]).
  all: try (intros b' Hin;
            rewrite ?elem_of_app, ?list_elem_of_singleton in Hin;
            destruct_or?; simplify_eq;
            [destruct (Hobs b' Hin) as (c' & e' & Hc'); exists c', e';
             rewrite ?elem_of_app; by auto
            |eexists _, _; rewrite ?elem_of_app, ?list_elem_of_singleton;
             by auto]).
  all: try match goal with
       | H : ?l !! ?c = Some ?cl
         |- context [filter _ (alter ?f ?c ?l)] =>
           pose proof (count_alter past_fetch f l c cl H) as Hca;
           set (n1 := length (filter _ (alter f c l))) in *;
           set (n2 := length (filter _ l)) in *;
           unfold past_fetch in Hca; simpl in Hca;
           repeat match goal with
                  | Hs : c_stage _ = _ |- _ => rewrite Hs in Hca
                  end;
           simpl in Hca; lia
       end.
Qed.

Lemma playback_ok_reachable s : reachable s → playback_ok s.
Proof.
  apply reachable_ind; [|intros ????; by apply playback_ok_step].
  intros ??. split_and!; try done. intros b Hin. by apply elem_of_nil in Hin.
Qed.

(** X7: nothing is played that was not fetched, and no call plays twice.
    In every reachable state each started source is one playback and
    each buffer played is one a [playTTS] call received from the cache
    before; there are at most as many playbacks as [playTTS] calls, and
    at most as many [ctx.resume()] calls as calls of [playTTS] and of
    [resumeAudioContext] by the application together. *)
Theorem playback_bounded (s : State) :
  reachable s →
  length (sources s) = length (played s) ∧
  length (played s) ≤ length (calls s) ∧
  length (resumes s) ≤ length (calls s) + length (resumeCalls s) ∧
  (∀ b, b ∈ played s → ∃ c e, Observe c e (Some b) ∈ trace s).
Proof.
  intros (Hsrc & Hcnt & Hres & Hobs)%playback_ok_reachable. split_and!.
  - done.
  - etrans; [exact Hcnt|]. apply length_filter.
  - done.
  - intros b Hin. unfold played in Hin.
    apply list_elem_of_omap in Hin as (it & Hit & Hb).
    destruct it; simplify_eq. by apply Hobs.
Qed.

Lemma playback_bounded_witness :
  let s := exec (init true Suspended)
                (CallResumeAudioContext :: CallPrefetchTTS "hola" "Spanish"
                   :: dedup_run) in
  length (sources s) = length (played s) ∧
  length (played s) ≤ length (calls s) ∧
  length (resumes s) ≤ length (calls s) + length (resumeCalls s) ∧
  (∀ b, b ∈ played s → ∃ c e, Observe c e (Some b) ∈ trace s).
Proof.
  apply (playback_bounded
           (exec (init true Suspended)
                 (CallResumeAudioContext :: CallPrefetchTTS "hola" "Spanish"
                    :: dedup_run))).
  by eexists _, _, _.
Defined.

(** ** A failed [ctx.resume()] *)

Lemma getTTSBuffer_frame text lang s :
  calls (getTTSBuffer text lang s).1 = calls s ∧
  ctxState (getTTSBuffer text lang s).1 = ctxState s ∧
  ∃ ext, trace (getTTSBuffer text lang s).1 = trace s ++ ext.
Proof.
  unfold getTTSBuffer, fetchAndDecodeTTS, getAiClient, getAudioContext.
  case_step.
  all: split_and!; try done; try (by exists []; rewrite app_nil_r);
    by eexists.
Qed.

(** X8: a rejected [ctx.resume()] does not stop a [playTTS] call.  From
    any state in which call [c] waits for resume number [r] of the audio
    context, once the resume is rejected the call logs the failure and
    goes on to [getTTSBuffer]: it ends up waiting for a cache entry, its
    promise still pending. *)
Theorem resume_failure_absorbed (s : State) (c r : nat) (cl : Call) :
  audioAvailable s = true →
  calls s !! c = Some cl →
  c_stage cl = AwaitResume (Some r) →
  resumes s !! r = Some Pending →
  let s' := exec s [ResumeSettles r false; ContinuePlay c; ContinuePlay c] in
  (∃ e, calls s' !! c
        = Some (mkCall (c_text cl) (c_lang cl) (AwaitBuffer false e)
                       (c_promise cl))) ∧
  ConsoleError "Failed to resume audio context" ∈ trace s' ∧
  ctxState s' = ctxState s.
Proof.
  intros Ha Hc Hst Hr s'. unfold s'. clear s'. simpl. rewrite Hr. simpl.
  set (s1 := set_resumes _ s).
  assert (continue_play c s1
          = set_stage c (AwaitResume None)
              (log (ConsoleError "Failed to resume audio context") s1)) as ->.
  { unfold continue_play, s1. simpl. rewrite Hc, Hst.
    by rewrite list_lookup_insert_eq by (by eapply lookup_lt_Some). }
  set (s2 := set_stage _ _ _).
  assert (calls s2 !! c
          = Some (mkCall (c_text cl) (c_lang cl) (AwaitResume None)
                         (c_promise cl))) as Hc2.
  { unfold s2, set_stage. simpl. by rewrite list_lookup_alter_eq, Hc. }
  assert (ConsoleError "Failed to resume audio context" ∈ trace s2) as Ht2.
  { unfold s2, set_stage. simpl. rewrite elem_of_app, list_elem_of_singleton.
    by right. }
  assert (ctxState s2 = ctxState s) as Hx2 by done.
  assert (audioAvailable s2 = true) as Ha2 by done.
  clearbody s2. clear s1.
  unfold continue_play. rewrite Hc2. simpl.
  rewrite getAudioContext_available by done. unfold playTTS_fetch. simpl.
  destruct (getTTSBuffer_frame (c_text cl) (c_lang cl) (set_audioCtx true s2))
    as (Hcalls & Hctx & ext & Htr).
  destruct (getTTSBuffer _ _ _) as [s3 e].
  unfold set_stage. simpl in *. split_and!.
  - exists e. by rewrite list_lookup_alter_eq, Hcalls, Hc2.
  - rewrite Htr, elem_of_app. by left.
  - by rewrite Hctx.
Qed.

Lemma resume_failure_absorbed_witness :
  let s := exec (init true Suspended) [CallPlayTTS "hola" "Spanish"] in
  let s' := exec s [ResumeSettles 0 false; ContinuePlay 0; ContinuePlay 0] in
  (∃ e, calls s' !! 0
        = Some (mkCall "hola" "Spanish" (AwaitBuffer false e) Pending)) ∧
  ConsoleError "Failed to resume audio context" ∈ trace s' ∧
  ctxState s' = ctxState s.
Proof.
  apply (resume_failure_absorbed
           (exec (init true Suspended) [CallPlayTTS "hola" "Spanish"]) 0 0
           (mkCall "hola" "Spanish" (AwaitResume (Some 0)) Pending));
    reflexivity.
Defined.



(** ** Two callers and one failure *)

Ltac fwd_cache Htext Htrim Hm H1 :=
  rewrite exec_cons;
  lazymatch goal with
  | |- context [step ?s ?ev] =>
      let X := fresh "X" in
      let HX := fresh "HX" in
      remember (step s ev) as X eqn:HX;
      unfold step, playTTS, prefetchTTS, continue_play, continue_pipeline,
        run_catch, playTTS_fetch, getTTSBuffer, fetchAndDecodeTTS,
        callResumeAudioContext, continue_resume, resumeAudioContext,
        playBuffer, on_fetch_failed, getAiClient, getAudioContext,
        settle_pending in HX;
      repeat (progress (
        simpl in HX;
        rewrite ?Htext, ?Htrim, ?Hm, ?lookup_delete_eq, ?lookup_insert_eq,
          ?H1 in HX));
      cbv beta iota delta
        [set_audioCtx set_ctxState set_ttsCache set_entries set_requests
         set_resumes set_sources set_calls set_resumeCalls log evict finish
         set_stage apiKey audioContextClass audioCtx ctxState ttsCache
         entries requests resumes sources calls resumeCalls trace app] in HX;
      simpl in HX;
      subst X
  end.

(** X9: deduplication does not reach over the retry.  When two [playTTS]
    calls for one text wait for the same entry and its computation
    fails, each call deletes the key and fetches again: the second
    deletion removes the entry the first retry has just cached, so the
    pipeline is invoked three times in all and two requests for the one
    key are in flight at once, the first of them no longer cached. *)
Theorem retry_race (text lang : string) (o : Error + Response) :
  is_empty_string (trim text) = false →
  pipeline_fails o →
  let s := exec (init true Running) (race_run text lang o) in
  invocations s = [(text, lang); (text, lang); (text, lang)] ∧
  calls s = [mkCall text lang (AwaitBuffer true 1) Pending;
             mkCall text lang (AwaitBuffer true 2) Pending] ∧
  entries s !! 1 = Some (mkEntry (cacheKey text lang) (Some 1) Pending Pending) ∧
  entries s !! 2 = Some (mkEntry (cacheKey text lang) (Some 2) Pending Pending) ∧
  requests s !! 1 = Some Pending ∧ requests s !! 2 = Some Pending ∧
  ttsCache s !! cacheKey text lang = Some 2.
Proof.
  intros Htrim [err H1] s. unfold s. clear s.
  pose proof (trim_nonempty _ Htrim) as Htext.
  unfold init, boot.
  assert (Hm : (∅ : gmap string nat) !! cacheKey text lang = None)
    by apply lookup_empty.
  revert Hm. generalize (∅ : gmap string nat) as m. intros m Hm.
  unfold race_run, invocations.
  destruct o as [e1|r1]; unfold pipeline_outcome in H1; simplify_eq.
  all: repeat (fwd_cache Htext Htrim Hm H1).
  all: simpl; split_and!; try done; apply lookup_insert_eq.
Qed.

Lemma retry_race_witness :
  let s := exec (init true Running)
                (race_run "hola" "Spanish" (inl (ServiceError "503"))) in
  invocations s
  = [("hola", "Spanish"); ("hola", "Spanish"); ("hola", "Spanish")] ∧
  calls s = [mkCall "hola" "Spanish" (AwaitBuffer true 1) Pending;
             mkCall "hola" "Spanish" (AwaitBuffer true 2) Pending] ∧
  entries s !! 1
  = Some (mkEntry (cacheKey "hola" "Spanish") (Some 1) Pending Pending) ∧
  entries s !! 2
  = Some (mkEntry (cacheKey "hola" "Spanish") (Some 2) Pending Pending) ∧
  requests s !! 1 = Some Pending ∧ requests s !! 2 = Some Pending ∧
  ttsCache s !! cacheKey "hola" "Spanish" = Some 2.
Proof.
  apply (retry_race "hola" "Spanish" (inl (ServiceError "503"))).
  - reflexivity.
  - by eexists.
Defined.

(** * Properties of the other services and of the application *)

(** ** The notebook *)

Lemma findTerm_None t notebook :
  App.findTerm t notebook = None ↔ t ∉ terms notebook.
Proof.
  unfold App.findTerm, terms. induction notebook as [|n nb IH]; simpl.
  - split; [|done]. intros _ H. by apply elem_of_nil in H.
  - destruct (String.eqb_spec (App.term n) t) as [<-|Hne].
    + split; [done|]. intros H. exfalso. apply H. by left.
    + rewrite IH. rewrite not_elem_of_cons. naive_solver.
Qed.

Lemma findTerm_Some t notebook n :
  App.findTerm t notebook = Some n → n ∈ notebook ∧ App.term n = t.
Proof.
  unfold App.findTerm. induction notebook as [|m nb IH]; simpl; [done|].
  destruct (String.eqb_spec (App.term m) t) as [<-|Hne].
  - intros [= <-]. split; [by left|done].
  - intros [Hin Ht]%IH. split; [by right|done].
Qed.

Lemma saveEntry_cases entry notebook :
  (App.term entry ∈ terms notebook ∧ App.saveEntry entry notebook = notebook) ∨
  ((App.term entry ∉ terms notebook) ∧
   App.saveEntry entry notebook = entry :: notebook).
Proof.
  unfold App.saveEntry.
  destruct (App.findTerm (App.term entry) notebook) as [n|] eqn:Hf.
  - left. split; [|done]. apply findTerm_Some in Hf as [Hin Ht].
    rewrite <- Ht. unfold terms. by apply list_elem_of_fmap_2.
  - right. by apply findTerm_None in Hf.
Qed.

Lemma saveEntry_NoDup entry notebook :
  NoDup (terms notebook) → NoDup (terms (App.saveEntry entry notebook)).
Proof.
  intros Hnd.
  destruct (saveEntry_cases entry notebook) as [[_ ->]|[Hnin ->]]; [done|].
  unfold terms. simpl. by constructor.
Qed.

(** X10: [saveEntry] keeps the notebook a set of terms.  If no two
    entries of the notebook share a term, the same holds after the save;
    the term of the saved entry is then in the notebook and [isSaved]
    says so; the entries already there stay, in their order, below at
    most one new entry on top. *)
Theorem saveEntry_keeps_terms_unique
    (entry : App.DictionaryEntry) (notebook : list App.DictionaryEntry) :
  NoDup (terms notebook) →
  NoDup (terms (App.saveEntry entry notebook)) ∧
  App.term entry ∈ terms (App.saveEntry entry notebook) ∧
  App.isSaved (App.saveEntry entry notebook) entry = true ∧
  (App.saveEntry entry notebook = notebook ∨
   App.saveEntry entry notebook = entry :: notebook).
Proof.
  intros Hnd.
  assert (App.term entry ∈ terms (App.saveEntry entry notebook)) as Hin.
  { destruct (saveEntry_cases entry notebook) as [[Hin ->]|[_ ->]]; [done|].
    by left. }
  split_and!.
  - by apply saveEntry_NoDup.
  - done.
  - unfold App.isSaved.
    destruct (App.findTerm _ _) eqn:Hf; [done|]. by apply findTerm_None in Hf.
  - destruct (saveEntry_cases entry notebook) as [[_ ->]|[_ ->]]; auto.
Qed.

Lemma saveEntry_keeps_terms_unique_witness :
  let entry := App.diaryEntry 0 "hola" "hello" in
  NoDup (terms (App.saveEntry entry [])) ∧
  App.term entry ∈ terms (App.saveEntry entry []) ∧
  App.isSaved (App.saveEntry entry []) entry = true ∧
  (App.saveEntry entry [] = [] ∨ App.saveEntry entry [] = [entry]).
Proof.
  apply (saveEntry_keeps_terms_unique (App.diaryEntry 0 "hola" "hello") []).
  simpl. constructor.
Defined.

(** X11: the first save of a term wins.  Saving an entry whose term the
    notebook has already been given changes nothing, whatever else the
    entry holds; so a second click on Save is harmless, and an image
    regenerated after the save never reaches the notebook. *)
Theorem first_save_wins
    (entry entry' : App.DictionaryEntry) (notebook : list App.DictionaryEntry)
    (image image' : option string) (s : App.AppState) :
  (App.term entry' = App.term entry →
   App.saveEntry entry' (App.saveEntry entry notebook)
   = App.saveEntry entry notebook) ∧
  App.handleSave entry image' (App.handleSave entry image s)
  = App.handleSave entry image s.
Proof.
  assert (∀ e e' nb, App.term e' = App.term e →
            App.saveEntry e' (App.saveEntry e nb) = App.saveEntry e nb) as H.
  { intros e e' nb Ht.
    destruct (saveEntry_cases e' (App.saveEntry e nb)) as [[_ ->]|[Hnin _]];
      [done|].
    exfalso. apply Hnin. rewrite Ht.
    destruct (saveEntry_cases e nb) as [[Hin ->]|[_ ->]]; [done|]. by left. }
  split; [apply H|].
  unfold App.handleSave. simpl. by rewrite H.
Qed.

Lemma first_save_wins_witness :
  App.saveEntry (App.diaryEntry 1 "hola" "hi")
                (App.saveEntry (App.diaryEntry 0 "hola" "hello") [])
  = App.saveEntry (App.diaryEntry 0 "hola" "hello") [].
Proof.
  apply (proj1 (first_save_wins (App.diaryEntry 0 "hola" "hello")
                  (App.diaryEntry 1 "hola" "hi") [] None None (App.init []))).
  reflexivity.
Defined.

(** ** The services *)

Lemma trim_trimmed text :
  is_empty_string (trim text) = false → trimmed_text (trim text).
Proof. intros H. split; [apply trim_idemp|done]. Qed.

Lemma translateText_trimmed key o translation :
  translateText key o = inr translation → trimmed_text translation.
Proof.
  destruct key, o as [e|[text|]]; simpl; try done.
  - destruct (is_empty_string (trim text)) eqn:Ht; intros [= <-].
    + done.
    + by apply trim_trimmed.
  - by intros [= <-].
Qed.

(** X12: [translateText] never resolves to an empty or untrimmed string.
    Whatever the service answers, a resolved translation is not empty
    and has no white space at either end.  The price is that an answer
    without text, or with white space only, cannot be told from the
    translation "Translation failed."; the promise is rejected only for
    want of an API key or when the request itself fails. *)
Theorem translateText_result :
  (∀ key o translation,
     translateText key o = inr translation → trimmed_text translation) ∧
  (∀ text, all_whitespace text →
     translateText true (inr (Some text))
     = translateText true (inr (Some "Translation failed."))) ∧
  translateText true (inr None)
  = translateText true (inr (Some "Translation failed.")) ∧
  (∀ key o e, translateText key o = inl e →
     (key = false ∧ e = ApiKeyNotFound) ∨ o = inl e).
Proof.
  split_and!.
  - apply translateText_trimmed.
  - intros text Hb%trim_blank. simpl. by rewrite Hb.
  - done.
  - intros [] [e'|text] e; simpl; intros [= <-]; auto.
Qed.

Lemma translateText_result_witness : trimmed_text "hola".
Proof.
  apply (proj1 translateText_result true (inr (Some " hola "))).
  reflexivity.
Defined.

Lemma first_image_spec parts url :
  first_image parts = Some url ↔
  ∃ i part, parts !! i = Some part ∧ image_url part = Some url ∧
            ∀ j p, j < i → parts !! j = Some p → image_url p = None.
Proof.
  induction parts as [|p ps IH]; simpl.
  - split; [done|]. by intros (i & part & Hl & _).
  - destruct (image_url p) as [u|] eqn:Hu.
    + split.
      * intros [= <-]. exists 0, p. split_and!; [done|done|]. intros; lia.
      * intros ([|i] & part & Hl & Hp & Hfirst); simplify_eq/=; [done|].
        specialize (Hfirst 0 p). rewrite Hu in Hfirst.
        by discriminate Hfirst; [lia|].
    + rewrite IH. split.
      * intros (i & part & Hl & Hp & Hfirst). exists (S i), part.
        split_and!; [done|done|]. intros [|j] q Hj Hq; simplify_eq/=; [done|].
        apply (Hfirst j); [lia|done].
      * intros ([|i] & part & Hl & Hp & Hfirst); simplify_eq/=.
        exists i, part. split_and!; [done|done|]. intros j q Hj Hq.
        apply (Hfirst (S j)); [lia|done].
Qed.

Lemma image_url_nonempty part url :
  image_url part = Some url → is_empty_string url = false.
Proof.
  unfold image_url. destruct (Image.inlineData part) as [i|]; simpl; [|done].
  destruct (js_truthy (Image.data i)); [|done]. by intros [= <-].
Qed.

Lemma generateConceptImage_resolves o :
  ∃ imageUrl, generateConceptImage true o = inr imageUrl.
Proof.
  destruct o as [e|response]; simpl; [by eexists|].
  destruct (_ ≫= _); by eexists.
Qed.

(** X13: [generateConceptImage] degrades without failing.  With an API
    key its promise is never rejected: a failed request resolves to the
    placeholder address, a response resolves to the data URL of the
    first part that carries image data, or to [undefined] when no part
    does.  A resolved address is never empty.  Without an API key the
    promise is rejected, the client being created outside the [try]. *)
Theorem generateConceptImage_degrades :
  (∀ o, ∃ imageUrl, generateConceptImage true o = inr imageUrl) ∧
  (∀ e, generateConceptImage true (inl e) = inr (Some placeholder)) ∧
  (∀ parts url,
     first_image parts = Some url ↔
     ∃ i part, parts !! i = Some part ∧ image_url part = Some url ∧
               ∀ j p, j < i → parts !! j = Some p → image_url p = None) ∧
  (∀ key o url,
     generateConceptImage key o = inr (Some url) →
     is_empty_string url = false) ∧
  (∀ o, generateConceptImage false o = inl ApiKeyNotFound).
Proof.
  split_and!.
  - apply generateConceptImage_resolves.
  - done.
  - apply first_image_spec.
  - intros [] [e|response] url; simpl; try done.
    + by intros [= <-].
    + destruct (_ ≫= _) as [parts|]; [|done]. intros [= Hf].
      apply first_image_spec in Hf as (i & part & _ & Hu & _).
      by eapply image_url_nonempty.
  - done.
Qed.

Lemma generateConceptImage_degrades_witness :
  is_empty_string placeholder = false.
Proof.
  apply (proj1 (proj2 (proj2 (proj2 generateConceptImage_degrades)))
           true (inl (ServiceError "503"))).
  reflexivity.
Defined.

(** X14: a search fails exactly when the lookup fails.  With an API key
    the image request cannot make [Promise.all] reject, so [handleSearch]
    shows an entry whenever [lookupTerm] resolves, with the placeholder
    image if the image request failed; without a key it never does. *)
Theorem search_fails_iff_lookup_fails {A : Type} :
  (∀ (textData : Error + A) (o : Error + Image.Response),
     search_all textData (generateConceptImage true o) = None ↔
     ∃ e, textData = inl e) ∧
  (∀ (textData : A) (e : Error),
     search_all (inr textData) (generateConceptImage true (inl e))
     = Some (textData, Some placeholder)) ∧
  (∀ (textData : Error + A) (o : Error + Image.Response),
     search_all textData (generateConceptImage false o) = None).
Proof.
  split_and!.
  - intros [e|textData] o.
    + split; [by eexists|done].
    + destruct (generateConceptImage_resolves o) as [url ->]. simpl.
      split; [done|]. by intros [e ?].
  - done.
  - by intros [e|textData] o.
Qed.

(** X21: regenerating an image never blanks it, but a failure replaces it.
    [handleRegenerateImage] leaves an image on display whenever there was
    one: without an API key, or when the response carries no image, the
    image shown stays.  When the request fails, though, the image shown
    is replaced by the placeholder, because [generateConceptImage] turns
    the failure into an address. *)
Theorem regenerate_keeps_an_image :
  (∀ key o currentImageUrl,
     js_truthy currentImageUrl = true →
     js_truthy (Card.handleRegenerateImage key o currentImageUrl) = true) ∧
  (∀ o currentImageUrl,
     Card.handleRegenerateImage false o currentImageUrl = currentImageUrl) ∧
  (∀ o currentImageUrl,
     generateConceptImage true o = inr None →
     Card.handleRegenerateImage true o currentImageUrl = currentImageUrl) ∧
  (∀ e currentImageUrl,
     Card.handleRegenerateImage true (inl e) currentImageUrl
     = Some placeholder).
Proof.
  split_and!.
  - intros key o cur Hcur. unfold Card.handleRegenerateImage.
    destruct (generateConceptImage key o) as [e|newUrl]; [done|].
    by destruct (js_truthy newUrl) eqn:Hn.
  - done.
  - intros o cur Ho. unfold Card.handleRegenerateImage. by rewrite Ho.
  - done.
Qed.

Lemma regenerate_keeps_an_image_witness :
  js_truthy (Card.handleRegenerateImage true (inl (ServiceError "503"))
               (Some "data:image/png;base64,AAAA")) = true.
Proof.
  apply (proj1 regenerate_keeps_an_image). reflexivity.
Defined.

(** ** The story and its separator *)

Lemma append_nil_l (b : string) : "" +:+ b = b.
Proof. reflexivity. Qed.

Lemma append_cons (c : ascii) (a b : string) :
  String c a +:+ b = String c (a +:+ b).
Proof. reflexivity. Qed.

Lemma prefix_app sep s :
  String.prefix sep s = true ↔ ∃ rest, s = sep +:+ rest.
Proof.
  revert s. induction sep as [|c sep IH]; intros s.
  - split; [intros _; by exists s|]. intros _. by destruct s.
  - destruct s as [|d s]; simpl.
    { split; [done|]. intros [rest Hr]. by rewrite append_cons in Hr. }
    destruct (Ascii.ascii_dec c d) as [->|Hne].
    + rewrite IH. split; intros [rest Hr]; exists rest.
      * by rewrite append_cons, <- Hr.
      * rewrite append_cons in Hr. by simplify_eq.
    + split; [done|]. intros [rest Hr]. rewrite append_cons in Hr.
      by simplify_eq.
Qed.

Lemma occurs_at_0 sep s :
  occurs_at sep s 0 ↔ String.prefix sep s = true.
Proof.
  rewrite prefix_app. unfold occurs_at. split.
  - intros ([|??] & rest & -> & Hl); simplify_eq/=. by exists rest.
  - intros [rest ->]. by exists "", rest.
Qed.

Lemma occurs_at_S sep c s i :
  occurs_at sep (String c s) (S i) ↔ occurs_at sep s i.
Proof.
  unfold occurs_at. split.
  - intros ([|d before] & rest & Heq & Hl); simplify_eq/=.
    rewrite append_cons in Heq. simplify_eq. by exists before, rest.
  - intros (before & rest & -> & <-). by exists (String c before), rest.
Qed.

Lemma split_head_spec sep s :
  (∀ i, occurs_at sep s i → String.length (split_head sep s) ≤ i) ∧
  ((∃ i, occurs_at sep s i) →
   occurs_at sep s (String.length (split_head sep s)) ∧
   ∃ rest, s = split_head sep s +:+ sep +:+ rest) ∧
  ((∀ i, ¬ occurs_at sep s i) → split_head sep s = s).
Proof.
  induction s as [|c s (IH1 & IH2 & IH3)].
  - simpl. split_and!; [intros; lia| |done].
    intros [i ([|??] & rest & Heq & Hl)].
    + rewrite append_nil_l in Heq. split; [|by exists rest].
      by exists "", rest.
    + by rewrite append_cons in Heq.
  - cbn [split_head]. destruct (String.prefix sep (String c s)) eqn:Hp.
    + apply occurs_at_0 in Hp as Ho. split_and!.
      * intros; simpl; lia.
      * intros _. split; [done|]. by apply prefix_app in Hp.
      * intros Hno. by destruct (Hno 0).
    + assert (¬ occurs_at sep (String c s) 0) as Hn0.
      { rewrite occurs_at_0. congruence. }
      split_and!.
      * intros [|i] Ho; [done|]. apply occurs_at_S in Ho. simpl.
        apply IH1 in Ho. lia.
      * intros [[|i] Ho]; [done|]. apply occurs_at_S in Ho.
        destruct IH2 as [Hat [rest Hr]]; [by exists i|]. split.
        -- simpl. by apply occurs_at_S.
        -- exists rest. by rewrite append_cons, <- Hr.
      * intros Hno. f_equal. apply IH3. intros i Ho.
        apply (Hno (S i)). by apply occurs_at_S.
Qed.

(** X15: what [handlePlayStory] has spoken.  The text it hands to [playTTS]
    is the story up to the first "---": it ends where the first
    separator begins, it is the whole story when there is no separator,
    and it is empty, so that nothing is spoken, exactly when the story is
    empty or begins with the separator. *)
Theorem storyText_spec (story : string) :
  (∀ i, occurs_at "---" story i → String.length (App.storyText story) ≤ i) ∧
  ((∃ i, occurs_at "---" story i) →
   ∃ rest, story = App.storyText story +:+ "---" +:+ rest) ∧
  ((∀ i, ¬ occurs_at "---" story i) → App.storyText story = story) ∧
  (is_empty_string (App.storyText story) = true ↔
   story = "" ∨ occurs_at "---" story 0).
Proof.
  unfold App.storyText.
  destruct (split_head_spec "---" story) as (H1 & H2 & H3). split_and!.
  - done.
  - intros Hex. by destruct (H2 Hex).
  - done.
  - rewrite occurs_at_0. destruct story as [|c r]; [by split; auto|].
    cbn [split_head]. destruct (String.prefix "---" (String c r)); simpl.
    + split; auto.
    + split; [done|]. by intros [|].
Qed.

Lemma storyText_spec_witness :
  ∃ rest, "Hola.---Hello." = App.storyText "Hola.---Hello." +:+ "---" +:+ rest.
Proof.
  apply (proj1 (proj2 (storyText_spec "Hola.---Hello."))).
  exists 5. by exists "Hola.", "Hello.".
Defined.

(** ** The application as a whole *)

Lemma app_exec_snoc key s evs ev :
  App.exec key s (evs ++ [ev]) = App.step key (App.exec key s evs) ev.
Proof. unfold App.exec. by rewrite foldl_app. Qed.

Lemma app_reachable_ind (P : App.AppState → Prop) :
  (∀ saved, P (App.init saved)) →
  (∀ key s ev, App.reachable s → P s → P (App.step key s ev)) →
  ∀ s, App.reachable s → P s.
Proof.
  intros Hinit Hstep s (key & saved & evs & ->).
  induction evs as [|ev evs IH] using rev_ind; [apply Hinit|].
  rewrite app_exec_snoc. apply Hstep; [|done]. by exists key, saved, evs.
Qed.

Ltac app_unfold :=
  unfold App.handleSave, App.handleGenerateStory,
    App.handleGenerateStory_rest, App.handlePlayStory,
    App.handleTranslateDiary, App.handleTranslateDiary_rest,
    App.handlePlayDiary, App.handleSaveDiary in *.

Ltac app_cases ev :=
  destruct ev as [[]| | | | | | | | | | | | | | |]; cbn [App.step];
  app_unfold; repeat (case_match; simpl); simpl.

Ltac bools :=
  repeat match goal with
         | H : _ && _ = true |- _ => apply andb_prop in H as [? ?]
         | H : negb _ = true |- _ => apply negb_true_iff in H
         | H : negb _ = false |- _ => apply negb_false_iff in H
         | H : (_ =? _)%Z = false |- _ => apply Z.eqb_neq in H
         | H : (_ =? _)%Z = true |- _ => apply Z.eqb_eq in H
         | H : (_ =? _)%nat = false |- _ => apply Nat.eqb_neq in H
         | H : (_ =? _)%nat = true |- _ => apply Nat.eqb_eq in H
         | H : (_ <? _)%nat = false |- _ => apply Nat.ltb_ge in H
         | H : (_ <? _)%nat = true |- _ => apply Nat.ltb_lt in H
         end.

(** An event leaves the notebook alone or saves one entry to it. *)
Lemma step_notebook key s ev :
  App.notebook (App.step key s ev) = App.notebook s ∨
  ∃ entry, App.notebook (App.step key s ev)
           = App.saveEntry entry (App.notebook s).
Proof. app_cases ev; eauto. Qed.

Lemma saveEntry_suffix entry notebook :
  notebook `suffix_of` App.saveEntry entry notebook.
Proof.
  destruct (saveEntry_cases entry notebook) as [[_ ->]|[_ ->]]; [done|].
  by apply suffix_cons_r.
Qed.

(** X16: the notebook only grows, and stays a set of terms.  Whatever the
    user and the services do, the entries read from [localStorage] at
    start stay in the notebook, in their order, below the entries saved
    since; and if no two stored entries shared a term, no two entries of
    the notebook ever do. *)
Theorem notebook_only_grows
    (key : bool) (saved : list App.DictionaryEntry) (evs : list App.Event) :
  saved `suffix_of` App.notebook (App.exec key (App.init saved) evs) ∧
  (NoDup (terms saved) →
   NoDup (terms (App.notebook (App.exec key (App.init saved) evs)))).
Proof.
  induction evs as [|ev evs [IH1 IH2]] using rev_ind; [done|].
  rewrite app_exec_snoc.
  destruct (step_notebook key (App.exec key (App.init saved) evs) ev)
    as [->|[entry ->]]; [done|].
  split.
  - etrans; [exact IH1|]. apply saveEntry_suffix.
  - intros Hnd. by apply saveEntry_NoDup, IH2.
Qed.

Lemma notebook_only_grows_witness :
  NoDup (terms (App.notebook
                  (App.exec true (App.init [])
                     [App.Navigate App.RESULTS;
                      App.ClickSave (App.diaryEntry 0 "hola" "hello") None;
                      App.ClickSave (App.diaryEntry 1 "hola" "hi") None]))).
Proof.
  apply (proj2 (notebook_only_grows true []
                  [App.Navigate App.RESULTS;
                   App.ClickSave (App.diaryEntry 0 "hola" "hello") None;
                   App.ClickSave (App.diaryEntry 1 "hola" "hi") None])).
  simpl. constructor.
Defined.

Lemma step_notebook_length key s ev :
  length (App.notebook s) ≤ length (App.notebook (App.step key s ev)).
Proof.
  destruct (step_notebook key s ev) as [->|[entry ->]]; [done|].
  destruct (saveEntry_cases entry (App.notebook s)) as [[_ ->]|[_ ->]];
    simpl; lia.
Qed.

Lemma flashcards_ok_step key s ev :
  flashcards_ok s → flashcards_ok (App.step key s ev).
Proof.
  intros [H0 Hlt]. pose proof (step_notebook_length key s ev) as Hlen.
  unfold flashcards_ok, App.has_cards in *. revert Hlen.
  app_cases ev; intros Hlen; bools; simpl in *; try lia.
  unfold App.has_cards in *. bools. lia.
Qed.

Lemma flashcards_ok_reachable s : App.reachable s → flashcards_ok s.
Proof.
  apply app_reachable_ind; [|intros ????; by apply flashcards_ok_step].
  intros saved. unfold flashcards_ok. simpl. lia.
Qed.

(** X17: the flashcard index never leaves the notebook.  In every
    reachable state, when the flashcard view is shown and the notebook is
    not empty, [notebook[currentFlashcardIndex]] is an entry: the
    Previous and Next buttons are disabled at the ends, and the notebook
    never shrinks under the index. *)
Theorem flashcard_in_range (s : App.AppState) :
  App.reachable s →
  App.notebook s ≠ [] →
  (0 <= App.currentFlashcardIndex s
     < Z.of_nat (length (App.notebook s)))%Z ∧
  is_Some (App.currentCard s).
Proof.
  intros [H0 Hlt]%flashcards_ok_reachable Hne.
  assert (0 <= App.currentFlashcardIndex s
            < Z.of_nat (length (App.notebook s)))%Z as Hr.
  { destruct (App.notebook s); [done|]. simpl in *. lia. }
  split; [done|]. unfold App.currentCard.
  destruct (Z.ltb_spec (App.currentFlashcardIndex s) 0); [lia|].
  apply lookup_lt_is_Some. lia.
Qed.

Lemma flashcard_in_range_witness :
  let s := App.exec true (App.init [App.diaryEntry 0 "hola" "hello"])
                    [App.Navigate App.FLASHCARDS; App.ClickNext] in
  (0 <= App.currentFlashcardIndex s
     < Z.of_nat (length (App.notebook s)))%Z ∧
  is_Some (App.currentCard s).
Proof.
  apply (flashcard_in_range
           (App.exec true (App.init [App.diaryEntry 0 "hola" "hello"])
                     [App.Navigate App.FLASHCARDS; App.ClickNext])).
  - by eexists _, _, _.
  - by vm_compute.
Defined.

Lemma storyWords_length notebook :
  length (App.storyWords notebook) = length notebook `min` 10.
Proof. unfold App.storyWords. rewrite length_fmap, length_take. lia. Qed.

Lemma story_requests_ok_step key s ev :
  story_requests_ok s → story_requests_ok (App.step key s ev).
Proof.
  unfold story_requests_ok. intros Hok.
  app_cases ev; try done.
  all: bools; apply Forall_app; split; [done|]; constructor; [|done].
  all: rewrite storyWords_length; lia.
Qed.

(** X18: a story is asked for with three to ten words.
    [handleGenerateStory] sends the words of the ten entries on top of the
    notebook, the target-language term of each where it has one and the
    search term otherwise; and in every reachable state every word list
    sent to [generateStoryFromWords] has at least three and at most ten
    words. *)
Theorem story_words_bound :
  (∀ notebook,
     App.storyWords notebook
     = (λ n, js_or (App.targetTerm n) (App.term n)) <$> take 10 notebook ∧
     length (App.storyWords notebook) = length notebook `min` 10) ∧
  (∀ s, App.reachable s →
        Forall (λ words : list string, 3 ≤ length words ≤ 10)
               (App.storyRequests s)).
Proof.
  split.
  - intros notebook. split; [done|apply storyWords_length].
  - apply app_reachable_ind; [by constructor|].
    intros ????. by apply story_requests_ok_step.
Qed.

Lemma story_words_bound_witness :
  Forall (λ words : list string, 3 ≤ length words ≤ 10)
         (App.storyRequests
            (App.exec true
               (App.init [App.diaryEntry 0 "uno" "one";
                          App.diaryEntry 1 "dos" "two";
                          App.diaryEntry 2 "tres" "three"])
               [App.Navigate App.NOTEBOOK; App.ClickGenerateStory])).
Proof.
  apply (proj2 story_words_bound). by eexists _, _, _.
Defined.

Lemma diary_ok_step key s ev : diary_ok s → diary_ok (App.step key s ev).
Proof.
  unfold diary_ok. intros Hok. app_cases ev; try done; try (by left).
  right. match goal with
         | H : inr (js_or (trim <$> ?o) _) = inr _ |- _ =>
             exact (translateText_trimmed true (inr o) _ H)
         end.
Qed.

Lemma diary_ok_reachable s : App.reachable s → diary_ok s.
Proof.
  apply app_reachable_ind; [by left|]. intros ????. by apply diary_ok_step.
Qed.

(** A notebook stored by an earlier session, with the Notebook view open
    and a story received that has only a blank before its separator. *)
Lemma blank_story_reachable :
  App.reachable
    (App.exec true
       (App.init [App.diaryEntry 0 "uno" "one"; App.diaryEntry 1 "dos" "two";
                  App.diaryEntry 2 "tres" "three"])
       [App.Navigate App.NOTEBOOK; App.ClickGenerateStory;
        App.StorySettles (inr (Some " ---One, two, three."))]).
Proof. by eexists _, _, _. Qed.

(** X19: the diary never asks for blank speech, the story can.  In every
    reachable state, a click on the diary's Listen button calls [playTTS]
    with a text that is not empty and has no white space at either end,
    or calls nothing; so the blank-text branch of the pipeline is out of
    reach from the diary.  It is within reach from the story player: a
    story whose text before the separator is blank is spoken as that
    blank. *)
Theorem diary_speech_not_blank :
  (∀ key s text lang,
     App.reachable s →
     App.spoken (App.step key s App.ClickPlayDiary)
     = App.spoken s ++ [(text, lang)] →
     text = App.diaryResult s ∧ trimmed_text text ∧
     is_empty_string (trim text) = false) ∧
  (∃ s text lang,
     App.reachable s ∧
     App.spoken (App.step true s App.ClickPlayStory)
     = App.spoken s ++ [(text, lang)] ∧
     is_empty_string text = false ∧ all_whitespace text).
Proof.
  split.
  - intros key s text lang Hr%diary_ok_reachable.
    cbn [App.step]. unfold App.handlePlayDiary.
    destruct (is_empty_string (App.diaryResult s)) eqn:He.
    { rewrite andb_false_r. simpl. intros Heq.
      apply (f_equal length) in Heq. rewrite length_app in Heq.
      simpl in Heq. lia. }
    repeat case_match; simpl; intros Heq.
    + apply app_inv_head in Heq. simplify_eq.
      destruct Hr as [Hr|Hr]; [by rewrite Hr in He|].
      split_and!; [done|done|]. destruct Hr as [-> ?]. done.
    + apply (f_equal length) in Heq. rewrite length_app in Heq.
      simpl in Heq. lia.
  - eexists _, " ", _. split; [exact blank_story_reachable|].
    split; [by vm_compute|]. split; [done|].
    unfold all_whitespace. simpl. by repeat constructor.
Qed.

Lemma diary_speech_not_blank_witness :
  let s := App.exec true (App.init [])
             [App.Navigate App.DIARY; App.TypeDiary "hello";
              App.ClickTranslate; App.TranslateSettles (inr (Some " hola "))] in
  "hola" = App.diaryResult s ∧ trimmed_text "hola" ∧
  is_empty_string (trim "hola") = false.
Proof.
  apply (proj1 diary_speech_not_blank true
           (App.exec true (App.init [])
              [App.Navigate App.DIARY; App.TypeDiary "hello";
               App.ClickTranslate; App.TranslateSettles (inr (Some " hola "))])
           "hola" "Spanish").
  - by eexists _, _, _.
  - reflexivity.
Defined.

(** ** The chat *)

Lemma alternates_snoc turn history m :
  alternates turn history = true →
  Card.role m = (if Nat.even (length history) then turn else other turn) →
  alternates turn (history ++ [m]) = true.
Proof.
  revert turn. induction history as [|x l IH]; intros turn Ha Hr.
  - simpl in *. rewrite Hr. by destruct turn.
  - cbn [app alternates] in *. rewrite length_cons, Nat.even_succ in Hr.
    rewrite <- Nat.negb_even in Hr.
    destruct turn, (Card.role x); try done; apply IH; try done.
    all: rewrite Hr; by destruct (Nat.even (length l)).
Qed.

Lemma chat_ok_step key s ev : chat_ok s → chat_ok (Card.step key s ev).
Proof.
  intros (Halt & Hpar & Hsent). unfold chat_ok.
  destruct ev as [text| |o]; cbn [Card.step].
  - done.
  - destruct (Card.isChatLoading s) eqn:Hl; simpl in Hpar;
      [by rewrite Hl|].
    unfold Card.handleChatSubmit.
    destruct (is_empty_string (trim (Card.inputMessage s))) eqn:Ht;
      [by rewrite Hl|].
    assert (Forall (λ call : list Card.ChatMessage * string,
                      alternates Card.user call.1 = true ∧
                      Nat.even (length call.1) = true ∧
                      is_empty_string (trim call.2) = false)
                   (Card.sent s ++ [(Card.chatHistory s, Card.inputMessage s)]))
      as Hsent'.
    { apply Forall_app. split; [done|]. by constructor. }
    destruct key; simpl.
    + split_and!; [|by rewrite length_app, Nat.add_1_r, Nat.even_succ,
                       <- Nat.negb_even, Hpar|done].
      apply alternates_snoc; [done|]. by rewrite Hpar.
    + split_and!; [| |done].
      * apply alternates_snoc.
        -- apply alternates_snoc; [done|]. by rewrite Hpar.
        -- by rewrite length_app, Nat.add_1_r, Nat.even_succ,
             <- Nat.negb_even, Hpar.
      * rewrite !length_app. simpl.
        replace (length (Card.chatHistory s) + 1 + 1)
          with (S (S (length (Card.chatHistory s)))) by lia.
        done.
  - destruct (Card.isChatLoading s) eqn:Hl; simpl in Hpar;
      [|by rewrite Hl].
    unfold Card.handleChatSubmit_rest, Card.chatFailed.
    destruct (sendChatMessage true o); simpl.
    all: split_and!; [|by rewrite length_app, Nat.add_1_r, Nat.even_succ,
                          <- Nat.negb_even, Hpar|done].
    all: apply alternates_snoc; [done|]; by rewrite Hpar.
Qed.

(** X20: the chat is a sequence of exchanges.  In every reachable state
    of a result card the history alternates between the user and the
    model, beginning with the user, and is waiting for the model exactly
    while a request is pending; every history handed to [sendChatMessage]
    is a sequence of complete exchanges, and the message sent with it is
    not blank.  A failed request is answered in the model's place by the
    apology. *)
Theorem chat_alternates (s : Card.CardState) :
  Card.reachable s →
  alternates Card.user (Card.chatHistory s) = true ∧
  Nat.even (length (Card.chatHistory s)) = negb (Card.isChatLoading s) ∧
  Forall (λ call : list Card.ChatMessage * string,
            alternates Card.user call.1 = true ∧
            Nat.even (length call.1) = true ∧
            is_empty_string (trim call.2) = false)
         (Card.sent s).
Proof.
  intros (key & evs & ->).
  induction evs as [|ev evs IH] using rev_ind; [by split_and!|].
  unfold Card.exec. rewrite foldl_app. by apply chat_ok_step.
Qed.

Lemma chat_alternates_witness :
  let s := Card.exec true Card.init
             [Card.TypeMessage "plural?"; Card.Submit;
              Card.ChatSettles (inl (ServiceError "503"));
              Card.TypeMessage "plural?"; Card.Submit] in
  alternates Card.user (Card.chatHistory s) = true ∧
  Nat.even (length (Card.chatHistory s)) = negb (Card.isChatLoading s) ∧
  Forall (λ call : list Card.ChatMessage * string,
            alternates Card.user call.1 = true ∧
            Nat.even (length call.1) = true ∧
            is_empty_string (trim call.2) = false)
         (Card.sent s).
Proof.
  apply (chat_alternates
           (Card.exec true Card.init
              [Card.TypeMessage "plural?"; Card.Submit;
               Card.ChatSettles (inl (ServiceError "503"));
               Card.TypeMessage "plural?"; Card.Submit])).
  by eexists _, _.
Defined.

(** ** Every [playTTS] call can complete *)

Ltac stage_bound Hc Hl :=
  let H := fresh in
  pose proof (Hc _ _ Hl) as [H ?]; split; [|done];
  repeat match goal with
         | |- context [match ?x with _ => _ end] => destruct x
         end; simpl in *; try done; try lia.

Lemma waits_ok_step s ev : cache_wf s → waits_ok s → waits_ok (step s ev).
Proof.
  intros Hwf [Hc He]. unfold waits_ok in *.
  destruct ev; unfold_step; case_step.
  all: try (split; [exact Hc|exact He]).
  all: split; [intros c' cl' Hl|intros e' en' Hl Hp].
  all: rewrite ?length_app, ?length_alter, ?length_insert; simpl.
  all: try (exact (He _ _ Hl Hp)).
  all: try (exact (Hc _ _ Hl)).
  all: try (apply lookup_snoc_inv in Hl as [Hl|[-> ->]];
            [exact (He _ _ Hl Hp)|done]).
  all: try (apply lookup_snoc_inv in Hl as [Hl|[-> ->]];
            [exact (He _ _ Hl Hp)|by eexists]).
  all: try (apply lookup_snoc_inv in Hl as [Hl|[-> ->]];
            [stage_bound Hc Hl|simpl; split; [lia|done]]).
  all: try (apply lookup_snoc_inv in Hl as [Hl|[-> ->]];
            [stage_bound Hc Hl|simpl; split; [done|done]]).
  all: try (stage_bound Hc Hl).
  all: try (apply lookup_insert_inv in Hl as [(-> & -> & _)|[_ Hl]];
            [|exact (He _ _ Hl Hp)]; simpl in Hp; try done;
            by destruct (fetchAndDecodeTTS_rest _)).
  all: apply lookup_alter_inv in Hl as [(-> & x & Hx & ->)|[_ Hl]];
         [|stage_bound Hc Hl].
  all: pose proof (Hc _ _ Hx) as [Hb Hiff]; simplify_eq; simpl.
  all: repeat match goal with
              | Hs : c_stage _ = _ |- _ => rewrite Hs in Hb, Hiff; clear Hs
              end.
  all: split;
         [|split; [done|]; try done; intros Hp; exfalso;
           destruct (c_promise _); try done;
           discriminate (proj2 Hiff ltac:(done))].
  all: try done; try lia.
  all: match goal with
       | H : ttsCache _ !! _ = Some _ |- _ =>
           apply Hwf in H as (en & Hen%lookup_lt_Some & _); lia
       end.
Qed.

Lemma waits_ok_reachable s : reachable s → waits_ok s.
Proof.
  intros Hr. pose proof Hr as Hr'. revert s Hr Hr'.
  apply (reachable_ind (λ s, reachable s → waits_ok s));
    [by intros ?? _; split|].
  intros s ev Hr IH _. apply waits_ok_step; auto using cache_wf_reachable.
Qed.

Lemma exec_app s evs1 evs2 : exec s (evs1 ++ evs2) = exec (exec s evs1) evs2.
Proof. unfold exec. by rewrite foldl_app. Qed.

Lemma set_stage_lookup c st s cl :
  calls s !! c = Some cl →
  calls (set_stage c st s) !! c
  = Some (mkCall (c_text cl) (c_lang cl) st (c_promise cl)).
Proof. intros H. unfold set_stage. simpl. by rewrite list_lookup_alter_eq, H. Qed.

Lemma finish_lookup c r s cl :
  calls s !! c = Some cl →
  calls (finish c r s) !! c
  = Some (mkCall (c_text cl) (c_lang cl) Returned (settle r)).
Proof. intros H. unfold finish. simpl. by rewrite list_lookup_alter_eq, H. Qed.

(** From [await resumeAudioContext()] on. *)
Lemma progress_resume s c cl r :
  calls s !! c = Some cl → c_stage cl = AwaitResume (Some r) →
  r < length (resumes s) →
  ∃ evs cl', calls (exec s evs) !! c = Some cl' ∧
             c_stage cl' = AwaitResume None.
Proof.
  intros Hc Hst Hr. apply lookup_lt_is_Some in Hr as [p Hp].
  destruct p as [|u|err].
  - exists [ResumeSettles r true; ContinuePlay c]. simpl. rewrite Hp. simpl.
    unfold continue_play. simpl. rewrite Hc, Hst.
    rewrite list_lookup_insert_eq by (by eapply lookup_lt_Some).
    eexists. split; [by apply set_stage_lookup|done].
  - exists [ContinuePlay c]. simpl. unfold continue_play. rewrite Hc, Hst, Hp.
    eexists. split; [by apply set_stage_lookup|done].
  - exists [ContinuePlay c]. simpl. unfold continue_play. rewrite Hc, Hst, Hp.
    eexists. split; [by apply set_stage_lookup|done].
Qed.

(** From the first [getTTSBuffer] call on. *)
Lemma progress_fetch s c cl :
  audioAvailable s = true →
  calls s !! c = Some cl → c_stage cl = AwaitResume None →
  ∃ cl' e, calls (exec s [ContinuePlay c]) !! c = Some cl' ∧
           c_stage cl' = AwaitBuffer false e.
Proof.
  intros Ha Hc Hst. simpl. unfold continue_play. rewrite Hc, Hst.
  rewrite getAudioContext_available by done. unfold playTTS_fetch.
  destruct (getTTSBuffer_frame (c_text cl) (c_lang cl) (set_audioCtx true s))
    as (Hcalls & _).
  destruct (getTTSBuffer _ _ _) as [s1 e]. simpl in Hcalls.
  eexists _, e.
  split; [apply set_stage_lookup; by rewrite Hcalls|done].
Qed.

Lemma run_catch_settles s e key req inner :
  entries s !! e = Some (mkEntry key req inner Pending) → inner ≠ Pending →
  (∃ v, en_outer <$> entries (run_catch e s) !! e = Some (Fulfilled v)) ∧
  calls (run_catch e s) = calls s.
Proof.
  intros He Hin. unfold run_catch. rewrite He.
  assert (e < length (entries s)) by (by eapply lookup_lt_Some).
  destruct inner as [|v|err]; [done| |]; simpl.
  - split; [|done]. exists v. by rewrite list_lookup_insert_eq.
  - split; [|done]. exists None. by rewrite list_lookup_insert_eq.
Qed.

Lemma continue_pipeline_settles s e key r outer p :
  entries s !! e = Some (mkEntry key (Some r) Pending outer) →
  requests s !! r = Some p → p ≠ Pending →
  (∃ inner, inner ≠ Pending ∧
            entries (continue_pipeline e s) !! e
            = Some (mkEntry key (Some r) inner outer)) ∧
  calls (continue_pipeline e s) = calls s.
Proof.
  intros He Hr Hp. unfold continue_pipeline. rewrite He, Hr.
  assert (e < length (entries s)) by (by eapply lookup_lt_Some).
  destruct p as [|response|err]; [done| |]; simpl.
  - split; [|done]. eexists. split; [|by rewrite list_lookup_insert_eq].
    by destruct (fetchAndDecodeTTS_rest response).
  - split; [|done]. eexists. split; [|by rewrite list_lookup_insert_eq]. done.
Qed.

Lemma request_in_range s e en r :
  requests_ok s → entries s !! e = Some en → en_request en = Some r →
  r < length (requests s).
Proof.
  intros (Hreq & _) He Hr.
  assert (r ∈ omap en_request (entries s)) as Hin.
  { apply list_elem_of_omap. exists en. split; [|done].
    by eapply list_elem_of_lookup_2. }
  rewrite Hreq in Hin. apply elem_of_seq in Hin. lia.
Qed.

(** A cached promise can always be brought to settle, without any
    [playTTS] call moving. *)
Lemma entry_can_settle s e en :
  reachable s → entries s !! e = Some en →
  ∃ evs v, en_outer <$> entries (exec s evs) !! e = Some (Fulfilled v) ∧
           calls (exec s evs) = calls s.
Proof.
  intros Hr He.
  pose proof (entries_ok_reachable _ Hr _ _ He) as Hok.
  pose proof (proj2 (waits_ok_reachable _ Hr) _ _ He) as Hw.
  pose proof (requests_ok_reachable _ Hr) as Hreq.
  destruct en as [key req inner outer]. unfold outer_ok in Hok. simpl in *.
  destruct outer as [|v|err]; [|exists [], v; simpl; by rewrite He|done].
  destruct inner as [|v|err].
  - destruct Hw as [r ->]; [done|].
    pose proof (request_in_range _ _ _ r Hreq He eq_refl) as Hlt.
    apply lookup_lt_is_Some in Hlt as [p Hp].
    assert (∀ s', entries s' !! e = Some (mkEntry key (Some r) Pending Pending) →
                  ∀ p', requests s' !! r = Some p' → p' ≠ Pending →
                  ∃ v, en_outer <$> entries (exec s' [ContinuePipeline e; RunCatch e]) !! e
                       = Some (Fulfilled v) ∧
                       calls (exec s' [ContinuePipeline e; RunCatch e]) = calls s')
      as Hgo.
    { intros s' He' p' Hp' Hne. simpl.
      destruct (continue_pipeline_settles _ _ _ _ _ _ He' Hp' Hne)
        as [(inner & Hin & He'') Hc1].
      destruct (run_catch_settles _ _ _ _ _ He'' Hin) as [[v Hv] Hc2].
      exists v. split; [done|congruence]. }
    destruct p as [|response|err].
    + destruct (Hgo (step s (ServiceSettles r (inl (ServiceError "503")))) He
                    (Rejected (ServiceError "503"))) as (v & Hv & Hc); [|done|].
      { simpl. unfold settle_pending. by rewrite list_lookup_alter_eq, Hp. }
      exists [ServiceSettles r (inl (ServiceError "503")); ContinuePipeline e;
              RunCatch e], v.
      split; [done|]. exact Hc.
    + destruct (Hgo s He _ Hp) as (v & Hv & Hc); [done|]. by eexists _, v.
    + destruct (Hgo s He _ Hp) as (v & Hv & Hc); [done|]. by eexists _, v.
  - destruct (run_catch_settles _ _ _ _ _ He) as [[w Hw'] Hc]; [done|].
    by exists [RunCatch e], w.
  - destruct (run_catch_settles _ _ _ _ _ He) as [[w Hw'] Hc]; [done|].
    by exists [RunCatch e], w.
Qed.

(** From a settled cached promise on. *)
Lemma progress_buffer s c cl retry e v :
  calls s !! c = Some cl → c_stage cl = AwaitBuffer retry e →
  en_outer <$> entries s !! e = Some (Fulfilled v) →
  ∃ cl', calls (exec s [ContinuePlay c]) !! c = Some cl' ∧
         rank (AwaitBuffer retry e) < rank (c_stage cl').
Proof.
  intros Hc Hst Hv. simpl. unfold continue_play. rewrite Hc, Hst, Hv.
  destruct v as [b|].
  - unfold playBuffer. eexists. split; [by apply set_stage_lookup|].
    simpl. destruct retry; lia.
  - destruct retry.
    + eexists. split; [by apply finish_lookup|]. simpl. lia.
    + unfold playTTS_fetch.
      destruct (getTTSBuffer_frame (c_text cl) (c_lang cl)
                  (evict (cacheKey (c_text cl) (c_lang cl)) (ByRetry c)
                     (log (Observe c e None) s))) as (Hcalls & _).
      destruct (getTTSBuffer _ _ _) as [s1 e1]. simpl in Hcalls.
      eexists. split; [apply set_stage_lookup; by rewrite Hcalls|].
      simpl. lia.
Qed.

(** From [await playBuffer(ctx, buffer)] on. *)
Lemma progress_playback s c cl src :
  calls s !! c = Some cl → c_stage cl = AwaitPlayback src →
  src < length (sources s) →
  ∃ evs cl', calls (exec s evs) !! c = Some cl' ∧ c_stage cl' = Returned.
Proof.
  intros Hc Hst Hs. apply lookup_lt_is_Some in Hs as [[b ended] Hs].
  exists [SourceEnded src; ContinuePlay c]. simpl.
  unfold continue_play. simpl. rewrite Hc, Hst.
  rewrite list_lookup_alter_eq, Hs. simpl.
  rewrite list_lookup_alter_eq, Hc. simpl. by eexists.
Qed.

Lemma progress s c cl :
  reachable s → calls s !! c = Some cl → c_stage cl ≠ Returned →
  ∃ evs cl', calls (exec s evs) !! c = Some cl' ∧
             rank (c_stage cl) < rank (c_stage cl').
Proof.
  intros Hr Hc Hst.
  pose proof (proj1 (proj1 (waits_ok_reachable _ Hr) _ _ Hc)) as Hw.
  assert (audioAvailable s = true) as Ha.
  { unfold audioAvailable. rewrite (reachable_webAudio _ Hr).
    apply orb_true_r. }
  destruct (c_stage cl) as [[r|]|retry e|src|err|] eqn:Hs; [| | | | |done].
  - destruct (progress_resume s c cl r) as (evs & cl' & Hc' & Hs'); try done.
    exists evs, cl'. split; [done|]. rewrite Hs'. simpl. lia.
  - destruct (progress_fetch s c cl) as (cl' & e & Hc' & Hs'); try done.
    exists [ContinuePlay c], cl'. split; [done|]. rewrite Hs'. simpl. lia.
  - apply lookup_lt_is_Some in Hw as [en He].
    destruct (entry_can_settle s e en Hr He) as (evs & v & Hv & Hcalls).
    destruct (progress_buffer (exec s evs) c cl retry e v)
      as (cl' & Hc' & Hrank); [by rewrite Hcalls|done|done|].
    exists (evs ++ [ContinuePlay c]), cl'. rewrite exec_app. done.
  - destruct (progress_playback s c cl src) as (evs & cl' & Hc' & Hs');
      try done.
    exists evs, cl'. split; [done|]. rewrite Hs'. simpl. lia.
  - exists [ContinuePlay c]. simpl. unfold continue_play. rewrite Hc, Hs.
    eexists. split; [by apply finish_lookup|]. simpl. lia.
Qed.

Lemma can_return n : ∀ s c cl,
  reachable s → calls s !! c = Some cl → 5 - rank (c_stage cl) ≤ n →
  ∃ evs cl', calls (exec s evs) !! c = Some cl' ∧ c_stage cl' = Returned.
Proof.
  induction n as [|n IH]; intros s c cl Hr Hc Hn.
  - exists [], cl. split; [done|].
    destruct (c_stage cl) as [[?|]|[] ?|?|?|]; simpl in Hn;
      first [done|lia].
  - assert (c_stage cl = Returned ∨ c_stage cl ≠ Returned) as [Hst|Hst]
      by (destruct (c_stage cl); first [by left|by right]).
    { by exists [], cl. }
    destruct (progress s c cl Hr Hc Hst) as (evs & cl1 & Hc1 & Hrank).
    destruct (IH (exec s evs) c cl1) as (evs' & cl' & Hc' & Hst');
      [by apply reachable_exec|done|lia|].
    exists (evs ++ evs'), cl'. by rewrite exec_app.
Qed.

(** X22: no [playTTS] call is ever stuck.  From every state the module can
    be in, and for every call made so far, there are events (the service
    answering, a source ending, continuations running) after which the
    call has returned and its promise is fulfilled. *)
Theorem playTTS_can_complete s c cl :
  reachable s → calls s !! c = Some cl →
  ∃ evs cl', calls (exec s evs) !! c = Some cl' ∧
             c_stage cl' = Returned ∧ c_promise cl' = Fulfilled ().
Proof.
  intros Hr Hc.
  destruct (can_return 5 s c cl Hr Hc) as (evs & cl' & Hc' & Hst); [lia|].
  exists evs, cl'. split_and!; [done..|].
  pose proof (reachable_exec s evs Hr) as Hr'.
  pose proof (proj2 (proj1 (waits_ok_reachable _ Hr') _ _ Hc')) as Hiff.
  destruct (c_promise cl') as [|[]|err] eqn:Hp;
    [|done|by destruct (calls_ok_reachable _ _ _ err Hr' Hc')].
  by destruct (proj1 Hiff Hst).
Qed.

Lemma playTTS_can_complete_witness :
  ∃ evs cl', calls (exec retry_run evs) !! 0 = Some cl' ∧
             c_stage cl' = Returned ∧ c_promise cl' = Fulfilled ().
Proof.
  eapply (playTTS_can_complete retry_run 0).
  - by eexists _, _, _.
  - by vm_compute.
Defined.
